(** * taro-bot: the GPT request dispatcher and the error-handling decorator

    A shallow embedding of [src/errors.py] (the [error_handler] decorator),
    of [src/gpt_requests.py] (classes [TaskRequest] and [RequestDispatcher],
    the word count and [run_gpt_request]), of [src/utils.py]
    ([admin_required]) and of the administrative operations of [src/main.py]
    around the dispatcher ([clear_gpt_queue], [shutdown_bot],
    [process_admin_callbacks], [process_pending_sub_action] and
    [send_long_message]).

    The program is single-threaded cooperative asyncio code.  Between two
    [await]s a coroutine runs without interruption, so every transition of
    the model is one such uninterrupted stretch: it is triggered by the
    completion of the awaitable a task is suspended on, and the outcome of
    that awaitable (a value or a raised exception) is supplied by the
    environment as part of the event. *)

From stdpp Require Import gmap strings list.
From Stdlib Require Import ZArith Lia.

Open Scope Z_scope.

#[local] Set Warnings "-clear-no-such-hyp".

(** ** Python exceptions and the outcome of awaiting something *)

(** The classes the code distinguishes.  Under every Python version able to
    import this code base (aiogram 3 needs at least 3.8)
    [asyncio.CancelledError] derives from [BaseException] and not from
    [Exception]. *)
Inductive exn : Type :=
| CancelledError                    (* asyncio.CancelledError *)
| BaseExceptionOnly (cls : string)  (* KeyboardInterrupt, SystemExit, ... *)
| TelegramAPIError (msg : string)   (* aiogram.exceptions.TelegramAPIError and subclasses *)
| InvalidStateError                 (* asyncio.InvalidStateError *)
| ValueError (msg : string)
| OtherException (cls : string).    (* any other subclass of Exception *)

#[global] Instance exn_eq_dec : EqDecision exn.
Proof. solve_decision. Defined.

(** [isinstance(e, Exception)] *)
Definition isinstance_Exception (e : exn) : bool :=
  match e with
  | CancelledError | BaseExceptionOnly _ => false
  | _ => true
  end.

(** [isinstance(e, asyncio.CancelledError)] *)
Definition isinstance_CancelledError (e : exn) : bool :=
  match e with CancelledError => true | _ => false end.

(** [isinstance(e, TelegramAPIError)] *)
Definition isinstance_TelegramAPIError (e : exn) : bool :=
  match e with TelegramAPIError _ => true | _ => false end.

Inductive outcome (A : Type) : Type :=
| Returned (a : A)
| Raised (e : exn).
Arguments Returned {A} a.
Arguments Raised {A} e.

#[global] Instance outcome_eq_dec {A} `{EqDecision A} : EqDecision (outcome A).
Proof. solve_decision. Defined.

(** ** [errors.py]: the [error_handler] decorator *)

Module ErrorHandler.

Section Wrapper.
(** [T], the result type of the decorated coroutine.  [default_return] is
    an [Optional[T]]; Python's [None] is taken to be one of the values. *)
Context {T : Type}.

(** The decorator's three parameters. *)
Record params : Type := mkParams {
  default_return : T;
  re_raise : bool;
  retries : Z;
}.

(** What [logger.exception] receives: the function name and [repr(exc)]. *)
Record log_record : Type := mkLog {
  log_function : string;
  log_error : exn;
}.

(** The decorated coroutine function.  It may be awaited several times by
    the retry loop and is free to behave differently each time, so it is
    given by the outcome of its [n]-th invocation, [n] counted from 1. *)
Definition coroutine : Type := positive -> outcome T.

(** tenacity's [retry_if_exception_type(Exception)]. *)
Definition retry_if_exception_type_Exception (e : exn) : bool :=
  isinstance_Exception e.

(** tenacity's [stop_after_attempt(retries)]: stop once the number of the
    attempt just made has reached [retries]. *)
Definition stop_after_attempt (max_attempt : Z) (attempt_number : positive) : bool :=
  max_attempt <=? Z.pos attempt_number.

(** [wrapped()], the body under [@retry(stop=..., wait=..., retry=...,
    reraise=True)].  After a failed attempt tenacity first asks the retry
    predicate (an exception it does not cover is raised at once), then the
    stop condition ([reraise=True] raises the last exception), and
    otherwise sleeps and tries again.  [budget] bounds the recursion; it is
    instantiated with [retries], which the stop condition never lets the
    loop exceed. *)
Fixpoint wrapped (func : coroutine) (max_attempt : Z) (budget : nat)
    (attempt_number : positive) : outcome T :=
  match func attempt_number with
  | Returned v => Returned v
  | Raised e =>
      if retry_if_exception_type_Exception e then
        if stop_after_attempt max_attempt attempt_number then Raised e
        else match budget with
             | O => Raised e
             | S budget' => wrapped func max_attempt budget' (Pos.succ attempt_number)
             end
      else Raised e
  end.

(** The [try] block of [wrapper]. *)
Definition try_body (p : params) (func : coroutine) : outcome T :=
  if 0 <? retries p
  then wrapped func (retries p) (Z.to_nat (retries p)) 1%positive
  else func 1%positive.

(** [wrapper]: the result delivered to the caller and the
    records written to the log. *)
Definition wrapper (name : string) (p : params) (func : coroutine)
    : outcome T * list log_record :=
  match try_body p func with
  | Returned result => (Returned result, [])
  | Raised exc =>
      if isinstance_Exception exc then            (* except Exception as exc: *)
        if isinstance_CancelledError exc then (Raised exc, [])
        else
          let log_data := mkLog name exc in
          if re_raise p then (Raised exc, [log_data])
          else (Returned (default_return p), [log_data])
      else (Raised exc, [])                       (* not caught *)
  end.

(** The number of the last invocation of [func] that [try_body] makes. *)
Fixpoint last_attempt_from (func : coroutine) (max_attempt : Z) (budget : nat)
    (attempt_number : positive) : positive :=
  match func attempt_number with
  | Returned _ => attempt_number
  | Raised e =>
      if retry_if_exception_type_Exception e then
        if stop_after_attempt max_attempt attempt_number then attempt_number
        else match budget with
             | O => attempt_number
             | S budget' => last_attempt_from func max_attempt budget' (Pos.succ attempt_number)
             end
      else attempt_number
  end.

Definition last_attempt (p : params) (func : coroutine) : positive :=
  if 0 <? retries p
  then last_attempt_from func (retries p) (Z.to_nat (retries p)) 1%positive
  else 1%positive.

End Wrapper.
Arguments params T : clear implicits.
Arguments coroutine T : clear implicits.

(** A coroutine that fails on its first invocation and answers on the
    second, under the parameters [run_gpt_request] is decorated with
    ([retries=3], a message as [default_return]). *)
Definition fails_once : coroutine string :=
  fun n => match n with
           | 1%positive => Raised (OtherException "RuntimeError")
           | _ => Returned "answer"
           end.

Definition run_gpt_request_params : params string :=
  mkParams "model error" false 3.

End ErrorHandler.

(** ** [utils.py]: the [admin_required] decorator *)

Module AdminRequired.

(** An argument of a handler, as far as [wrapper] looks at it: an aiogram
    [Message] or [CallbackQuery] with the id of its [from_user] (absent
    when [from_user] is [None]), or a value of any other type. *)
Inductive argument : Type :=
| Message (from_user : option Z)
| CallbackQuery (from_user : option Z)
| Other.

(** What [wrapper] goes on to await. *)
Inductive action : Type :=
| CallFunc                                          (* func(args, kwargs) *)
| Answer (target : argument) (show_alert : bool).   (* target.answer("...") *)

Definition isinstance_Message (a : argument) : bool :=
  match a with Message _ => true | _ => false end.

Definition isinstance_CallbackQuery (a : argument) : bool :=
  match a with CallbackQuery _ => true | _ => false end.

(** [arg.from_user.id] *)
Definition from_user_id (from_user : option Z) : outcome Z :=
  match from_user with
  | Some id => Returned id
  | None => Raised (OtherException "AttributeError")
  end.

(** The loops that look for the user: the first [Message] or
    [CallbackQuery] among the values gives [user_id]. *)
Fixpoint find_user_id (values : list argument) : option (outcome Z) :=
  match values with
  | [] => None
  | Message from_user :: _ | CallbackQuery from_user :: _ => Some (from_user_id from_user)
  | Other :: rest => find_user_id rest
  end.

(** The loops of the refusal: the first value that passes [test]. *)
Fixpoint first_instance (test : argument -> bool) (values : list argument)
    : option argument :=
  match values with
  | [] => None
  | value :: rest => if test value then Some value else first_instance test rest
  end.

Section Wrapper.
Variable ADMIN_IDS : list Z.

(** [wrapper]; [kwargs] is the dict in insertion order. *)
Definition wrapper (args : list argument) (kwargs : list (string * argument))
    : outcome action :=
  let user_id := match find_user_id args with
                 | Some r => Some r
                 | None => find_user_id kwargs.*2
                 end in
  match user_id with
  | None => Returned CallFunc
  | Some (Raised e) => Raised e
  | Some (Returned user_id) =>
      if negb (bool_decide (user_id ∈ ADMIN_IDS)) then
        match first_instance isinstance_Message args with
        | Some arg => Returned (Answer arg false)
        | None =>
            match first_instance isinstance_CallbackQuery args with
            | Some arg => Returned (Answer arg true)
            | None =>
                match first_instance
                        (fun value => isinstance_Message value
                                      || isinstance_CallbackQuery value) kwargs.*2 with
                | Some value => Returned (Answer value (isinstance_CallbackQuery value))
                | None => Returned CallFunc
                end
            end
        end
      else Returned CallFunc
  end.

End Wrapper.

End AdminRequired.

(** ** [main.py]: [send_long_message] *)

Module SendLongMessage.

(** [range(start, stop, step)] as the list of its elements. *)
Definition range (start stop step : Z) : outcome (list Z) :=
  if step =? 0 then Raised (ValueError "range() arg 3 must not be zero")
  else
    let len := if 0 <? step
               then (if start <? stop then (stop - start - 1) / step + 1 else 0)
               else (if stop <? start then (start - stop - 1) / (- step) + 1 else 0) in
    Returned ((fun k => start + Z.of_nat k * step) <$> seq 0 (Z.to_nat len)).

Section Text.
(** The characters of a [str]. *)
Context {A : Type}.

(** [text[i:j]]: a negative index counts from the end, and both are clipped
    to the text. *)
Definition slice (text : list A) (i j : Z) : list A :=
  let len := Z.of_nat (length text) in
  let adjust k := if k <? 0 then Z.max 0 (k + len) else Z.min k len in
  take (Z.to_nat (adjust j - adjust i)) (drop (Z.to_nat (adjust i)) text).

(** What the coroutine awaits. *)
Inductive call : Type :=
| send_message (chat_id : Z) (text : list A)   (* bot.send_message(chat_id, chunk) *)
| sleep (delay : Z).                           (* asyncio.sleep(1) *)

(** The loop.  [awaited n] is the exception the [n]-th await of the
    coroutine ends in, if it does; nothing catches it.  The result is the
    calls made and how the coroutine ended. *)
Fixpoint send_chunks (chat_id : Z) (text : list A) (chunk_size : Z)
    (awaited : nat -> option exn) (n : nat) (indices : list Z)
    : list call * outcome unit :=
  match indices with
  | [] => ([], Returned ())
  | i :: rest =>
      let chunk := slice text i (i + chunk_size) in
      match awaited n with
      | Some e => ([send_message chat_id chunk], Raised e)
      | None =>
          match awaited (S n) with
          | Some e => ([send_message chat_id chunk; sleep 1], Raised e)
          | None =>
              let '(calls, r) := send_chunks chat_id text chunk_size awaited (S (S n)) rest in
              (send_message chat_id chunk :: sleep 1 :: calls, r)
          end
      end
  end.

Definition send_long_message (chat_id : Z) (text : list A) (chunk_size : Z)
    (awaited : nat -> option exn) : list call * outcome unit :=
  match range 0 (Z.of_nat (length text)) chunk_size with
  | Raised e => ([], Raised e)
  | Returned indices => send_chunks chat_id text chunk_size awaited 0 indices
  end.

(** The texts of the messages among the calls. *)
Definition messages (calls : list call) : list (list A) :=
  omap (fun c => match c with send_message _ text => Some text | sleep _ => None end) calls.

End Text.

End SendLongMessage.

(** ** [main.py]: [process_pending_sub_action] and [process_admin_callbacks] *)

Module AdminPanel.

(** *** Dates *)

(** A [datetime.date] is given by its proleptic Gregorian ordinal, from
    [date.min] (1) to [date.max] (3652059); a [timedelta] built from days
    alone, by its number of days. *)
Definition timedelta (days : Z) : outcome Z :=
  if Z.abs days <=? 999999999 then Returned days
  else Raised (OtherException "OverflowError").

Definition date_add (date delta : Z) : outcome Z :=
  if (1 <=? date + delta) && (date + delta <=? 3652059) then Returned (date + delta)
  else Raised (OtherException "OverflowError").

(** *** [process_pending_sub_action] *)

Record PendingSubAction : Type := mkPendingSubAction {
  action : string;
  target_tid : Z;
}.

(** The calls of [database.py] the handler awaits; both are decorated with
    [error_handler(default_return=None)]. *)
Inductive db_call : Type :=
| set_subscription_status (telegram_id : Z) (new_status : string)
| extend_subscription (telegram_id : Z) (new_date : Z).

(** The texts the handler answers with. *)
Inductive response : Type :=
| enter_a_number
| extended (target : Z) (months new_end_date : Z)
| cancelled_fully (target : Z) (months : Z)
| shortened (target : Z) (months new_end_date : Z)
| unknown_action.

(** The handler's body.  [months] is [int(message.text.strip())], absent
    when that raises [ValueError]; [today] is [datetime.date.today()];
    [row] is the outcome of the query for [subscription_end], with the
    date it holds if there is a row, its date is not empty and
    [date.fromisoformat] accepts it.  The result is the new
    [pending_sub_actions], the database calls made, and the answer sent
    (none when the handler just returns). *)
Definition process_pending_sub_action (pending_sub_actions : gmap Z PendingSubAction)
    (admin_id : Z) (months : option Z) (today : Z) (row : outcome (option Z))
    : gmap Z PendingSubAction * list db_call * outcome (option response) :=
  match pending_sub_actions !! admin_id with
  | None => (pending_sub_actions, [], Returned None)
  | Some pending_action =>
      match months with
      | None => (pending_sub_actions, [], Returned (Some enter_a_number))
      | Some months =>
          match row with
          | Raised e => (pending_sub_actions, [], Raised e)
          | Returned stored =>
              let current_end_date := default today stored in
              let target := target_tid pending_action in
              if String.eqb (action pending_action) "extend" then
                let current_end_date :=
                  if current_end_date <? today then today else current_end_date in
                match timedelta (months * 30) with
                | Raised e => (pending_sub_actions, [], Raised e)
                | Returned delta =>
                    match date_add current_end_date delta with
                    | Raised e => (pending_sub_actions, [], Raised e)
                    | Returned new_end_date =>
                        (delete admin_id pending_sub_actions,
                         [set_subscription_status target "premium";
                          extend_subscription target new_end_date],
                         Returned (Some (extended target months new_end_date)))
                    end
                end
              else if String.eqb (action pending_action) "cancel_partial" then
                match timedelta (months * 30) with
                | Raised e => (pending_sub_actions, [], Raised e)
                | Returned delta =>
                    match date_add current_end_date (- delta) with
                    | Raised e => (pending_sub_actions, [], Raised e)
                    | Returned new_end_date =>
                        if new_end_date <=? today then
                          (delete admin_id pending_sub_actions,
                           [set_subscription_status target "expired";
                            extend_subscription target today],
                           Returned (Some (cancelled_fully target months)))
                        else
                          (delete admin_id pending_sub_actions,
                           [extend_subscription target new_end_date],
                           Returned (Some (shortened target months new_end_date)))
                    end
                end
              else
                (delete admin_id pending_sub_actions, [],
                 Returned (Some unknown_action))
          end
      end
  end.

(** *** [process_admin_callbacks] *)

(** What the handler goes on to await for a callback with data [data]. *)
Inductive routed : Type :=
| nothing
| admin_list_users_handler
| show_queue
| clear_gpt_queue
| start_broadcast
| back_to_menu
| answer_unknown_action.

Definition process_admin_callbacks (data : string) : routed :=
  if String.prefix "admin_sub_" data then nothing
  else if String.eqb data "admin_shutdown" || String.eqb data "confirm_shutdown" then nothing
  else if String.prefix "admin_list_users_" data then admin_list_users_handler
  else if String.eqb data "admin_show_queue" then show_queue
  else if String.eqb data "admin_clear_queue" then clear_gpt_queue
  else if String.eqb data "admin_broadcast" then start_broadcast
  else if String.eqb data "admin_back" then back_to_menu
  else answer_unknown_action.

End AdminPanel.

(** ** [gpt_requests.py]: counting words and [run_gpt_request] *)

Module GptRequest.

Section Model.
(** The characters of a [str] with [str.isspace] on one character, and
    [str.strip]. *)
Context {C : Type} (isspace : C -> bool) (strip : list C -> list C).

(** [text.split()]: runs of whitespace separate the words and there is no
    empty word.  [word] is the word being read. *)
Fixpoint split_from (text : list C) (word : list C) : list (list C) :=
  match text with
  | [] => match word with [] => [] | _ :: _ => [word] end
  | c :: rest =>
      if isspace c then
        match word with
        | [] => split_from rest []
        | _ :: _ => word :: split_from rest []
        end
      else split_from rest (word ++ [c])
  end.

Definition split (text : list C) : list (list C) := split_from text [].

Definition approximate_tokens_count (text : list C) : Z :=
  Z.of_nat (length (split text)).

(** [sum(approximate_tokens_count(msg["text"]) for msg in messages)]; a
    message is given by the value under its key ["text"], if it has
    one. *)
Fixpoint sum_tokens (messages : list (option (list C))) : outcome Z :=
  match messages with
  | [] => Returned 0
  | None :: _ => Raised (OtherException "KeyError")
  | Some text :: rest =>
      match sum_tokens rest with
      | Returned n => Returned (approximate_tokens_count text + n)
      | Raised e => Raised e
      end
  end.

(** The strings [run_gpt_request] can return, by the place that builds
    them. *)
Inductive reply : Type :=
| limit_exceeded (total_tokens : Z)
| model_text (text : list C)       (* result[0].text.strip() *)
| no_answer
| deadline_exceeded
| model_error (e : exn)
| default_return_text.             (* the decorator's default_return *)

Inductive body_log : Type :=
| log_deadline_exceeded (e : exn)
| log_model_error (e : exn).

Variable TOKENS_LIMIT : Z.
(** [isinstance(e, AioRpcError) and e.code() == StatusCode.DEADLINE_EXCEEDED] *)
Variable is_deadline_exceeded : exn -> bool.
(** [from yandex_cloud_ml_sdk._exceptions import AioRpcError], the first
    statement of the handler: the exception it raises when the installed
    SDK does not have that name, and nothing when it has. *)
Variable import_AioRpcError : option exn.

(** The undecorated function.  [model_run] is the outcome of
    [await loop.run_in_executor(None, model.run, messages)], the texts of
    the alternatives the model gave.  An exception raised by the import
    inside the handler leaves the function. *)
Definition run_gpt_request_body (messages : list (option (list C)))
    (model_run : outcome (list (list C))) : outcome reply * list body_log :=
  match sum_tokens messages with
  | Raised e => (Raised e, [])
  | Returned total_tokens =>
      if TOKENS_LIMIT <? total_tokens then (Returned (limit_exceeded total_tokens), [])
      else
        match model_run with
        | Returned (alternative :: _) => (Returned (model_text (strip alternative)), [])
        | Returned [] => (Returned no_answer, [])
        | Raised e =>
            if isinstance_Exception e then        (* except Exception as e: *)
              match import_AioRpcError with
              | Some import_error => (Raised import_error, [])
              | None =>
                  if is_deadline_exceeded e
                  then (Returned deadline_exceeded, [log_deadline_exceeded e])
                  else (Returned (model_error e), [log_model_error e])
              end
            else (Raised e, [])
        end
  end.

(** [run_gpt_request] under
    [@error_handler(default_return="...", retries=3)]: every attempt of the
    decorator runs the body again, with the outcome the model gives that
    time. *)
Definition run_gpt_request (messages : list (option (list C)))
    (model_run : positive -> outcome (list (list C)))
    : outcome reply * list ErrorHandler.log_record :=
  ErrorHandler.wrapper "run_gpt_request"
    (ErrorHandler.mkParams default_return_text false 3)
    (fun n => (run_gpt_request_body messages (model_run n)).1).

End Model.

End GptRequest.

(** ** [gpt_requests.py]: [TaskRequest] and [RequestDispatcher] *)

Module Dispatcher.

(** *** Data *)

(** [class TaskRequest].  The callable and its arguments are opaque to the
    dispatcher and are carried as names.  [future] is the address of the
    [asyncio.Future] in the heap of futures below; [add_request] allocates
    one per request, so it also tells two requests apart the way object
    identity does in Python. *)
Record TaskRequest : Type := mkTaskRequest {
  user_id : Z;
  chat_id : Z;
  position_msg_id : Z;
  func_to_call : string;
  func_args : list string;
  func_kwargs : list (string * string);
  future : nat;
}.

#[global] Instance TaskRequest_eq_dec : EqDecision TaskRequest.
Proof. solve_decision. Defined.

#[global] Instance TaskRequest_countable : Countable TaskRequest.
Proof.
  refine (inj_countable'
    (fun r => (user_id r, chat_id r, position_msg_id r, func_to_call r,
               func_args r, func_kwargs r, future r))
    (fun '(a, b, c, d, e, f, g) => mkTaskRequest a b c d e f g) _).
  by intros [].
Defined.

(** An [asyncio.Future]: pending, cancelled, or finished with a result or an
    exception. *)
Inductive future_state : Type :=
| Pending
| Cancelled
| Finished (r : outcome string).

#[global] Instance future_state_eq_dec : EqDecision future_state.
Proof. solve_decision. Defined.

(** [Future.set_result]: allowed once, on a pending future. *)
Definition set_result (futures : gmap nat future_state) (f : nat) (result : string)
    : outcome (gmap nat future_state) :=
  match futures !! f with
  | Some Pending => Returned (<[f := Finished (Returned result)]> futures)
  | _ => Raised InvalidStateError
  end.

(** [Future.cancel]: cancels a pending future and leaves a done one alone. *)
Definition cancel (futures : gmap nat future_state) (f : nat) : gmap nat future_state :=
  match futures !! f with
  | Some Pending => <[f := Cancelled]> futures
  | _ => futures
  end.

(** Time is read off a logical clock that counts ticks,
    [ticks_per_second] of them to the second. *)
Definition ticks_per_second : Z := 1000.

(** Modelled from the spec: [aiolimiter.AsyncLimiter] is a class of a
    package that is not under src/, so the bucket follows section 4.2 of
    the specification: a window of capacity [max_rate] tokens, replenished
    continuously over [time_period] (a leaky bucket).  [time_period] is in
    ticks.  To keep the draining exact, [level] is counted in units of
    [1 / time_period] of a token: one token is [time_period] units, a full
    bucket is [max_rate * time_period] units, and every tick drains
    [max_rate] units.  [last_check] is the time the bucket was last
    drained at.  [granted] is history only: the number of tokens handed
    out so far. *)
Record AsyncLimiter : Type := mkAsyncLimiter {
  max_rate : Z;
  time_period : Z;
  level : Z;
  last_check : Z;
  granted : Z;
}.

(** [has_capacity(1)]: one more token fits. *)
Definition has_capacity (l : AsyncLimiter) : bool :=
  level l + time_period l <=? max_rate l * time_period l.

(** [acquire(1)] refuses an amount above [max_rate] with [ValueError];
    otherwise it waits for [has_capacity] and then takes the token. *)
Definition acquire_refused (l : AsyncLimiter) : bool := max_rate l <? 1.

Definition acquire_error : exn :=
  ValueError "Can't acquire more than the maximum capacity".

Definition acquire (l : AsyncLimiter) : AsyncLimiter :=
  mkAsyncLimiter (max_rate l) (time_period l) (level l + time_period l)
    (last_check l) (granted l + 1).

(** [_leak] after [elapsed] ticks. *)
Definition leak (elapsed : Z) (l : AsyncLimiter) : AsyncLimiter :=
  mkAsyncLimiter (max_rate l) (time_period l)
    (if level l =? 0 then 0 else Z.max (level l - elapsed * max_rate l) 0)
    (last_check l + elapsed) (granted l).

(** [class RequestDispatcher]: the fields assigned in [__init__].  [queue]
    is the deque [asyncio.Queue._queue], oldest item first, and
    [unfinished_tasks] the queue's [_unfinished_tasks]; [semaphore] is the
    semaphore's counter.  The fields [worker_task] and [status_updater_task]
    refer to the two background tasks, whose progress is part of the event
    loop's state further down. *)
Record RequestDispatcher : Type := mkRequestDispatcher {
  queue : list TaskRequest;
  unfinished_tasks : Z;
  semaphore : Z;
  limiter_sec : AsyncLimiter;
  limiter_hour : AsyncLimiter;
  last_position_update : Z;
  update_interval : Z;
  active_requests : gset TaskRequest;
}.

Definition set_queue (q : list TaskRequest) (d : RequestDispatcher) :=
  mkRequestDispatcher q (unfinished_tasks d) (semaphore d) (limiter_sec d)
    (limiter_hour d) (last_position_update d) (update_interval d) (active_requests d).
Definition set_unfinished_tasks (n : Z) (d : RequestDispatcher) :=
  mkRequestDispatcher (queue d) n (semaphore d) (limiter_sec d)
    (limiter_hour d) (last_position_update d) (update_interval d) (active_requests d).
Definition set_semaphore (v : Z) (d : RequestDispatcher) :=
  mkRequestDispatcher (queue d) (unfinished_tasks d) v (limiter_sec d)
    (limiter_hour d) (last_position_update d) (update_interval d) (active_requests d).
Definition set_limiter_sec (l : AsyncLimiter) (d : RequestDispatcher) :=
  mkRequestDispatcher (queue d) (unfinished_tasks d) (semaphore d) l
    (limiter_hour d) (last_position_update d) (update_interval d) (active_requests d).
Definition set_limiter_hour (l : AsyncLimiter) (d : RequestDispatcher) :=
  mkRequestDispatcher (queue d) (unfinished_tasks d) (semaphore d) (limiter_sec d)
    l (last_position_update d) (update_interval d) (active_requests d).
Definition set_last_position_update (t : Z) (d : RequestDispatcher) :=
  mkRequestDispatcher (queue d) (unfinished_tasks d) (semaphore d) (limiter_sec d)
    (limiter_hour d) t (update_interval d) (active_requests d).
Definition set_active_requests (a : gset TaskRequest) (d : RequestDispatcher) :=
  mkRequestDispatcher (queue d) (unfinished_tasks d) (semaphore d) (limiter_sec d)
    (limiter_hour d) (last_position_update d) (update_interval d) a.

(** *** Tasks of the event loop, each at the [await] it is suspended on *)

(** The task running [worker]. *)
Inductive worker_state : Type :=
| AtQueueGet                                   (* await self.queue.get() *)
| AtLimiterSec (task_request : TaskRequest)    (* entering self.limiter_sec *)
| AtLimiterHour (task_request : TaskRequest)   (* entering self.limiter_hour *)
| AtSemaphore (task_request : TaskRequest)     (* entering self.semaphore *)
| WorkerDone (e : exn).                        (* left the loop with e *)

(** A task running [process_task]. *)
Inductive process_state : Type :=
| AtNotifyInProgress     (* await self._notify_in_progress(task_request) *)
| AtFuncToCall           (* await task_request.func_to_call(...) *)
| AtNotifyFinished       (* await self._notify_finished(task_request) *)
| ProcessDone (r : outcome unit).

(** A task of a submitter: [ask_gpt_in_queue], which awaits [add_request]
    and then the future it returned.  [todo] is what is left of the
    snapshot that [update_positions] iterates over, with positions. *)
Inductive submitter_state : Type :=
| AtSendMessage (user chat : Z) (func : string) (args : list string)
    (kwargs : list (string * string))
| AtUpdatePositions (f : nat) (current_time : Z) (total : Z)
    (todo : list (Z * TaskRequest))
| AtFuture (f : nat)                 (* result = await future *)
| SubmitterDone (r : outcome string).

(** The task running [periodic_status_update]. *)
Inductive updater_state : Type :=
| AtSleep                                           (* await asyncio.sleep(...) *)
| AtEditPosition (total : Z) (todo : list (Z * TaskRequest))
| UpdaterDone (e : exn).

#[global] Instance worker_state_eq_dec : EqDecision worker_state.
Proof. solve_decision. Defined.
#[global] Instance process_state_eq_dec : EqDecision process_state.
Proof. solve_decision. Defined.
#[global] Instance submitter_state_eq_dec : EqDecision submitter_state.
Proof. solve_decision. Defined.
#[global] Instance updater_state_eq_dec : EqDecision updater_state.
Proof. solve_decision. Defined.

(** Calls made to the bot (the notification sink), with the exception the
    call ended in, if any. *)
Inductive sink_call : Type :=
| send_message (chat : Z)
| edit_position (chat message_id pos total : Z)
| edit_in_progress (chat message_id : Z)
| delete_message (chat message_id : Z).

(** Calls of [logger.exception] and [logger.warning], by call site. *)
Inductive log_record : Type :=
| exception_enqueue_send (e : exn)        (* add_request *)
| exception_edit_position (e : exn)       (* update_positions *)
| warning_edit_position (e : exn)         (* _edit_position_message *)
| warning_in_progress (e : exn)           (* _notify_in_progress *)
| warning_finished (e : exn)              (* _notify_finished *)
| exception_process_task (e : exn).       (* process_task *)

(** The state between two transitions: the dispatcher object, the heap of
    futures, the tasks, and what has been observed so far.  The last three
    fields are history only: the requests in the order [queue.put] received
    them, in the order [queue.get] handed them to the worker, and in the
    order the worker passed them to [asyncio.create_task]. *)
Record World : Type := mkWorld {
  disp : RequestDispatcher;
  futures : gmap nat future_state;
  next_future : nat;
  worker_task : worker_state;
  status_updater_task : updater_state;
  process_tasks : list (TaskRequest * process_state);
  submitter_tasks : list submitter_state;
  stopped : bool;
  sink_calls : list (sink_call * option exn);
  log : list log_record;
  hist_put : list TaskRequest;
  hist_get : list TaskRequest;
  hist_admit : list TaskRequest;
}.

Definition set_disp (d : RequestDispatcher) (w : World) : World :=
  mkWorld d (futures w) (next_future w) (worker_task w) (status_updater_task w)
    (process_tasks w) (submitter_tasks w) (stopped w) (sink_calls w) (log w)
    (hist_put w) (hist_get w) (hist_admit w).
Definition set_futures (fs : gmap nat future_state) (w : World) : World :=
  mkWorld (disp w) fs (next_future w) (worker_task w) (status_updater_task w)
    (process_tasks w) (submitter_tasks w) (stopped w) (sink_calls w) (log w)
    (hist_put w) (hist_get w) (hist_admit w).
Definition set_next_future (n : nat) (w : World) : World :=
  mkWorld (disp w) (futures w) n (worker_task w) (status_updater_task w)
    (process_tasks w) (submitter_tasks w) (stopped w) (sink_calls w) (log w)
    (hist_put w) (hist_get w) (hist_admit w).
Definition set_worker_task (s : worker_state) (w : World) : World :=
  mkWorld (disp w) (futures w) (next_future w) s (status_updater_task w)
    (process_tasks w) (submitter_tasks w) (stopped w) (sink_calls w) (log w)
    (hist_put w) (hist_get w) (hist_admit w).
Definition set_status_updater_task (s : updater_state) (w : World) : World :=
  mkWorld (disp w) (futures w) (next_future w) (worker_task w) s
    (process_tasks w) (submitter_tasks w) (stopped w) (sink_calls w) (log w)
    (hist_put w) (hist_get w) (hist_admit w).
Definition set_process_tasks (ps : list (TaskRequest * process_state)) (w : World) : World :=
  mkWorld (disp w) (futures w) (next_future w) (worker_task w) (status_updater_task w)
    ps (submitter_tasks w) (stopped w) (sink_calls w) (log w)
    (hist_put w) (hist_get w) (hist_admit w).
Definition set_submitter_tasks (cs : list submitter_state) (w : World) : World :=
  mkWorld (disp w) (futures w) (next_future w) (worker_task w) (status_updater_task w)
    (process_tasks w) cs (stopped w) (sink_calls w) (log w)
    (hist_put w) (hist_get w) (hist_admit w).
Definition set_stopped (b : bool) (w : World) : World :=
  mkWorld (disp w) (futures w) (next_future w) (worker_task w) (status_updater_task w)
    (process_tasks w) (submitter_tasks w) b (sink_calls w) (log w)
    (hist_put w) (hist_get w) (hist_admit w).
Definition add_sink_call (c : sink_call) (r : option exn) (w : World) : World :=
  mkWorld (disp w) (futures w) (next_future w) (worker_task w) (status_updater_task w)
    (process_tasks w) (submitter_tasks w) (stopped w) (sink_calls w ++ [(c, r)]) (log w)
    (hist_put w) (hist_get w) (hist_admit w).
Definition add_log (l : list log_record) (w : World) : World :=
  mkWorld (disp w) (futures w) (next_future w) (worker_task w) (status_updater_task w)
    (process_tasks w) (submitter_tasks w) (stopped w) (sink_calls w) (log w ++ l)
    (hist_put w) (hist_get w) (hist_admit w).
Definition add_hist_put (r : TaskRequest) (w : World) : World :=
  mkWorld (disp w) (futures w) (next_future w) (worker_task w) (status_updater_task w)
    (process_tasks w) (submitter_tasks w) (stopped w) (sink_calls w) (log w)
    (hist_put w ++ [r]) (hist_get w) (hist_admit w).
Definition add_hist_get (r : TaskRequest) (w : World) : World :=
  mkWorld (disp w) (futures w) (next_future w) (worker_task w) (status_updater_task w)
    (process_tasks w) (submitter_tasks w) (stopped w) (sink_calls w) (log w)
    (hist_put w) (hist_get w ++ [r]) (hist_admit w).
Definition add_hist_admit (r : TaskRequest) (w : World) : World :=
  mkWorld (disp w) (futures w) (next_future w) (worker_task w) (status_updater_task w)
    (process_tasks w) (submitter_tasks w) (stopped w) (sink_calls w) (log w)
    (hist_put w) (hist_get w) (hist_admit w ++ [r]).

(** The exception an awaited call ended in, if it did. *)
Definition failure {A} (r : outcome A) : option exn :=
  match r with Returned _ => None | Raised e => Some e end.

(** *** [asyncio.Queue], as far as the program uses it *)

(** [put_nowait]: the queue is unbounded, so [await queue.put(item)] never
    suspends. *)
Definition Queue_put (item : TaskRequest) (d : RequestDispatcher) : RequestDispatcher :=
  set_unfinished_tasks (unfinished_tasks d + 1) (set_queue (queue d ++ [item]) d).

(** [get_nowait], which [await queue.get()] returns with as soon as the
    deque is not empty. *)
Definition Queue_get (d : RequestDispatcher) : option (TaskRequest * RequestDispatcher) :=
  match queue d with
  | [] => None
  | item :: rest => Some (item, set_queue rest d)
  end.

Definition Queue_task_done (d : RequestDispatcher) : outcome RequestDispatcher :=
  if unfinished_tasks d <=? 0
  then Raised (ValueError "task_done() called too many times")
  else Returned (set_unfinished_tasks (unfinished_tasks d - 1) d).

(** *** [RequestDispatcher.__init__] *)

(** [asyncio.Semaphore] refuses a negative initial value.  The two tasks are
    created here; the worker first runs up to [queue.get()], the status
    updater up to the start of its first tick. *)
Definition __init__ (max_tasks req_per_sec req_per_hour : Z) : outcome World :=
  if max_tasks <? 0 then Raised (ValueError "Semaphore initial value must be >= 0")
  else Returned {|
    disp := {| queue := [];
               unfinished_tasks := 0;
               semaphore := max_tasks;
               limiter_sec := mkAsyncLimiter req_per_sec (1 * ticks_per_second) 0 0 0;
               limiter_hour :=
                 mkAsyncLimiter req_per_hour (3600 * ticks_per_second) 0 0 0;
               last_position_update := 0;
               update_interval := 5;
               active_requests := ∅ |};
    futures := ∅;
    next_future := 0%nat;
    worker_task := AtQueueGet;
    status_updater_task := AtSleep;
    process_tasks := [];
    submitter_tasks := [];
    stopped := false;
    sink_calls := [];
    log := [];
    hist_put := [];
    hist_get := [];
    hist_admit := [];
  |}.

(** *** Notifications *)

(** The three notification helpers have one shape: await a call of the bot
    inside [try ... except TelegramAPIError], log a warning when that class
    is raised.  Each maps the outcome of the bot's call to the outcome of
    the helper. *)
Definition _edit_position_message (r : outcome unit) : outcome unit * list log_record :=
  match r with
  | Returned _ => (Returned (), [])
  | Raised e =>
      if isinstance_TelegramAPIError e then (Returned (), [warning_edit_position e])
      else (Raised e, [])
  end.

Definition _notify_in_progress (r : outcome unit) : outcome unit * list log_record :=
  match r with
  | Returned _ => (Returned (), [])
  | Raised e =>
      if isinstance_TelegramAPIError e then (Returned (), [warning_in_progress e])
      else (Raised e, [])
  end.

Definition _notify_finished (r : outcome unit) : outcome unit * list log_record :=
  match r with
  | Returned _ => (Returned (), [])
  | Raised e =>
      if isinstance_TelegramAPIError e then (Returned (), [warning_finished e])
      else (Raised e, [])
  end.

(** *** [update_positions] *)

(** Up to the first [await]: the snapshot of the deque, its length, and the
    enumeration with [pos = idx + 1]. *)
Definition update_positions_start (d : RequestDispatcher) : Z * list (Z * TaskRequest) :=
  let snapshot := queue d in
  let total := Z.of_nat (length snapshot) in
  (total, imap (fun idx req => (Z.of_nat idx + 1, req)) snapshot).

(** One turn of the loop: [try: await self._edit_position_message(...)
    except Exception: logger.exception(...)]. *)
Definition update_positions_body (r : outcome unit) : outcome unit * list log_record :=
  match _edit_position_message r with
  | (Returned _, l) => (Returned (), l)
  | (Raised e, l) =>
      if isinstance_Exception e then (Returned (), l ++ [exception_edit_position e])
      else (Raised e, l)
  end.

(** *** [worker] *)

Definition add_active (task_request : TaskRequest) (d : RequestDispatcher) :=
  set_active_requests (active_requests d ∪ {[task_request]}) d.

Definition discard_active (task_request : TaskRequest) (d : RequestDispatcher) :=
  set_active_requests (active_requests d ∖ {[task_request]}) d.

(** [asyncio.create_task(self.process_task(task_request))]: the new task
    is handed to the event loop and kept nowhere else.  It starts at the
    first [await] of [process_task]. *)
Definition create_task_process_task (task_request : TaskRequest) (w : World) : World :=
  set_process_tasks (process_tasks w ++ [(task_request, AtNotifyInProgress)]) w.

(** The points at which the worker is resumed. *)
Inductive worker_event : Type :=
| queue_get_ready
| limiter_sec_entered
| limiter_hour_entered
| semaphore_entered.

(** One stretch of [worker], from the [await] it resumes at to the next.
    [async with self.limiter_sec, self.limiter_hour, self.semaphore] enters
    the three in this order.  A limiter whose [max_rate] is below 1 refuses
    the token with [ValueError]; nothing in [worker] catches it, so the
    task ends there, the request still in [active_requests].  The body of
    the [with] is the call of [create_task] alone; leaving it releases the
    semaphore (a limiter has nothing to release), then comes
    [self.queue.task_done()] and the next turn of the loop. *)
Definition worker (ev : worker_event) (w : World) : option World :=
  match worker_task w, ev with
  | AtQueueGet, queue_get_ready =>
      match Queue_get (disp w) with
      | None => None
      | Some (task_request, d) =>
          let d := add_active task_request d in
          Some (set_worker_task (AtLimiterSec task_request)
                  (add_hist_get task_request (set_disp d w)))
      end
  | AtLimiterSec task_request, limiter_sec_entered =>
      if acquire_refused (limiter_sec (disp w)) then
        Some (set_worker_task (WorkerDone acquire_error) w)
      else if has_capacity (limiter_sec (disp w)) then
        Some (set_worker_task (AtLimiterHour task_request)
                (set_disp (set_limiter_sec (acquire (limiter_sec (disp w))) (disp w)) w))
      else None
  | AtLimiterHour task_request, limiter_hour_entered =>
      if acquire_refused (limiter_hour (disp w)) then
        Some (set_worker_task (WorkerDone acquire_error) w)
      else if has_capacity (limiter_hour (disp w)) then
        Some (set_worker_task (AtSemaphore task_request)
                (set_disp (set_limiter_hour (acquire (limiter_hour (disp w))) (disp w)) w))
      else None
  | AtSemaphore task_request, semaphore_entered =>
      if 0 <? semaphore (disp w) then
        (* Semaphore.acquire *)
        let w := set_disp (set_semaphore (semaphore (disp w) - 1) (disp w)) w in
        (* the body of the with statement *)
        let w := add_hist_admit task_request (create_task_process_task task_request w) in
        (* Semaphore.release *)
        let w := set_disp (set_semaphore (semaphore (disp w) + 1) (disp w)) w in
        match Queue_task_done (disp w) with
        | Returned d => Some (set_worker_task AtQueueGet (set_disp d w))
        | Raised e => Some (set_worker_task (WorkerDone e) w)
        end
      else None
  | _, _ => None
  end.

(** *** [process_task] *)

Definition set_process_task (i : nat) (task_request : TaskRequest) (s : process_state)
    (w : World) : World :=
  set_process_tasks (<[i := (task_request, s)]> (process_tasks w)) w.

(** Leaving the [try] statement with exception [e]: the handler
    [except Exception] logs it and the task ends normally; any other
    exception goes on to end the task.  Either way the [finally] clause
    discards the request from the active set. *)
Definition process_task_raise (i : nat) (task_request : TaskRequest) (e : exn)
    (w : World) : World :=
  let w := if isinstance_Exception e then add_log [exception_process_task e] w else w in
  let w := set_disp (discard_active task_request (disp w)) w in
  set_process_task i task_request
    (ProcessDone (if isinstance_Exception e then Returned () else Raised e)) w.

(** Reaching the end of the [try] block. *)
Definition process_task_return (i : nat) (task_request : TaskRequest) (w : World) : World :=
  let w := set_disp (discard_active task_request (disp w)) w in
  set_process_task i task_request (ProcessDone (Returned ())) w.

(** The points at which a [process_task] is resumed, with the outcome of
    what it awaited. *)
Inductive process_event : Type :=
| in_progress_edited (r : outcome unit)    (* bot.edit_message_text *)
| func_to_call_done (r : outcome string)   (* task_request.func_to_call(...) *)
| message_deleted (r : outcome unit).      (* bot.delete_message *)

Definition process_task (i : nat) (ev : process_event) (w : World) : option World :=
  match process_tasks w !! i with
  | Some (task_request, AtNotifyInProgress) =>
      match ev with
      | in_progress_edited r =>
          let w := add_sink_call
                     (edit_in_progress (chat_id task_request) (position_msg_id task_request))
                     (failure r) w in
          let '(r, l) := _notify_in_progress r in
          let w := add_log l w in
          match r with
          | Returned _ => Some (set_process_task i task_request AtFuncToCall w)
          | Raised e => Some (process_task_raise i task_request e w)
          end
      | _ => None
      end
  | Some (task_request, AtFuncToCall) =>
      match ev with
      | func_to_call_done (Returned result_text) =>
          match set_result (futures w) (future task_request) result_text with
          | Returned fs => Some (set_process_task i task_request AtNotifyFinished (set_futures fs w))
          | Raised e => Some (process_task_raise i task_request e w)
          end
      | func_to_call_done (Raised e) => Some (process_task_raise i task_request e w)
      | _ => None
      end
  | Some (task_request, AtNotifyFinished) =>
      match ev with
      | message_deleted r =>
          let w := add_sink_call
                     (delete_message (chat_id task_request) (position_msg_id task_request))
                     (failure r) w in
          let '(r, l) := _notify_finished r in
          let w := add_log l w in
          match r with
          | Returned _ => Some (process_task_return i task_request w)
          | Raised e => Some (process_task_raise i task_request e w)
          end
      | _ => None
      end
  | _ => None
  end.

(** *** [ask_gpt_in_queue] and [add_request] *)

Definition set_submitter_task (c : nat) (s : submitter_state) (w : World) : World :=
  set_submitter_tasks (<[c := s]> (submitter_tasks w)) w.

(** [ask_gpt_in_queue] is decorated with [@error_handler(default_return="")];
    this is what its caller gets when its body ends in [r]. *)
Definition ask_gpt_in_queue_result (r : outcome string) : outcome string :=
  (ErrorHandler.wrapper "ask_gpt_in_queue"
     (ErrorHandler.mkParams EmptyString false 0) (fun _ => r)).1.

(** [self.last_position_update = current_time; return future], after which
    [ask_gpt_in_queue] awaits the future. *)
Definition add_request_return (c f : nat) (current_time : Z) (update : bool)
    (w : World) : World :=
  let w := if update
           then set_disp (set_last_position_update current_time (disp w)) w
           else w in
  set_submitter_task c (AtFuture f) w.

(** The loop of the [update_positions] that [add_request] awaits: suspended
    on the next edit, or done. *)
Definition add_request_update (c f : nat) (current_time total : Z)
    (todo : list (Z * TaskRequest)) (w : World) : World :=
  match todo with
  | [] => add_request_return c f current_time true w
  | _ :: _ => set_submitter_task c (AtUpdatePositions f current_time total todo) w
  end.

(** [add_request] from the creation of the future to its next suspension:
    the request is built and put, and [update_positions] is awaited if the
    last update is [update_interval] or more in the past. *)
Definition add_request_put (c : nat) (user chat : Z) (func : string)
    (args : list string) (kwargs : list (string * string))
    (position_msg_id current_time : Z) (w : World) : World :=
  let f := next_future w in
  let w := set_next_future (S f) (set_futures (<[f := Pending]> (futures w)) w) in
  let task_request := mkTaskRequest user chat position_msg_id func args kwargs f in
  let w := add_hist_put task_request (set_disp (Queue_put task_request (disp w)) w) in
  if update_interval (disp w) <=? current_time - last_position_update (disp w)
  then add_request_update c f current_time
         (update_positions_start (disp w)).1 (update_positions_start (disp w)).2 w
  else add_request_return c f current_time false w.

(** The points at which a submitter is resumed. *)
Inductive submitter_event : Type :=
| message_sent (r : outcome Z) (current_time : Z)
    (* bot.send_message gave the message id or raised; [current_time] is
       what time.time() reads in this stretch *)
| position_edited (r : outcome unit)   (* bot.edit_message_text *)
| future_done.                         (* the awaited future is done *)

Definition add_request (c : nat) (ev : submitter_event) (w : World) : option World :=
  match submitter_tasks w !! c with
  | Some (AtSendMessage user chat func args kwargs) =>
      match ev with
      | message_sent r current_time =>
          let w := add_sink_call (send_message chat) (failure r) w in
          (* try: queue_msg = await send_message(...) except Exception: message_id=0 *)
          match r with
          | Returned message_id =>
              Some (add_request_put c user chat func args kwargs message_id current_time w)
          | Raised e =>
              if isinstance_Exception e then
                Some (add_request_put c user chat func args kwargs 0 current_time
                        (add_log [exception_enqueue_send e] w))
              else
                Some (set_submitter_task c
                        (SubmitterDone (ask_gpt_in_queue_result (Raised e))) w)
          end
      | _ => None
      end
  | Some (AtUpdatePositions f current_time total ((pos, req) :: todo)) =>
      match ev with
      | position_edited r =>
          let w := add_sink_call
                     (edit_position (chat_id req) (position_msg_id req) pos total)
                     (failure r) w in
          let '(r, l) := update_positions_body r in
          let w := add_log l w in
          match r with
          | Returned _ => Some (add_request_update c f current_time total todo w)
          | Raised e =>
              Some (set_submitter_task c (SubmitterDone (ask_gpt_in_queue_result (Raised e))) w)
          end
      | _ => None
      end
  | Some (AtFuture f) =>
      match ev with
      | future_done =>
          match futures w !! f with
          | Some (Finished r) =>
              Some (set_submitter_task c (SubmitterDone (ask_gpt_in_queue_result r)) w)
          | Some Cancelled =>
              Some (set_submitter_task c
                      (SubmitterDone (ask_gpt_in_queue_result (Raised CancelledError))) w)
          | _ => None
          end
      | _ => None
      end
  | _ => None
  end.

(** *** [periodic_status_update] *)

Inductive updater_event : Type :=
| sleep_done                            (* a tick begins *)
| updater_position_edited (r : outcome unit).

Definition updater_next (total : Z) (todo : list (Z * TaskRequest)) : updater_state :=
  match todo with
  | [] => AtSleep
  | _ :: _ => AtEditPosition total todo
  end.

(** [update_positions] catches every [Exception] of an edit itself, so the
    handler of [periodic_status_update] around it has nothing left to
    catch; an exception of another kind ends the task. *)
Definition periodic_status_update (ev : updater_event) (w : World) : option World :=
  match status_updater_task w, ev with
  | AtSleep, sleep_done =>
      let '(total, todo) := update_positions_start (disp w) in
      Some (set_status_updater_task (updater_next total todo) w)
  | AtEditPosition total ((pos, req) :: todo), updater_position_edited r =>
      let w := add_sink_call
                 (edit_position (chat_id req) (position_msg_id req) pos total)
                 (failure r) w in
      let '(r, l) := update_positions_body r in
      let w := add_log l w in
      match r with
      | Returned _ => Some (set_status_updater_task (updater_next total todo) w)
      | Raised e => Some (set_status_updater_task (UpdaterDone e) w)
      end
  | _, _ => None
  end.

(** ** [main.py]: the two operations that reach into the dispatcher *)

(** [clear_gpt_queue], up to its first [await]: the three statements on
    [request_dispatcher.queue]. *)
Definition clear_gpt_queue (d : RequestDispatcher) : RequestDispatcher :=
  let n := Z.of_nat (length (queue d)) in
  set_unfinished_tasks (Z.max 0 (unfinished_tasks d - n)) (set_queue [] d).

(** [Task.cancel()] on a [process_task]: [CancelledError] is raised at the
    [await] it is suspended on. *)
Definition cancel_process_task (w : World) (i : nat) : World :=
  match process_tasks w !! i with
  | Some (_, ProcessDone _) | None => w
  | Some (task_request, _) => process_task_raise i task_request CancelledError w
  end.

(** [Task.cancel()] on a submitter.  A task suspended on a future cancels
    that future (asyncio's [Task.cancel] calls [cancel()] on the future the
    task waits for); a task suspended inside [add_request] is waiting for
    a call of the bot, and the request's future is not involved. *)
Definition cancel_submitter_task (w : World) (c : nat) : World :=
  match submitter_tasks w !! c with
  | Some (SubmitterDone _) | None => w
  | Some (AtFuture f) =>
      set_submitter_task c (SubmitterDone (ask_gpt_in_queue_result (Raised CancelledError)))
        (set_futures (cancel (futures w) f) w)
  | Some _ =>
      set_submitter_task c (SubmitterDone (ask_gpt_in_queue_result (Raised CancelledError))) w
  end.

Definition cancel_status_updater_task (s : updater_state) : updater_state :=
  match s with
  | UpdaterDone e => UpdaterDone e
  | _ => UpdaterDone CancelledError
  end.

(** [shutdown_bot], as far as the dispatcher, its tasks and the submitters
    are concerned: cancel the worker and await it, then cancel every other
    task and gather them.  [await request_dispatcher.worker_task] is only
    guarded by [except asyncio.CancelledError]: had the worker ended with
    another exception before, that exception would leave [shutdown_bot]
    here. *)
Definition shutdown_bot (w : World) : outcome World :=
  let awaited := match worker_task w with
                 | WorkerDone e => e
                 | _ => CancelledError
                 end in
  if isinstance_CancelledError awaited then
    let w := set_worker_task (WorkerDone awaited) w in
    let w := set_status_updater_task
               (cancel_status_updater_task (status_updater_task w)) w in
    let w := foldl cancel_process_task w (seq 0 (length (process_tasks w))) in
    let w := foldl cancel_submitter_task w (seq 0 (length (submitter_tasks w))) in
    Returned (set_stopped true w)
  else Raised awaited.

(** ** The event loop *)

Inductive event : Type :=
| Submit (user chat : Z) (func : string) (args : list string)
    (kwargs : list (string * string))        (* a handler calls ask_gpt_in_queue *)
| Submitter (c : nat) (ev : submitter_event)
| Worker (ev : worker_event)
| Process (i : nat) (ev : process_event)
| Updater (ev : updater_event)
| TimePasses (elapsed : Z)                   (* the clock advances, the buckets drain *)
| ClearGptQueue                              (* the admin clears the queue *)
| ShutdownBot.                               (* the admin confirms the shutdown *)

Definition step (w : World) (ev : event) : option World :=
  if stopped w then None else
  match ev with
  | Submit user chat func args kwargs =>
      match args with
      | [] =>
          Some (set_submitter_tasks
                  (submitter_tasks w ++ [AtSendMessage user chat func args kwargs]) w)
      | _ :: _ =>
          (* add_request(user_id=..., chat_id=..., func_to_call=..., *args, **kwargs):
             the positional arguments bind to user_id first, and the call raises
             TypeError (multiple values for argument 'user_id') *)
          Some (set_submitter_tasks
                  (submitter_tasks w ++
                     [SubmitterDone
                        (ask_gpt_in_queue_result (Raised (OtherException "TypeError")))])
                  w)
      end
  | Submitter c ev => add_request c ev w
  | Worker ev => worker ev w
  | Process i ev => process_task i ev w
  | Updater ev => periodic_status_update ev w
  | TimePasses elapsed =>
      if 0 <=? elapsed then
        Some (set_disp (set_limiter_hour (leak elapsed (limiter_hour (disp w)))
                          (set_limiter_sec (leak elapsed (limiter_sec (disp w)))
                             (disp w))) w)
      else None
  | ClearGptQueue => Some (set_disp (clear_gpt_queue (disp w)) w)
  | ShutdownBot =>
      match shutdown_bot w with
      | Returned w => Some w
      | Raised _ => Some w
      end
  end.

Fixpoint run (w : World) (evs : list event) : option World :=
  match evs with
  | [] => Some w
  | ev :: evs =>
      match step w ev with
      | Some w => run w evs
      | None => None
      end
  end.

(** *** What the claims speak about *)

(** The requests whose [func_to_call] is being awaited right now. *)
Definition is_executing (s : process_state) : bool :=
  match s with AtFuncToCall => true | _ => false end.

Definition has_ended (s : process_state) : bool :=
  match s with ProcessDone _ => true | _ => false end.

Definition executing (w : World) : list TaskRequest :=
  (filter (fun p => is_executing p.2) (process_tasks w)).*1.

(** The requests of the [process_task]s that have not ended. *)
Definition running (w : World) : list TaskRequest :=
  (filter (fun p => negb (has_ended p.2)) (process_tasks w)).*1.

(** The request the worker took from the queue and has not passed on. *)
Definition held (s : worker_state) : list TaskRequest :=
  match s with
  | AtLimiterSec r | AtLimiterHour r | AtSemaphore r => [r]
  | AtQueueGet | WorkerDone _ => []
  end.

(** ** The bookkeeping of a world and the moves a transition makes on it

    Most properties of the dispatcher concern where a request is (queue,
    worker, a [process_task], the active set) and what its future holds.
    The part of a world that says so is its [Books].  Every transition
    of the event loop is a short sequence of the [move]s below; the
    invariants are then shown once, for the moves. *)

Record Books : Type := mkBooks {
  b_queue : list TaskRequest;
  b_active : gset TaskRequest;
  b_worker : worker_state;
  b_tasks : list (TaskRequest * process_state);
  b_futures : gmap nat future_state;
  b_next : nat;
  b_unfinished : Z;
  b_put : list TaskRequest;
  b_get : list TaskRequest;
  b_admit : list TaskRequest;
  b_semaphore : Z;
}.

Definition books (w : World) : Books :=
  mkBooks (queue (disp w)) (active_requests (disp w)) (worker_task w)
    (process_tasks w) (futures w) (next_future w) (unfinished_tasks (disp w))
    (hist_put w) (hist_get w) (hist_admit w) (semaphore (disp w)).

Definition worker_done (s : worker_state) : bool :=
  match s with WorkerDone _ => true | _ => false end.

Inductive move : Books -> Books -> Prop :=
| move_put q a wk ps fs n u hp hg ha sem r :
    future r = n ->
    move (mkBooks q a wk ps fs n u hp hg ha sem)
         (mkBooks (q ++ [r]) a wk ps (<[n := Pending]> fs) (S n) (u + 1)
            (hp ++ [r]) hg ha sem)
| move_get q a ps fs n u hp hg ha sem r :
    move (mkBooks (r :: q) a AtQueueGet ps fs n u hp hg ha sem)
         (mkBooks q (a ∪ {[r]}) (AtLimiterSec r) ps fs n u hp (hg ++ [r]) ha sem)
| move_limiter q a wk wk' ps fs n u hp hg ha sem :
    held wk' = held wk -> worker_done wk = false -> worker_done wk' = false ->
    move (mkBooks q a wk ps fs n u hp hg ha sem)
         (mkBooks q a wk' ps fs n u hp hg ha sem)
| move_spawn q a wk wk' ps fs n u u' hp hg ha sem r :
    held wk = [r] ->
    (0 < u /\ u' = u - 1 /\ wk' = AtQueueGet) \/
    (u <= 0 /\ u' = u /\ exists e, wk' = WorkerDone e) ->
    move (mkBooks q a wk ps fs n u hp hg ha sem)
         (mkBooks q a wk' (ps ++ [(r, AtNotifyInProgress)]) fs n u' hp hg (ha ++ [r]) sem)
| move_progress q a wk ps fs n u hp hg ha sem i r :
    ps !! i = Some (r, AtNotifyInProgress) ->
    move (mkBooks q a wk ps fs n u hp hg ha sem)
         (mkBooks q a wk (<[i := (r, AtFuncToCall)]> ps) fs n u hp hg ha sem)
| move_result q a wk ps fs n u hp hg ha sem i r v :
    ps !! i = Some (r, AtFuncToCall) ->
    fs !! future r = Some Pending ->
    move (mkBooks q a wk ps fs n u hp hg ha sem)
         (mkBooks q a wk (<[i := (r, AtNotifyFinished)]> ps)
            (<[future r := Finished (Returned v)]> fs) n u hp hg ha sem)
| move_end q a wk ps fs n u hp hg ha sem i r s o :
    ps !! i = Some (r, s) -> has_ended s = false ->
    move (mkBooks q a wk ps fs n u hp hg ha sem)
         (mkBooks q (a ∖ {[r]}) wk (<[i := (r, ProcessDone o)]> ps) fs n u hp hg ha sem)
| move_clear q a wk ps fs n u hp hg ha sem :
    move (mkBooks q a wk ps fs n u hp hg ha sem)
         (mkBooks [] a wk ps fs n (Z.max 0 (u - Z.of_nat (length q))) hp hg ha sem)
| move_worker_ends q a wk ps fs n u hp hg ha sem e :
    e = CancelledError \/ e = acquire_error ->
    move (mkBooks q a wk ps fs n u hp hg ha sem)
         (mkBooks q a (WorkerDone e) ps fs n u hp hg ha sem)
| move_cancel_future q a wk ps fs n u hp hg ha sem f :
    move (mkBooks q a wk ps fs n u hp hg ha sem)
         (mkBooks q a wk ps (cancel fs f) n u hp hg ha sem).

(** ** Invariants of the bookkeeping *)

(** The requests some part of the program still refers to: queued, in the
    hands of the worker, or belonging to a [process_task] (ended or not). *)
Definition owners (b : Books) : list TaskRequest :=
  b_queue b ++ held (b_worker b) ++ (b_tasks b).*1.

Record books_inv (b : Books) : Prop := mkBooksInv {
  inv_fresh : forall r, r ∈ owners b -> (future r < b_next b)%nat;
  inv_fresh_active : forall r, r ∈ b_active b -> (future r < b_next b)%nat;
  inv_fresh_put : forall r, r ∈ b_put b -> (future r < b_next b)%nat;
  inv_nodup : NoDup (future <$> owners b);
  inv_queue_active : forall r, r ∈ b_queue b -> r ∉ b_active b;
  inv_held_active : forall r, r ∈ held (b_worker b) -> r ∈ b_active b;
  inv_live_active : forall i r s,
    b_tasks b !! i = Some (r, s) -> has_ended s = false -> r ∈ b_active b;
  inv_ended : forall i r o,
    b_tasks b !! i = Some (r, ProcessDone o) -> r ∉ b_active b;
  inv_unfinished : worker_done (b_worker b) = false ->
    b_unfinished b = Z.of_nat (length (b_queue b) + length (held (b_worker b)));
  inv_worker : forall e, b_worker b = WorkerDone e ->
    e = CancelledError \/ e = acquire_error;
  inv_nodup_put : NoDup (b_put b);
  inv_fifo : sublist (b_get b ++ b_queue b) (b_put b);
  inv_admit : if worker_done (b_worker b)
              then b_admit b `prefix_of` b_get b
              else b_get b = b_admit b ++ held (b_worker b);
}.

(** ** Futures nobody will resolve *)

(** A future is abandoned when it has been allocated, is not finished, and
    no queued request, no request in the worker's hands and no running
    [process_task] refers to it. *)
Definition abandoned (f : nat) (b : Books) : Prop :=
  (f < b_next b)%nat /\
  (forall r, r ∈ b_queue b ++ held (b_worker b) -> future r <> f) /\
  (forall i r s, b_tasks b !! i = Some (r, s) -> has_ended s = false -> future r <> f) /\
  (b_futures b !! f = Some Pending \/ b_futures b !! f = Some Cancelled).

(** ** Futures of requests that have not run yet *)

Definition unresolved (fs : gmap nat future_state) (f : nat) : Prop :=
  fs !! f = Some Pending \/ fs !! f = Some Cancelled.

(** No result has been written for a request that is queued, in the
    worker's hands, or in a [process_task] that has not reached
    [set_result]. *)
Definition waiting_inv (b : Books) : Prop :=
  (forall r, r ∈ b_queue b ++ held (b_worker b) -> unresolved (b_futures b) (future r)) /\
  (forall i r s, b_tasks b !! i = Some (r, s) ->
     s = AtNotifyInProgress \/ s = AtFuncToCall -> unresolved (b_futures b) (future r)).

(** ** Scenarios *)

(** The world after [__init__] and the events [evs], if all of them are
    enabled in turn. *)
Definition started (max_tasks req_per_sec req_per_hour : Z) (evs : list event)
    : option World :=
  match __init__ max_tasks req_per_sec req_per_hour with
  | Returned w0 => run w0 evs
  | Raised _ => None
  end.

(** One submission, admitted by the worker: the request's [process_task]
    is suspended on the in-progress notification. *)
Definition one_admitted : list event :=
  [ Submit 1 100 "ask_cbt" [] [("user_question", "q1")];
    Submitter 0 (message_sent (Returned 11) 3);
    Worker queue_get_ready; Worker limiter_sec_entered;
    Worker limiter_hour_entered; Worker semaphore_entered ].

(** Two submissions in a burst with [max_tasks = 1]: the worker admits
    both before it suspends, then each [process_task] gets as far as
    awaiting its [func_to_call]. *)
Definition burst_of_two : list event :=
  [ Submit 1 100 "ask_cbt" [] [("user_question", "q1")];
    Submit 2 200 "ask_cbt" [] [("user_question", "q2")];
    Submitter 0 (message_sent (Returned 11) 3);
    Submitter 1 (message_sent (Returned 12) 3);
    Worker queue_get_ready; Worker limiter_sec_entered;
    Worker limiter_hour_entered; Worker semaphore_entered;
    Worker queue_get_ready; Worker limiter_sec_entered;
    Worker limiter_hour_entered; Worker semaphore_entered;
    Process 0 (in_progress_edited (Returned ()));
    Process 1 (in_progress_edited (Returned ())) ].

(** The in-progress notification of the one request fails with an
    exception that is not a [TelegramAPIError]. *)
Definition notification_raises : list event :=
  one_admitted ++
  [ Process 0 (in_progress_edited (Raised (OtherException "ClientDecodeError"))) ].

(** A request is put while more than [update_interval] has passed since
    the last position update, so [add_request] goes on to await
    [update_positions]; the bot is shut down before that edit returns. *)
Definition shutdown_during_add_request : list event :=
  [ Submit 1 100 "ask_cbt" [] [("user_question", "q1")];
    Submitter 0 (message_sent (Returned 11) 10);
    ShutdownBot ].

(** Two requests are queued and awaited; the admin clears the queue. *)
Definition two_queued : list event :=
  [ Submit 1 100 "ask_cbt" [] [("user_question", "q1")];
    Submit 2 200 "ask_cbt" [] [("user_question", "q2")];
    Submitter 0 (message_sent (Returned 11) 3);
    Submitter 1 (message_sent (Returned 12) 3) ].

(** Two requests are served one after the other, a third one is queued
    in the meantime and still waits. *)
Definition two_served_one_queued : list event :=
  two_queued ++
  [ Worker queue_get_ready; Worker limiter_sec_entered;
    Worker limiter_hour_entered; Worker semaphore_entered;
    Process 0 (in_progress_edited (Returned ()));
    Submit 3 300 "ask_cbt" [] [("user_question", "q3")];
    Process 0 (func_to_call_done (Returned "answer 1"));
    Worker queue_get_ready; Worker limiter_sec_entered;
    Submitter 2 (message_sent (Returned 13) 4);
    TimePasses 1000;
    Worker limiter_hour_entered; Worker semaphore_entered;
    Process 0 (message_deleted (Returned ()));
    Submitter 0 future_done;
    Process 1 (in_progress_edited (Raised (TelegramAPIError "message not found")));
    Process 1 (func_to_call_done (Returned "answer 2"));
    Process 1 (message_deleted (Returned ())) ].

Definition request1 : TaskRequest :=
  mkTaskRequest 1 100 11 "ask_cbt" [] [("user_question", "q1")] 0.
Definition request2 : TaskRequest :=
  mkTaskRequest 2 200 12 "ask_cbt" [] [("user_question", "q2")] 1.

(** A handler has called [ask_gpt_in_queue]; nothing has been sent yet. *)
Definition one_submitted : list event :=
  [ Submit 1 100 "ask_cbt" [] [("user_question", "q1")] ].

(** A tick over two queued requests in which both edits fail. *)
Definition failing_tick : list updater_event :=
  [ sleep_done;
    updater_position_edited (Raised (TelegramAPIError "message to edit not found"));
    updater_position_edited (Raised (OtherException "ClientDecodeError")) ].

(** The world a scenario ends in after [__init__ 1 10 1000] (a stopped,
    empty world if one of its events is not enabled). *)
Definition world_after (evs : list event) : World :=
  default
    (mkWorld
       (mkRequestDispatcher [] 0 0 (mkAsyncLimiter 0 1 0 0 0) (mkAsyncLimiter 0 1 0 0 0)
          0 0 ∅)
       ∅ 0%nat (WorkerDone CancelledError) (UpdaterDone CancelledError) [] [] true
       [] [] [] [] [])
    (started 1 10 1000 evs).

(** One request whose [func_to_call] is being awaited, with its submitter
    suspended on the future. *)
Definition request0 : TaskRequest := mkTaskRequest 1 1 7 "f" [] [] 0.

Definition one_executing : list event :=
  [ Submit 1 1 "f" [] [];
    Submitter 0 (message_sent (Returned 7) 3);
    Worker queue_get_ready; Worker limiter_sec_entered;
    Worker limiter_hour_entered; Worker semaphore_entered;
    Process 0 (in_progress_edited (Returned ())) ].

(** ** Notifications that fail *)

(** The events in which a call of the bot returns to a notification
    helper, with the call's outcome replaced by success. *)
Definition notification_ok (ev : event) : event :=
  match ev with
  | Submitter c (position_edited _) => Submitter c (position_edited (Returned ()))
  | Process i (in_progress_edited _) => Process i (in_progress_edited (Returned ()))
  | Process i (message_deleted _) => Process i (message_deleted (Returned ()))
  | Updater (updater_position_edited _) => Updater (updater_position_edited (Returned ()))
  | _ => ev
  end.

(** The failures of a notification that its call site handles: any
    [Exception] of a position edit or of the deletion of the queue
    message, a [TelegramAPIError] of the in-progress edit. *)
Definition tolerated (ev : event) : bool :=
  match ev with
  | Submitter _ (position_edited (Raised e))
  | Process _ (message_deleted (Raised e))
  | Updater (updater_position_edited (Raised e)) => isinstance_Exception e
  | Process _ (in_progress_edited (Raised e)) => isinstance_TelegramAPIError e
  | _ => false
  end.

(** A world without the record of the bot calls and of the log. *)
Definition unobserved (w : World) : World :=
  mkWorld (disp w) (futures w) (next_future w) (worker_task w) (status_updater_task w)
    (process_tasks w) (submitter_tasks w) (stopped w) [] []
    (hist_put w) (hist_get w) (hist_admit w).

(** ** More invariants of the bookkeeping *)

(** Futures are allocated below [next_future]; a finished future holds a
    value; the [process_task]s are, in order, what the worker admitted;
    and while the worker runs, the active set holds nothing but the
    request in the worker's hands and those of the running
    [process_task]s. *)
Record ledger_inv (b : Books) : Prop := mkLedgerInv {
  inv_dom : forall f, is_Some (b_futures b !! f) -> (f < b_next b)%nat;
  inv_values : forall f r, b_futures b !! f = Some (Finished r) -> exists v, r = Returned v;
  inv_tasks_admit : (b_tasks b).*1 = b_admit b;
  inv_active_exact : worker_done (b_worker b) = false ->
    forall r, r ∈ b_active b ->
      r ∈ held (b_worker b) \/
      exists i s, b_tasks b !! i = Some (r, s) /\ has_ended s = false;
}.

(** ** The rate limiters along a run *)

(** The time on the logical clock. *)
Definition clock (w : World) : Z := last_check (limiter_sec (disp w)).

(** The number of requests admitted so far. *)
Definition admitted (w : World) : Z := Z.of_nat (length (hist_admit w)).

(** The part of a world the limiters' bookkeeping speaks about. *)
Definition rate_view (w : World)
    : AsyncLimiter * AsyncLimiter * worker_state * list TaskRequest * bool :=
  (limiter_sec (disp w), limiter_hour (disp w), worker_task w, hist_admit w, stopped w).

(** A bucket keeps the rate and period it was made with, and its level
    stays between empty and full. *)
Record limiter_inv (rate period : Z) (l : AsyncLimiter) : Prop := mkLimiterInv {
  li_rate : max_rate l = rate;
  li_period : time_period l = period;
  li_level : 0 <= level l <= Z.max 0 (rate * period);
}.

(** The tokens a bucket has granted, less what it holds and what its rate
    allows up to now; it never grows. *)
Definition overdraft (l : AsyncLimiter) : Z :=
  granted l * time_period l - level l - max_rate l * last_check l.

(** Each admission has used one token of each limiter, the worker holding
    the tokens of the request in its hands; and the worker ends only by
    cancellation at the shutdown or by a limiter's refusal. *)
Record rate_inv (req_per_sec req_per_hour : Z) (w : World) : Prop := mkRateInv {
  ri_sec : limiter_inv req_per_sec (1 * ticks_per_second) (limiter_sec (disp w));
  ri_hour : limiter_inv req_per_hour (3600 * ticks_per_second) (limiter_hour (disp w));
  ri_clock : last_check (limiter_hour (disp w)) = last_check (limiter_sec (disp w));
  ri_granted :
    match worker_task w with
    | AtQueueGet | AtLimiterSec _ =>
        granted (limiter_sec (disp w)) = admitted w /\
        granted (limiter_hour (disp w)) = admitted w
    | AtLimiterHour _ =>
        granted (limiter_sec (disp w)) = admitted w + 1 /\
        granted (limiter_hour (disp w)) = admitted w
    | AtSemaphore _ =>
        granted (limiter_sec (disp w)) = admitted w + 1 /\
        granted (limiter_hour (disp w)) = admitted w + 1
    | WorkerDone _ =>
        admitted w <= granted (limiter_hour (disp w)) /\
        granted (limiter_hour (disp w)) <= granted (limiter_sec (disp w)) /\
        granted (limiter_sec (disp w)) <= admitted w + 1
    end;
  ri_worker : forall e, worker_task w = WorkerDone e ->
    (e = CancelledError /\ stopped w = true) \/
    (e = acquire_error /\ (req_per_sec < 1 \/ req_per_hour < 1));
}.

(** ** Futures and the requests that own them *)

(** Every future that has been allocated is in the heap, and the requests
    put so far have futures of their own. *)
Record alloc_inv (b : Books) : Prop := mkAllocInv {
  inv_alloc : forall f, (f < b_next b)%nat -> is_Some (b_futures b !! f);
  inv_put_futures : NoDup (future <$> b_put b);
}.

(** ** How a [process_task] ends *)

(** The resumptions after which [process_task] runs into its [finally]
    clause without another [await]: an exception that
    [_notify_in_progress] does not catch, an exception of the work, and
    whatever comes back from the deletion of the queue message. *)
Definition ends (s : process_state) (ev : process_event) : bool :=
  match s, ev with
  | AtNotifyInProgress, in_progress_edited (Raised e) => negb (isinstance_TelegramAPIError e)
  | AtFuncToCall, func_to_call_done (Raised _) => true
  | AtNotifyFinished, message_deleted _ => true
  | _, _ => false
  end.

(** ** More scenarios *)

(** Two requests are queued and awaited, and the admin clears the queue. *)
Definition queue_cleared : list event := two_queued ++ [ClearGptQueue].

(** Three submissions at once.  The worker admits two of them at time 0,
    which fills a bucket of two tokens; half a second later one token has
    drained and the third request is admitted. *)
Definition refill_burst : list event :=
  [ Submit 1 1 "f" [] []; Submit 2 2 "f" [] []; Submit 3 3 "f" [] [];
    Submitter 0 (message_sent (Returned 7) 3);
    Submitter 1 (message_sent (Returned 8) 3);
    Submitter 2 (message_sent (Returned 9) 3);
    Worker queue_get_ready; Worker limiter_sec_entered;
    Worker limiter_hour_entered; Worker semaphore_entered;
    Worker queue_get_ready; Worker limiter_sec_entered;
    Worker limiter_hour_entered; Worker semaphore_entered;
    Worker queue_get_ready;
    TimePasses 500;
    Worker limiter_sec_entered;
    Worker limiter_hour_entered; Worker semaphore_entered ].

(** The same burst up to the third request's wait for the limiter. *)
Definition burst_waits : list event := take 15 refill_burst.



(** ** Proofs: every transition is a sequence of moves *)

Ltac open_world w :=
  let d := fresh "d" in
  destruct w as [d ? ? ? ? ? ? ? ? ? ? ? ?]; destruct d; simpl in *.

Lemma process_task_raise_moves i r s e w :
  process_tasks w !! i = Some (r, s) -> has_ended s = false ->
  rtc move (books w) (books (process_task_raise i r e w)).
Proof.
  intros Hi Hs. apply rtc_once. unfold process_task_raise.
  open_world w. destruct (isinstance_Exception e); simpl; by eapply move_end.
Qed.

Ltac raise_moves :=
  lazymatch goal with
  | |- rtc move _ (books (process_task_raise ?i ?r ?e ?w)) =>
      refine (process_task_raise_moves i r _ e w _ _); [eassumption | reflexivity]
  end.

Lemma process_task_moves i ev w w' :
  process_task i ev w = Some w' -> rtc move (books w) (books w').
Proof.
  unfold process_task. intros H.
  destruct (process_tasks w !! i) as [[r s]|] eqn:Hi; [|done].
  destruct s; try done; destruct ev as [o|o|o]; try done.
  - destruct (_notify_in_progress o) as [[[]|e] l] eqn:Ho; simplify_eq.
    + apply rtc_once. open_world w. by eapply move_progress.
    + raise_moves.
  - destruct o as [v|e]; [|simplify_eq; raise_moves].
    unfold set_result in H.
    destruct (futures w !! future r) as [[]|] eqn:Hf; simplify_eq;
      try raise_moves.
    apply rtc_once. open_world w. by eapply move_result.
  - destruct (_notify_finished o) as [[[]|e] l] eqn:Ho; simplify_eq.
    + apply rtc_once. unfold process_task_return. open_world w. by eapply move_end.
    + raise_moves.
Qed.

Lemma worker_moves ev w w' :
  worker ev w = Some w' -> rtc move (books w) (books w').
Proof.
  unfold worker. intros H.
  destruct (worker_task w) as [|r|r|r|e] eqn:Hw; destruct ev; try done.
  - unfold Queue_get in H. destruct (queue (disp w)) as [|r q] eqn:Hq; simplify_eq.
    apply rtc_once. open_world w. subst. apply move_get.
  - destruct (acquire_refused _).
    { simplify_eq. apply rtc_once. open_world w. subst. apply move_worker_ends. by right. }
    destruct (has_capacity _); simplify_eq.
    apply rtc_once. open_world w. subst. by apply move_limiter.
  - destruct (acquire_refused _).
    { simplify_eq. apply rtc_once. open_world w. subst. apply move_worker_ends. by right. }
    destruct (has_capacity _); simplify_eq.
    apply rtc_once. open_world w. subst. by apply move_limiter.
  - destruct (0 <? semaphore (disp w)); [|done].
    unfold Queue_task_done in H. simpl in H.
    destruct (Z.leb_spec (unfinished_tasks (disp w)) 0) as [Hu|Hu]; simplify_eq;
      apply rtc_once; open_world w; subst;
      match goal with |- context [?x - 1 + 1] => replace (x - 1 + 1) with x by lia end;
      apply (move_spawn _ _ (AtSemaphore r)); try done.
    + right. eauto.
    + by left.
Qed.

Lemma add_request_update_books c f t total todo w :
  books (add_request_update c f t total todo w) = books w.
Proof. by destruct todo. Qed.

Lemma add_request_put_moves c user chat func args kwargs mid t w :
  rtc move (books w) (books (add_request_put c user chat func args kwargs mid t w)).
Proof.
  unfold add_request_put. cbv zeta.
  destruct (_ <=? _); rewrite ?add_request_update_books;
    apply rtc_once; destruct w as [[] ? ? ? ? ? ? ? ? ? ? ? ?]; by apply move_put.
Qed.

Lemma add_request_moves c ev w w' :
  add_request c ev w = Some w' -> rtc move (books w) (books w').
Proof.
  unfold add_request. intros H.
  destruct (submitter_tasks w !! c) as [[user chat func args kwargs|f t total todo|f|r]|];
    try done.
  - destruct ev as [r t| |]; try done.
    destruct r as [message_id|e]; cbv zeta in H.
    + simplify_eq.
      exact (add_request_put_moves c user chat func args kwargs message_id t
               (add_sink_call (send_message chat) None w)).
    + destruct (isinstance_Exception e); simplify_eq; [|done].
      exact (add_request_put_moves c user chat func args kwargs 0 t
               (add_log [exception_enqueue_send e]
                  (add_sink_call (send_message chat) (Some e) w))).
  - destruct todo as [|[pos req] todo]; [done|].
    destruct ev as [| r |]; try done.
    destruct (update_positions_body r) as [[[]|e] l]; simplify_eq;
      rewrite ?add_request_update_books; done.
  - destruct ev; try done.
    destruct (futures w !! f) as [[]|]; by simplify_eq.
Qed.

Lemma periodic_status_update_books ev w w' :
  periodic_status_update ev w = Some w' -> books w' = books w.
Proof.
  unfold periodic_status_update. intros H.
  destruct (status_updater_task w) as [|total [|[pos req] todo]|]; destruct ev as [|r];
    try done; simpl in H.
  - by simplify_eq.
  - destruct (update_positions_body r) as [[[]|e] l]; by simplify_eq.
Qed.

Lemma cancel_process_tasks_moves l w :
  rtc move (books w) (books (foldl cancel_process_task w l)).
Proof.
  revert w. induction l as [|i l IH]; intros w; simpl; [done|].
  etrans; [|apply IH]. unfold cancel_process_task.
  destruct (process_tasks w !! i) as [[r s]|] eqn:Hi; [|done].
  destruct s; try done; by eapply process_task_raise_moves.
Qed.

Lemma cancel_submitter_tasks_moves l w :
  rtc move (books w) (books (foldl cancel_submitter_task w l)).
Proof.
  revert w. induction l as [|c l IH]; intros w; simpl; [done|].
  etrans; [|apply IH]. unfold cancel_submitter_task.
  destruct (submitter_tasks w !! c) as [[]|]; try done.
  apply rtc_once. open_world w. apply move_cancel_future.
Qed.

Lemma shutdown_bot_moves w w' :
  shutdown_bot w = Returned w' -> rtc move (books w) (books w').
Proof.
  unfold shutdown_bot.
  generalize (match worker_task w with WorkerDone e => e | _ => CancelledError end).
  intros awaited H. cbv zeta in H.
  destruct awaited; simpl in H; simplify_eq.
  change (books (set_stopped true ?x)) with (books x).
  etrans; [|apply cancel_submitter_tasks_moves].
  etrans; [|apply cancel_process_tasks_moves].
  apply rtc_once. open_world w. apply move_worker_ends. by left.
Qed.

Lemma step_moves w ev w' :
  step w ev = Some w' -> rtc move (books w) (books w').
Proof.
  unfold step. destruct (stopped w); [done|].
  destruct ev; intros H.
  - destruct args; by simplify_eq.
  - by eapply add_request_moves.
  - by eapply worker_moves.
  - by eapply process_task_moves.
  - by rewrite (periodic_status_update_books _ _ _ H).
  - destruct (0 <=? _); by simplify_eq.
  - simplify_eq. apply rtc_once. open_world w. apply move_clear.
  - destruct (shutdown_bot w) eqn:Hs; simplify_eq; [|done].
    by apply shutdown_bot_moves.
Qed.

Lemma run_moves evs w w' :
  run w evs = Some w' -> rtc move (books w) (books w').
Proof.
  revert w. induction evs as [|ev evs IH]; intros w H; simpl in H.
  - by simplify_eq.
  - destruct (step w ev) as [w1|] eqn:Hs; [|done].
    etrans; [by eapply step_moves | by apply IH].
Qed.

(** ** Proofs: the invariants hold in every reachable state *)

Lemma tasks_insert_fst (ps : list (TaskRequest * process_state)) i r s s' :
  ps !! i = Some (r, s) -> (<[i := (r, s')]> ps).*1 = ps.*1.
Proof.
  intros H. rewrite list_fmap_insert. apply list_insert_id.
  by rewrite list_lookup_fmap, H.
Qed.

Lemma tasks_lookup_fst (ps : list (TaskRequest * process_state)) i r s :
  ps !! i = Some (r, s) -> r ∈ ps.*1.
Proof.
  intros H. apply list_elem_of_fmap. exists (r, s).
  split; [done|]. by eapply list_elem_of_lookup_2.
Qed.

Lemma tasks_lookup_inj (ps : list (TaskRequest * process_state)) i j r s s' :
  NoDup ps.*1 -> ps !! i = Some (r, s) -> ps !! j = Some (r, s') -> i = j.
Proof.
  intros Hnd Hi Hj. apply (NoDup_lookup _ _ _ r Hnd); rewrite list_lookup_fmap.
  - by rewrite Hi.
  - by rewrite Hj.
Qed.

(** What [NoDup] of the owners' futures says, piece by piece. *)
Lemma nodup_owners (q h : list TaskRequest) (ps : list (TaskRequest * process_state)) :
  NoDup (future <$> q ++ h ++ ps.*1) ->
  NoDup q /\ NoDup h /\ NoDup ps.*1 /\
  (forall r, r ∈ q -> r ∉ h) /\ (forall r, r ∈ q -> r ∉ ps.*1) /\
  (forall r, r ∈ h -> r ∉ ps.*1).
Proof.
  intros H%NoDup_fmap_1. apply NoDup_app in H as (Hq & Hqh & H).
  apply NoDup_app in H as (Hh & Hhp & Hp).
  repeat split; try done; set_solver.
Qed.

Lemma move_inv b b' : move b b' -> books_inv b -> books_inv b'.
Proof.
  intros Hm [H1 H2 H3 H4 H5 H6 H7 H8 H9 H10 H11 H12 H13].
  destruct Hm; unfold owners in *; simpl in *.
  - (* put *)
    subst n.
    assert (Hnew : forall X : list TaskRequest,
              (forall r0, r0 ∈ X -> (future r0 < future r)%nat) -> r ∉ X).
    { intros X HX Hin. specialize (HX _ Hin). lia. }
    constructor; unfold owners; simpl; try done.
    + intros r0 Hr0. destruct (decide (r0 = r)) as [->|Hne]; [lia|].
      assert (r0 ∈ q ++ held wk ++ ps.*1) as Hin by set_solver.
      specialize (H1 _ Hin). lia.
    + intros r0 Hr0. specialize (H2 _ Hr0). lia.
    + intros r0 Hr0. destruct (decide (r0 = r)) as [->|Hne]; [lia|].
      assert (r0 ∈ hp) as Hin by set_solver.
      specialize (H3 _ Hin). lia.
    + assert ((q ++ [r]) ++ held wk ++ ps.*1 ≡ₚ r :: (q ++ held wk ++ ps.*1)) as ->
        by solve_Permutation.
      rewrite fmap_cons. apply NoDup_cons. split; [|done].
      intros (r' & Heq & Hin)%list_elem_of_fmap. specialize (H1 _ Hin). lia.
    + intros r0 [Hr0| ->%list_elem_of_singleton]%elem_of_app; [by apply H5|].
      intros Hin. specialize (H2 _ Hin). lia.
    + intros Hw. rewrite H9 by done. rewrite length_app. simpl. lia.
    + apply NoDup_app. split; [done|]. split; [|apply NoDup_singleton].
      intros r0 Hr0 ->%list_elem_of_singleton. specialize (H3 _ Hr0). lia.
    + rewrite app_assoc. by apply sublist_app.
  - (* get *)
    destruct (nodup_owners (r :: q) [] ps H4) as (Hq & _ & Hp & _ & Hqp & _).
    apply NoDup_cons in Hq as [Hrq Hq].
    constructor; unfold owners; simpl; try done.
    + intros r0 Hr0. apply H1. set_solver.
    + intros r0 [Hr0| ->%elem_of_singleton]%elem_of_union; [by apply H2|].
      apply H1. set_solver.
    + assert (q ++ r :: ps.*1 ≡ₚ r :: q ++ ps.*1) as -> by solve_Permutation. done.
    + intros r0 Hr0 [Hin| ->%elem_of_singleton]%elem_of_union; [|done].
      apply (H5 r0); [set_solver|done].
    + set_solver.
    + intros i r0 s Hi Hs. apply elem_of_union_l. by eapply H7.
    + intros i r0 o Hi [Hin| ->%elem_of_singleton]%elem_of_union.
      * by eapply H8.
      * apply (Hqp r); [set_solver|]. by eapply tasks_lookup_fst.
    + intros _. rewrite H9 by done. simpl. lia.
    + rewrite <- app_assoc. done.
    + simpl in H13. rewrite app_nil_r in H13. by subst.
  - (* limiter *)
    rewrite H0 in H13. specialize (H9 H0). rewrite <- H in *.
    constructor; unfold owners; simpl; try done.
    + intros e ->. done.
    + by rewrite H14.
  - (* spawn *)
    rewrite H in *.
    destruct (nodup_owners q [r] ps H4) as (Hq & _ & Hp & Hqh & Hqp & Hhp).
    assert (held wk' = []) as Hh by (destruct H0 as [(_ & _ & ->)|(_ & _ & e & ->)]; done).
    assert (worker_done wk = false) as Hwk by (destruct wk; done).
    constructor; unfold owners; simpl; rewrite ?Hh; simpl; try done.
    + intros r0 Hr0. apply H1. rewrite fmap_app in Hr0. simpl in Hr0.
      clear -Hr0. set_solver.
    + replace (q ++ (ps ++ [(r, AtNotifyInProgress)]).*1) with (q ++ ps.*1 ++ [r])
        by (by rewrite (fmap_app fst)).
      assert (q ++ ps.*1 ++ [r] ≡ₚ q ++ [r] ++ ps.*1) as -> by solve_Permutation. done.
    + set_solver.
    + intros i r0 s [Hi|[_ Hi]]%lookup_app_Some Hs; [by eapply H7|].
      apply list_lookup_singleton_Some in Hi as [_ Hi]. simplify_eq. apply H6. set_solver.
    + intros i r0 o [Hi|[_ Hi]]%lookup_app_Some; [by eapply H8|].
      apply list_lookup_singleton_Some in Hi as [_ Hi]. simplify_eq.
    + specialize (H9 Hwk). destruct H0 as [(? & -> & ->)|(? & -> & e & ->)]; [|done].
      intros _. simpl in *. lia.
    + specialize (H9 Hwk). destruct H0 as [(? & -> & ->)|(? & -> & e & ->)]; [done|].
      simpl in *. lia.
    + rewrite Hwk in H13. subst hg.
      destruct H0 as [(? & -> & ->)|(? & -> & e & ->)]; simpl; [by rewrite app_nil_r|done].
  - (* progress *)
    constructor; unfold owners; simpl; rewrite ?(tasks_insert_fst _ _ _ _ _ H); try done.
    + intros j r0 s0 [(-> & Heq & _)|(Hne & Hj)]%list_lookup_insert_Some Hs0.
      * simplify_eq. by eapply H7.
      * by eapply H7.
    + intros j r0 o0 [(-> & Heq & _)|(Hne & Hj)]%list_lookup_insert_Some.
      * simplify_eq.
      * by eapply H8.
  - (* result *)
    constructor; unfold owners; simpl; rewrite ?(tasks_insert_fst _ _ _ _ _ H); try done.
    + intros j r0 s0 [(-> & Heq & _)|(Hne & Hj)]%list_lookup_insert_Some Hs0.
      * simplify_eq. by eapply H7.
      * by eapply H7.
    + intros j r0 o0 [(-> & Heq & _)|(Hne & Hj)]%list_lookup_insert_Some.
      * simplify_eq.
      * by eapply H8.
  - (* end *)
    destruct (nodup_owners q (held wk) ps H4) as (Hq & _ & Hp & Hqh & Hqp & Hhp).
    pose proof (tasks_lookup_fst _ _ _ _ H) as Hr.
    constructor; unfold owners; simpl; rewrite ?(tasks_insert_fst _ _ _ _ _ H); try done.
    + intros r0 Hr0. apply H2. set_solver.
    + intros r0 Hr0 Hin. apply (H5 r0); [done|set_solver].
    + intros r0 Hr0. apply elem_of_difference. split; [by apply H6|].
      intros ->%elem_of_singleton. by apply (Hhp r).
    + intros j r0 s0 [(-> & Heq & _)|(Hne & Hj)]%list_lookup_insert_Some Hs0.
      * simplify_eq.
      * apply elem_of_difference. split; [by eapply H7|].
        intros ->%elem_of_singleton. apply Hne. by eapply tasks_lookup_inj.
    + intros j r0 o0 [(-> & Heq & _)|(Hne & Hj)]%list_lookup_insert_Some.
      * simplify_eq. set_solver.
      * intros Hin%elem_of_difference. destruct Hin as [Hin _]. by eapply H8.
  - (* clear *)
    destruct (nodup_owners q (held wk) ps H4) as (Hq & _ & Hp & Hqh & Hqp & Hhp).
    constructor; unfold owners; simpl; try done.
    + intros r0 Hr0. apply H1. set_solver.
    + apply NoDup_fmap_1 in H4 as Hnd. rewrite fmap_app in H4.
      by apply NoDup_app in H4 as (_ & _ & H4).
    + set_solver.
    + intros Hw. rewrite H9 by done. lia.
    + rewrite app_nil_r. etrans; [|exact H12]. by apply sublist_inserts_r.
  - (* cancel worker *)
    constructor; unfold owners; simpl; try done.
    + intros r0 Hr0. apply H1. set_solver.
    + rewrite !fmap_app in *. apply NoDup_app in H4 as (Hq & Hd & H4).
      apply NoDup_app in H4 as (_ & _ & H4).
      apply NoDup_app. split; [done|]. split; [|done]. set_solver.
    + set_solver.
    + intros e0 [= <-]. exact H.
    + destruct (worker_done wk); [done|]. subst hg. by apply prefix_app_r.
  - (* cancel future *)
    constructor; unfold owners; simpl; done.
Qed.

Lemma move_semaphore b b' : move b b' -> b_semaphore b' = b_semaphore b.
Proof. by destruct 1. Qed.

Lemma rtc_move_inv b b' : rtc move b b' -> books_inv b -> books_inv b'.
Proof. induction 1; eauto using move_inv. Qed.

Lemma rtc_move_semaphore b b' : rtc move b b' -> b_semaphore b' = b_semaphore b.
Proof.
  induction 1 as [|b1 b2 b3 H _ IH]; [done|]. by rewrite IH, (move_semaphore _ _ H).
Qed.

Lemma init_books_inv max_tasks req_per_sec req_per_hour w0 :
  __init__ max_tasks req_per_sec req_per_hour = Returned w0 -> books_inv (books w0).
Proof.
  unfold __init__. destruct (max_tasks <? 0); intros [= <-].
  constructor; simpl; try done; try (intros r Hr; by apply elem_of_nil in Hr);
    apply NoDup_nil_2.
Qed.

(** Every state the event loop can reach satisfies the invariants. *)
Lemma reachable_inv max_tasks req_per_sec req_per_hour w0 evs w :
  __init__ max_tasks req_per_sec req_per_hour = Returned w0 ->
  run w0 evs = Some w -> books_inv (books w).
Proof.
  intros H0 Hrun. eapply rtc_move_inv; [by eapply run_moves|by eapply init_books_inv].
Qed.

(** X1.  No permit is held across a suspension point: whenever the event loop
    is between two transitions, the counter of the semaphore is back at
    [max_tasks]. *)
Lemma semaphore_never_held max_tasks req_per_sec req_per_hour w0 evs w :
  __init__ max_tasks req_per_sec req_per_hour = Returned w0 ->
  run w0 evs = Some w -> semaphore (disp w) = max_tasks.
Proof.
  intros H0 Hrun. apply run_moves, rtc_move_semaphore in Hrun. simpl in Hrun.
  rewrite Hrun. unfold __init__ in H0. destruct (max_tasks <? 0); by simplify_eq.
Qed.

Lemma elem_of_running w r :
  r ∈ running w <->
  exists i s, process_tasks w !! i = Some (r, s) /\ has_ended s = false.
Proof.
  unfold running. rewrite list_elem_of_fmap. split.
  - intros ([r' s] & -> & [Hs Hin]%list_elem_of_filter). simpl in *.
    apply list_elem_of_lookup in Hin as [i Hi]. exists i, s. split; [done|].
    by destruct (has_ended s).
  - intros (i & s & Hi & Hs). exists (r, s). split; [done|].
    apply list_elem_of_filter. split; [simpl; by rewrite Hs|].
    by eapply list_elem_of_lookup_2.
Qed.

(** ** Proofs: abandoned futures *)

Lemma cancel_lookup (fs : gmap nat future_state) f g :
  cancel fs f !! g =
    if decide (f = g)
    then match fs !! g with Some Pending => Some Cancelled | o => o end
    else fs !! g.
Proof.
  unfold cancel. destruct (decide (f = g)) as [->|Hne].
  - destruct (fs !! g) as [[]|] eqn:Hg; rewrite ?lookup_insert_eq, ?Hg; done.
  - destruct (fs !! f) as [[]|]; rewrite ?lookup_insert_ne; done.
Qed.

Lemma move_abandoned f b b' : move b b' -> abandoned f b -> abandoned f b'.
Proof.
  intros Hm (Hlt & Hq & Hp & Hf). destruct Hm; simpl in *.
  - subst n. repeat split; simpl; [lia| |done|].
    + intros r0 Hr0. destruct (decide (r0 = r)) as [->|Hne]; [lia|].
      apply Hq. clear -Hr0 Hne. set_solver.
    + rewrite lookup_insert_ne by lia. done.
  - repeat split; simpl; try done.
    intros r0 Hr0. apply Hq. clear -Hr0. set_solver.
  - rewrite <- H in Hq. done.
  - rewrite H in Hq.
    assert (held wk' = []) as Hh by (destruct H0 as [(_ & _ & ->)|(_ & _ & e & ->)]; done).
    repeat split; simpl; try done.
    + rewrite Hh. intros r0 Hr0. apply Hq. clear -Hr0. set_solver.
    + intros i r0 s [Hi|[_ Hi]]%lookup_app_Some Hs; [by eapply Hp|].
      apply list_lookup_singleton_Some in Hi as [_ Hi]. simplify_eq.
      apply Hq. clear. set_solver.
  - repeat split; simpl; try done.
    intros j r0 s0 [(-> & Heq & _)|(Hne & Hj)]%list_lookup_insert_Some Hs0.
    + simplify_eq. by eapply Hp.
    + by eapply Hp.
  - repeat split; simpl; try done.
    + intros j r0 s0 [(-> & Heq & _)|(Hne & Hj)]%list_lookup_insert_Some Hs0.
      * simplify_eq. by eapply Hp.
      * by eapply Hp.
    + rewrite lookup_insert_ne; [done|]. by eapply Hp.
  - repeat split; simpl; try done.
    intros j r0 s0 [(-> & Heq & _)|(Hne & Hj)]%list_lookup_insert_Some Hs0.
    + simplify_eq.
    + by eapply Hp.
  - repeat split; simpl; try done.
    intros r0 Hr0. apply Hq. clear -Hr0. set_solver.
  - repeat split; simpl; try done.
    intros r0 Hr0. apply Hq. clear -Hr0. set_solver.
  - repeat split; simpl; try done.
    rewrite cancel_lookup. destruct (decide (f0 = f)); [|done].
    destruct Hf as [-> | ->]; by right.
Qed.

Lemma rtc_move_abandoned f b b' : rtc move b b' -> abandoned f b -> abandoned f b'.
Proof. induction 1; eauto using move_abandoned. Qed.

(** An abandoned future stays abandoned, whatever happens next. *)
Lemma run_abandoned f w evs w' :
  abandoned f (books w) -> run w evs = Some w' -> abandoned f (books w').
Proof. intros Ha Hrun. eapply rtc_move_abandoned; [by eapply run_moves|done]. Qed.

Lemma abandoned_not_finished f w r :
  abandoned f (books w) -> futures w !! f <> Some (Finished r).
Proof. intros (_ & _ & _ & [Hf|Hf]); simpl in Hf; by rewrite Hf. Qed.

(** ** What cancelling the tasks does *)

Lemma cancel_process_task_frame w i :
  futures (cancel_process_task w i) = futures w /\
  submitter_tasks (cancel_process_task w i) = submitter_tasks w /\
  queue (disp (cancel_process_task w i)) = queue (disp w) /\
  worker_task (cancel_process_task w i) = worker_task w.
Proof.
  unfold cancel_process_task.
  destruct (process_tasks w !! i) as [[r []]|]; done.
Qed.

Lemma cancel_process_tasks_frame l w :
  futures (foldl cancel_process_task w l) = futures w /\
  submitter_tasks (foldl cancel_process_task w l) = submitter_tasks w /\
  queue (disp (foldl cancel_process_task w l)) = queue (disp w) /\
  worker_task (foldl cancel_process_task w l) = worker_task w.
Proof.
  revert w. induction l as [|i l IH]; intros w; simpl; [done|].
  destruct (IH (cancel_process_task w i)) as (-> & -> & -> & ->).
  apply cancel_process_task_frame.
Qed.

Lemma cancel_process_task_lookup w i j r s :
  process_tasks (cancel_process_task w i) !! j = Some (r, s) ->
  has_ended s = false ->
  i <> j /\ process_tasks w !! j = Some (r, s).
Proof.
  unfold cancel_process_task. intros Hj Hs.
  destruct (process_tasks w !! i) as [[r' s']|] eqn:Hi.
  - destruct s'; try (unfold process_task_raise in Hj; simpl in Hj;
      apply list_lookup_insert_Some in Hj as [(-> & Heq & _)|(Hne & Hj)];
      by simplify_eq).
    split; [|done]. intros ->. by simplify_eq.
  - split; [|done]. intros ->. by simplify_eq.
Qed.

Lemma cancel_process_tasks_ended l w :
  (forall i r s, process_tasks w !! i = Some (r, s) -> has_ended s = false -> i ∈ l) ->
  forall i r s,
    process_tasks (foldl cancel_process_task w l) !! i = Some (r, s) ->
    has_ended s = true.
Proof.
  revert w. induction l as [|i0 l IH]; intros w Hl i r s; simpl.
  - intros Hi. destruct (has_ended s) eqn:Hs; [done|].
    by apply (Hl _ _ _ Hi), elem_of_nil in Hs.
  - apply IH. clear i r s. intros i r s Hi Hs.
    apply cancel_process_task_lookup in Hi as [Hne Hi]; [|done].
    specialize (Hl _ _ _ Hi Hs). apply elem_of_cons in Hl as [->|Hl]; done.
Qed.

Lemma cancel_submitter_task_frame w c :
  queue (disp (cancel_submitter_task w c)) = queue (disp w) /\
  process_tasks (cancel_submitter_task w c) = process_tasks w /\
  worker_task (cancel_submitter_task w c) = worker_task w.
Proof.
  unfold cancel_submitter_task. destruct (submitter_tasks w !! c) as [[]|]; done.
Qed.

Lemma cancel_submitter_tasks_frame l w :
  queue (disp (foldl cancel_submitter_task w l)) = queue (disp w) /\
  process_tasks (foldl cancel_submitter_task w l) = process_tasks w /\
  worker_task (foldl cancel_submitter_task w l) = worker_task w.
Proof.
  revert w. induction l as [|c l IH]; intros w; simpl; [done|].
  destruct (IH (cancel_submitter_task w c)) as (-> & -> & ->).
  apply cancel_submitter_task_frame.
Qed.

(** A cancelled submitter task is done; the others are as they were. *)
Lemma cancel_submitter_task_lookup w c c' :
  submitter_tasks (cancel_submitter_task w c) !! c' =
    if decide (c = c') then
      match submitter_tasks w !! c' with
      | Some (SubmitterDone r) => Some (SubmitterDone r)
      | Some _ => Some (SubmitterDone (Raised CancelledError))
      | None => None
      end
    else submitter_tasks w !! c'.
Proof.
  unfold cancel_submitter_task. destruct (decide (c = c')) as [->|Hne].
  - destruct (submitter_tasks w !! c') as [s|] eqn:Hc; [|done].
    assert (c' < length (submitter_tasks w))%nat by by eapply lookup_lt_Some.
    destruct s; simpl; rewrite ?list_lookup_insert_eq; done.
  - destruct (submitter_tasks w !! c) as [[]|]; simpl;
      rewrite ?list_lookup_insert_ne; done.
Qed.

Lemma cancel_submitter_task_futures w c f :
  futures (cancel_submitter_task w c) !! f =
    if decide (submitter_tasks w !! c = Some (AtFuture f))
    then match futures w !! f with Some Pending => Some Cancelled | o => o end
    else futures w !! f.
Proof.
  unfold cancel_submitter_task.
  destruct (submitter_tasks w !! c) as [[| |g|]|] eqn:Hc; simpl; try done.
  rewrite cancel_lookup.
  destruct (decide (g = f)) as [->|Hne].
  - by rewrite decide_True.
  - rewrite decide_False; [done|]. intros [= ->]. done.
Qed.

Lemma cancel_submitter_tasks_other f l w :
  (forall c, c ∈ l -> submitter_tasks w !! c <> Some (AtFuture f)) ->
  futures (foldl cancel_submitter_task w l) !! f = futures w !! f.
Proof.
  revert w. induction l as [|c0 l IH]; intros w Hl; simpl; [done|].
  rewrite IH.
  - rewrite cancel_submitter_task_futures, decide_False; [done|].
    apply Hl. left.
  - intros c Hc. rewrite cancel_submitter_task_lookup.
    destruct (decide (c0 = c)) as [->|Hne].
    + destruct (submitter_tasks w !! c) as [[]|]; done.
    + apply Hl. by right.
Qed.

Lemma cancel_submitter_tasks_stay_cancelled f l w :
  futures w !! f = Some Cancelled ->
  futures (foldl cancel_submitter_task w l) !! f = Some Cancelled.
Proof.
  revert w. induction l as [|c0 l IH]; intros w Hf; simpl; [done|].
  apply IH. rewrite cancel_submitter_task_futures, Hf. by destruct (decide _).
Qed.

Lemma cancel_submitter_tasks_cancelled f l w c :
  c ∈ l -> submitter_tasks w !! c = Some (AtFuture f) ->
  futures w !! f = Some Pending ->
  futures (foldl cancel_submitter_task w l) !! f = Some Cancelled.
Proof.
  revert w. induction l as [|c0 l IH]; intros w Hc Hs Hf; simpl.
  - by apply elem_of_nil in Hc.
  - destruct (decide (c0 = c)) as [->|Hne].
    + apply cancel_submitter_tasks_stay_cancelled.
      by rewrite cancel_submitter_task_futures, decide_True, Hf.
    + apply elem_of_cons in Hc as [->|Hc]; [done|].
      destruct (decide (submitter_tasks w !! c0 = Some (AtFuture f))) as [H0|H0].
      * apply cancel_submitter_tasks_stay_cancelled.
        by rewrite cancel_submitter_task_futures, decide_True, Hf.
      * apply IH; [done| |].
        -- by rewrite cancel_submitter_task_lookup, decide_False.
        -- by rewrite cancel_submitter_task_futures, decide_False.
Qed.

Lemma cancel_submitter_tasks_done l w c s :
  c ∈ l -> submitter_tasks w !! c = Some s ->
  submitter_tasks (foldl cancel_submitter_task w l) !! c =
    Some (match s with
          | SubmitterDone r => SubmitterDone r
          | _ => SubmitterDone (Raised CancelledError)
          end).
Proof.
  assert (Hstable : forall l w r, submitter_tasks w !! c = Some (SubmitterDone r) ->
            submitter_tasks (foldl cancel_submitter_task w l) !! c
            = Some (SubmitterDone r)).
  { clear. induction l as [|c0 l IH]; intros w r Hc; simpl; [done|].
    apply IH. rewrite cancel_submitter_task_lookup.
    destruct (decide (c0 = c)); by rewrite Hc. }
  revert w. induction l as [|c0 l IH]; intros w Hc Hs; simpl.
  - by apply elem_of_nil in Hc.
  - destruct (decide (c0 = c)) as [->|Hne].
    + pose proof (cancel_submitter_task_lookup w c c) as Hl.
      rewrite decide_True, Hs in Hl by done.
      destruct s; by apply Hstable.
    + apply elem_of_cons in Hc as [->|Hc]; [done|].
      apply IH; [done|]. by rewrite cancel_submitter_task_lookup, decide_False.
Qed.

(** ** Proofs: futures of requests that have not run yet *)

Lemma unresolved_cancel fs f g : unresolved fs g -> unresolved (cancel fs f) g.
Proof.
  unfold unresolved. rewrite cancel_lookup. destruct (decide (f = g)); [|done].
  intros [-> | ->]; by right.
Qed.

Lemma move_waiting b b' :
  move b b' -> books_inv b -> waiting_inv b -> waiting_inv b'.
Proof.
  intros Hm Hinv [Hq Hp].
  pose proof (inv_fresh _ Hinv) as Hfresh. pose proof (inv_nodup _ Hinv) as Hnd.
  destruct Hm; unfold owners in *; simpl in *.
  - subst n. split; simpl.
    + intros r0 Hr0. destruct (decide (r0 = r)) as [->|Hne].
      * left. apply lookup_insert_eq.
      * assert (r0 ∈ q ++ held wk) as Hin by (clear -Hr0 Hne; set_solver).
        assert (future r0 < future r)%nat
          by (apply Hfresh; clear -Hin; set_solver).
        unfold unresolved. rewrite lookup_insert_ne by lia. by apply Hq.
    + intros i r0 s Hi Hs.
      assert (future r0 < future r)%nat.
      { apply Hfresh. apply tasks_lookup_fst in Hi. clear -Hi. set_solver. }
      unfold unresolved. rewrite lookup_insert_ne by lia. by eapply Hp.
  - split; simpl; [|done]. intros r0 Hr0. apply Hq. clear -Hr0. set_solver.
  - rewrite <- H in Hq. done.
  - rewrite H in Hq.
    assert (held wk' = []) as Hh by (destruct H0 as [(_ & _ & ->)|(_ & _ & e & ->)]; done).
    split; simpl.
    + rewrite Hh. intros r0 Hr0. apply Hq. clear -Hr0. set_solver.
    + intros i r0 s [Hi|[_ Hi]]%lookup_app_Some Hs; [by eapply Hp|].
      apply list_lookup_singleton_Some in Hi as [_ Hi]. simplify_eq.
      apply Hq. clear. set_solver.
  - split; simpl; [done|].
    intros j r0 s0 [(-> & Heq & _)|(Hne & Hj)]%list_lookup_insert_Some Hs0.
    + simplify_eq. eapply Hp; eauto.
    + by eapply Hp.
  - destruct (nodup_owners _ _ _ Hnd) as (_ & _ & Hnp & _).
    rewrite !fmap_app in Hnd. apply NoDup_app in Hnd as (_ & Hqf & Hnd).
    pose proof (tasks_lookup_fst _ _ _ _ H) as Hr.
    apply NoDup_app in Hnd as (_ & Hhf & Hpf).
    split; simpl.
    + intros r0 Hr0. unfold unresolved. rewrite lookup_insert_ne; [by apply Hq|].
      intros Heq. apply elem_of_app in Hr0 as [Hr0|Hr0].
      * apply (Hqf (future r0)); [by apply list_elem_of_fmap_2|].
        rewrite <- Heq. apply elem_of_app. right.
        by apply list_elem_of_fmap_2.
      * apply (Hhf (future r0)); [by apply list_elem_of_fmap_2|].
        rewrite <- Heq. by apply list_elem_of_fmap_2.
    + intros j r0 s0 [(-> & Heq & _)|(Hne & Hj)]%list_lookup_insert_Some Hs0.
      * simplify_eq. by destruct Hs0.
      * unfold unresolved. rewrite lookup_insert_ne; [by eapply Hp|].
        intros Heq. apply Hne.
        apply (NoDup_lookup _ _ _ (future r) Hpf);
          rewrite !list_lookup_fmap; [by rewrite H|by rewrite Hj, Heq].
  - split; simpl; [done|].
    intros j r0 s0 [(-> & Heq & _)|(Hne & Hj)]%list_lookup_insert_Some Hs0.
    + simplify_eq. by destruct Hs0.
    + by eapply Hp.
  - split; simpl; [|done]. intros r0 Hr0. apply Hq. clear -Hr0. set_solver.
  - split; simpl; [|done]. intros r0 Hr0. apply Hq. clear -Hr0. set_solver.
  - split; simpl.
    + intros r0 Hr0. by apply unresolved_cancel, Hq.
    + intros i r0 s Hi Hs. apply unresolved_cancel. by eapply Hp.
Qed.

Lemma rtc_move_waiting b b' :
  rtc move b b' -> books_inv b -> waiting_inv b -> books_inv b' /\ waiting_inv b'.
Proof.
  induction 1 as [|b1 b2 b3 Hm _ IH]; [done|]. intros Hi Hw.
  apply IH; [by eapply move_inv|by eapply move_waiting].
Qed.

Lemma reachable_waiting max_tasks req_per_sec req_per_hour w0 evs w :
  __init__ max_tasks req_per_sec req_per_hour = Returned w0 ->
  run w0 evs = Some w -> waiting_inv (books w).
Proof.
  intros H0 Hrun.
  eapply rtc_move_waiting; [by eapply run_moves|by eapply init_books_inv|].
  unfold __init__ in H0. destruct (max_tasks <? 0); simplify_eq.
  split; simpl; [intros r Hr; by apply elem_of_nil in Hr|done].
Qed.

(** ** What a transition can do to a future and to a waiting submitter *)

Ltac frame_done :=
  simpl; repeat split; try done; try (by left);
  try (intros ? ?; by rewrite list_lookup_insert_ne).

Lemma set_submitter_task_lookup_ne c c' st w :
  c <> c' -> submitter_tasks (set_submitter_task c' st w) !! c = submitter_tasks w !! c.
Proof. intros Hne. simpl. by rewrite list_lookup_insert_ne. Qed.

Lemma add_request_update_effect c f t total todo w :
  futures (add_request_update c f t total todo w) = futures w /\
  stopped (add_request_update c f t total todo w) = stopped w /\
  forall c', c' <> c ->
    submitter_tasks (add_request_update c f t total todo w) !! c' = submitter_tasks w !! c'.
Proof.
  destruct todo; simpl; repeat split; try done;
    intros c' Hne; by rewrite list_lookup_insert_ne.
Qed.

Lemma add_request_put_effect c user chat func args kwargs mid t w :
  let w' := add_request_put c user chat func args kwargs mid t w in
  futures w' = <[next_future w := Pending]> (futures w) /\
  stopped w' = stopped w /\
  forall c', c' <> c -> submitter_tasks w' !! c' = submitter_tasks w !! c'.
Proof.
  unfold add_request_put. cbv zeta. destruct (_ <=? _).
  - match goal with |- context [add_request_update c ?f ?t ?a ?b ?w1] =>
      destruct (add_request_update_effect c f t a b w1) as (-> & -> & Hl) end.
    repeat split; try done; try (intros c' Hne; by rewrite Hl).
  - frame_done.
Qed.

Lemma add_request_effect c ev w w' :
  add_request c ev w = Some w' ->
  (futures w' = futures w \/ futures w' = <[next_future w := Pending]> (futures w)) /\
  stopped w' = stopped w /\
  (forall c', c' <> c -> submitter_tasks w' !! c' = submitter_tasks w !! c') /\
  (forall f, submitter_tasks w !! c = Some (AtFuture f) ->
             futures w !! f <> Some Pending).
Proof.
  unfold add_request. intros H.
  destruct (submitter_tasks w !! c) as [[user chat func args kwargs|f t total todo|f|r]|]
    eqn:Hc; try done.
  - destruct ev as [r t| |]; try done.
    destruct r as [message_id|e]; cbv zeta in H.
    + simplify_eq.
      destruct (add_request_put_effect c user chat func args kwargs message_id t
                  (add_sink_call (send_message chat) None w)) as (Hf & Hs & Hl).
      repeat split; try done. by right.
    + destruct (isinstance_Exception e); simplify_eq; [|frame_done].
      destruct (add_request_put_effect c user chat func args kwargs 0 t
                  (add_log [exception_enqueue_send e]
                     (add_sink_call (send_message chat) (Some e) w))) as (Hf & Hs & Hl).
      repeat split; try done. by right.
  - destruct todo as [|[pos req] todo]; [done|].
    destruct ev as [| r |]; try done.
    destruct (update_positions_body r) as [[[]|e] l]; simplify_eq.
    + destruct (add_request_update_effect c f t total todo
                  (add_log l (add_sink_call
                     (edit_position (chat_id req) (position_msg_id req) pos total)
                     (failure r) w))) as (-> & -> & Hl).
      repeat split; try done; try (by left); try (intros c' Hne; by rewrite Hl).
    + frame_done.
  - destruct ev; try done.
    destruct (futures w !! f) as [[]|] eqn:Hf; simplify_eq; frame_done;
      intros ? [= <-]; by rewrite Hf.
Qed.

Lemma worker_effect ev w w' :
  worker ev w = Some w' ->
  futures w' = futures w /\ stopped w' = stopped w /\
  submitter_tasks w' = submitter_tasks w.
Proof.
  unfold worker. intros H.
  destruct (worker_task w); destruct ev; try done.
  - destruct (Queue_get (disp w)) as [[r d]|]; by simplify_eq.
  - destruct (acquire_refused _); [by simplify_eq|]. destruct (has_capacity _); by simplify_eq.
  - destruct (acquire_refused _); [by simplify_eq|]. destruct (has_capacity _); by simplify_eq.
  - destruct (0 <? _); [|done]. simpl in H.
    destruct (Queue_task_done _); by simplify_eq.
Qed.

Lemma process_task_effect i ev w w' :
  process_task i ev w = Some w' ->
  (futures w' = futures w \/
   exists r v, futures w' = <[future r := Finished (Returned v)]> (futures w)) /\
  stopped w' = stopped w /\ submitter_tasks w' = submitter_tasks w.
Proof.
  unfold process_task. intros H.
  destruct (process_tasks w !! i) as [[r s]|]; [|done].
  assert (forall e w1, futures (process_task_raise i r e w1) = futures w1 /\
            stopped (process_task_raise i r e w1) = stopped w1 /\
            submitter_tasks (process_task_raise i r e w1) = submitter_tasks w1) as Hraise.
  { intros e w1. unfold process_task_raise. by destruct (isinstance_Exception e). }
  destruct s; try done; destruct ev as [o|o|o]; try done.
  - destruct (_notify_in_progress o) as [[[]|e] l]; simplify_eq; [by repeat split; try left|].
    rewrite !(proj1 (Hraise _ _)), !(proj1 (proj2 (Hraise _ _))), !(proj2 (proj2 (Hraise _ _))).
    by repeat split; try left.
  - destruct o as [v|e].
    + unfold set_result in H.
      destruct (futures w !! future r) as [[]|]; simplify_eq;
        rewrite ?(proj1 (Hraise _ _)), ?(proj1 (proj2 (Hraise _ _))),
                ?(proj2 (proj2 (Hraise _ _)));
        try (by repeat split; try left).
      simpl. repeat split; try done. right. eauto.
    + simplify_eq.
      rewrite !(proj1 (Hraise _ _)), !(proj1 (proj2 (Hraise _ _))), !(proj2 (proj2 (Hraise _ _))).
      by repeat split; try left.
  - destruct (_notify_finished o) as [[[]|e] l]; simplify_eq; [by repeat split; try left|].
    rewrite !(proj1 (Hraise _ _)), !(proj1 (proj2 (Hraise _ _))), !(proj2 (proj2 (Hraise _ _))).
    by repeat split; try left.
Qed.

(** [periodic_status_update] touches nothing but its own task, the calls
    to the bot and the log. *)
Lemma periodic_status_update_frame ev w w' :
  periodic_status_update ev w = Some w' ->
  disp w' = disp w /\ futures w' = futures w /\ next_future w' = next_future w /\
  worker_task w' = worker_task w /\ process_tasks w' = process_tasks w /\
  submitter_tasks w' = submitter_tasks w /\ stopped w' = stopped w.
Proof.
  unfold periodic_status_update. intros H.
  destruct (status_updater_task w) as [|total [|[pos req] todo]|]; destruct ev as [|r];
    try done; simpl in H.
  - by simplify_eq.
  - destruct (update_positions_body r) as [[[]|e] l]; by simplify_eq.
Qed.

Lemma shutdown_bot_stopped w w' : shutdown_bot w = Returned w' -> stopped w' = true.
Proof.
  unfold shutdown_bot. destruct (isinstance_CancelledError _); [|done].
  by intros [= <-].
Qed.

(** While nothing is shut down, a submitter suspended on a pending future
    stays suspended on it, and the future can only change by receiving a
    result. *)
Lemma step_waiting_submitter w ev w' c f :
  step w ev = Some w' -> stopped w' = false ->
  submitter_tasks w !! c = Some (AtFuture f) ->
  futures w !! f = Some Pending -> (f < next_future w)%nat ->
  submitter_tasks w' !! c = Some (AtFuture f) /\
  (futures w' !! f = Some Pending \/
   exists v, futures w' !! f = Some (Finished (Returned v))).
Proof.
  unfold step. destruct (stopped w) eqn:Hst; [done|].
  intros H Hst' Hc Hf Hlt. destruct ev.
  - destruct args; simplify_eq; simpl; (split; [|by left]); by apply lookup_app_l_Some.
  - apply add_request_effect in H as (Hfs & _ & Hsub & Hnot).
    destruct (decide (c = c0)) as [->|Hne]; [by destruct (Hnot _ Hc)|].
    rewrite (Hsub _ Hne). split; [done|]. left.
    destruct Hfs as [-> | ->]; [done|]. by rewrite lookup_insert_ne by lia.
  - apply worker_effect in H as (-> & _ & ->). by split; [|left].
  - apply process_task_effect in H as (Hfs & _ & ->). split; [done|].
    destruct Hfs as [-> |(r & v & ->)]; [by left|].
    destruct (decide (future r = f)) as [<-|Hne].
    + right. exists v. apply lookup_insert_eq.
    + left. by rewrite lookup_insert_ne.
  - apply periodic_status_update_frame in H as (_ & -> & _ & _ & _ & -> & _).
    by split; [|left].
  - destruct (0 <=? _); simplify_eq. by split; [|left].
  - simplify_eq. by split; [|left].
  - destruct (shutdown_bot w) eqn:Hs; simplify_eq; [|by split; [|left]].
    apply shutdown_bot_stopped in Hs. congruence.
Qed.

(** ** Runs *)

Lemma run_app w evs1 evs2 :
  run w (evs1 ++ evs2) = w1 ← run w evs1; run w1 evs2.
Proof.
  revert w. induction evs1 as [|ev evs1 IH]; intros w; simpl; [done|].
  destruct (step w ev); simpl; [apply IH|done].
Qed.

(** After the shutdown nothing runs any more. *)
Lemma run_stopped w evs w' : stopped w = true -> run w evs = Some w' -> w' = w.
Proof.
  intros Hst. destruct evs as [|ev evs]; simpl; [congruence|].
  unfold step. by rewrite Hst.
Qed.

Lemma step_not_stopped w ev w' : step w ev = Some w' -> stopped w = false.
Proof. unfold step. by destruct (stopped w). Qed.

(** Only the shutdown cancels futures. *)
Lemma step_no_cancelled w ev w' :
  step w ev = Some w' -> stopped w' = false ->
  (forall f, futures w !! f <> Some Cancelled) ->
  forall f, futures w' !! f <> Some Cancelled.
Proof.
  unfold step. destruct (stopped w) eqn:Hst; [done|].
  intros H Hst' Hno f.
  assert (forall r, <[next_future w := Pending]> (futures w) !! f <> Some Cancelled
                    /\ <[future r := Finished (Returned "")]> (futures w) !! f
                       <> Some Cancelled) as Hins.
  { intros r. split.
    - destruct (decide (next_future w = f)) as [->|];
        rewrite ?lookup_insert_eq, ?lookup_insert_ne; done.
    - destruct (decide (future r = f)) as [->|];
        rewrite ?lookup_insert_eq, ?lookup_insert_ne; done. }
  destruct ev.
  - destruct args; by simplify_eq.
  - apply add_request_effect in H as ([-> | ->] & _); [done|]. apply (Hins request1).
  - apply worker_effect in H as (-> & _). done.
  - apply process_task_effect in H as ([-> |(r & v & ->)] & _); [done|].
    destruct (decide (future r = f)) as [->|];
      rewrite ?lookup_insert_eq, ?lookup_insert_ne; done.
  - apply periodic_status_update_frame in H as (_ & -> & _). done.
  - destruct (0 <=? _); by simplify_eq.
  - by simplify_eq.
  - destruct (shutdown_bot w) eqn:Hs; simplify_eq; [|done].
    apply shutdown_bot_stopped in Hs. congruence.
Qed.

Lemma run_no_cancelled w evs w' :
  run w evs = Some w' -> stopped w' = false ->
  (forall f, futures w !! f <> Some Cancelled) ->
  forall f, futures w' !! f <> Some Cancelled.
Proof.
  revert w. induction evs as [|ev evs IH]; intros w H Hst Hno; simpl in H.
  - by simplify_eq.
  - destruct (step w ev) as [w1|] eqn:Hs; [|done].
    destruct (stopped w1) eqn:Hst1.
    + apply (run_stopped _ _ _ Hst1) in H. congruence.
    + apply (IH w1); [done..|]. by eapply step_no_cancelled.
Qed.

Lemma reachable_no_cancelled max_tasks req_per_sec req_per_hour w0 evs w f :
  __init__ max_tasks req_per_sec req_per_hour = Returned w0 ->
  run w0 evs = Some w -> stopped w = false ->
  futures w !! f <> Some Cancelled.
Proof.
  intros H0 Hrun Hst. eapply run_no_cancelled; [done..|].
  unfold __init__ in H0. destruct (max_tasks <? 0); simplify_eq.
  intros g. simpl. by rewrite lookup_empty.
Qed.

(** A submitter that awaits an abandoned, pending future waits for as
    long as the bot is up. *)
Lemma run_waiting_submitter w evs w' c f :
  run w evs = Some w' -> stopped w' = false ->
  abandoned f (books w) ->
  submitter_tasks w !! c = Some (AtFuture f) -> futures w !! f = Some Pending ->
  submitter_tasks w' !! c = Some (AtFuture f) /\ futures w' !! f = Some Pending.
Proof.
  revert w. induction evs as [|ev evs IH]; intros w H Hst Hab Hc Hf; simpl in H.
  - by simplify_eq.
  - destruct (step w ev) as [w1|] eqn:Hs; [|done].
    destruct (stopped w1) eqn:Hst1.
    { apply (run_stopped _ _ _ Hst1) in H. congruence. }
    assert (abandoned f (books w1)) as Hab1
      by (eapply rtc_move_abandoned; [by eapply step_moves|done]).
    destruct (step_waiting_submitter _ _ _ c f Hs Hst1 Hc Hf) as [Hc1 Hf1].
    { by destruct Hab. }
    apply (IH w1); try done.
    destruct Hf1 as [Hf1|[v Hf1]]; [done|].
    by apply (abandoned_not_finished _ _ (Returned v)) in Hab1.
Qed.



(** The future of a request whose [process_task] has ended without
    writing it is abandoned. *)
Lemma ended_pending_abandoned w i r s :
  books_inv (books w) ->
  process_tasks w !! i = Some (r, s) -> has_ended s = true ->
  futures w !! future r = Some Pending ->
  abandoned (future r) (books w).
Proof.
  intros Hinv Hi Hs Hf.
  pose proof (inv_fresh _ Hinv) as Hfresh. pose proof (inv_nodup _ Hinv) as Hnd.
  unfold owners in *. simpl in *.
  pose proof (tasks_lookup_fst _ _ _ _ Hi) as Hr.
  rewrite !fmap_app in Hnd. apply NoDup_app in Hnd as (_ & Hqf & Hnd).
  apply NoDup_app in Hnd as (_ & Hhf & Hpf).
  repeat split; simpl.
  - apply Hfresh. clear -Hr. set_solver.
  - intros r0 Hr0 Heq. apply elem_of_app in Hr0 as [Hr0|Hr0].
    + apply (Hqf (future r0)); [by apply list_elem_of_fmap_2|].
      rewrite Heq. apply elem_of_app. right. by apply list_elem_of_fmap_2.
    + apply (Hhf (future r0)); [by apply list_elem_of_fmap_2|].
      rewrite Heq. by apply list_elem_of_fmap_2.
  - intros j r0 s0 Hj Hs0 Heq.
    assert (j = i) as ->.
    { apply (NoDup_lookup _ _ _ (future r) Hpf);
        rewrite !list_lookup_fmap; [rewrite Hj; simpl; by rewrite Heq|by rewrite Hi]. }
    simplify_eq. congruence.
  - by left.
Qed.

(** Once a [process_task] has ended and left the future pending, no
    continuation resolves the future, and a submitter that awaits it goes
    on waiting for as long as the bot is up. *)
Lemma ended_request_never_resolved max_tasks req_per_sec req_per_hour
    evs evs' w' i c r :
  (forall w, started max_tasks req_per_sec req_per_hour evs = Some w ->
     (exists s, process_tasks w !! i = Some (r, s) /\ has_ended s = true) /\
     futures w !! future r = Some Pending /\
     submitter_tasks w !! c = Some (AtFuture (future r))) ->
  started max_tasks req_per_sec req_per_hour (evs ++ evs') = Some w' ->
  (forall o, futures w' !! future r <> Some (Finished o)) /\
  (stopped w' = false ->
     futures w' !! future r = Some Pending /\
     submitter_tasks w' !! c = Some (AtFuture (future r))).
Proof.
  unfold started. intros Hobs Hrun.
  destruct (__init__ max_tasks req_per_sec req_per_hour) as [w0|] eqn:H0; [|done].
  rewrite run_app in Hrun.
  destruct (run w0 evs) as [w|] eqn:Hrun0; [|done]. simpl in Hrun.
  destruct (Hobs w eq_refl) as ((s & Hi & Hs) & Hf & Hc).
  assert (abandoned (future r) (books w)) as Hab.
  { eapply ended_pending_abandoned; [by eapply reachable_inv|done..]. }
  split.
  - intros o. eapply abandoned_not_finished, run_abandoned; done.
  - intros Hst. apply and_comm. by eapply run_waiting_submitter.
Qed.

(** ** The claims about the dispatcher *)

(** C1 (the code does not do this).  The claim: at most [max_tasks]
    requests execute their work at once, the permit being held for the
    whole execution.  In [worker] the body of the [async with] is the call
    of [create_task] alone, so the permit is given back before the
    [process_task] has run at all.  With [max_tasks = 1] and a burst of two
    submissions both requests are awaiting their [func_to_call] at the same
    time, and the semaphore's counter is back at 1. *)
Theorem burst_of_two_exceeds_gate :
  (fun w => (executing w, semaphore (disp w))) <$> started 1 10 1000 burst_of_two
  = Some ([request1; request2], 1).
Proof. vm_compute. reflexivity. Qed.

(** C6 (the code does not do this).  The claim: no failure of the
    notification sink affects admission, execution or the resolution of the
    future.  [add_request] and [update_positions] catch every [Exception] of
    the bot's call; [_notify_in_progress] catches [TelegramAPIError] only,
    and [process_task] awaits it inside the [try] block that also holds the
    work.  When the in-progress edit raises another exception, the handler
    of [process_task] logs it and the task ends: the work is never called
    (the only call to the bot is the failed edit), the future is pending
    and stays unresolved, and the submitter waits for as long as the bot
    is up. *)
Theorem notification_failure_skips_work :
  (fun w => (futures w !! 0%nat, process_tasks w, submitter_tasks w, log w,
             sink_calls w))
    <$> started 1 10 1000 notification_raises
  = Some (Some Pending, [(request1, ProcessDone (Returned ()))], [AtFuture 0],
          [exception_process_task (OtherException "ClientDecodeError")],
          [(send_message 100, None);
           (edit_in_progress 100 11, Some (OtherException "ClientDecodeError"))]) /\
  forall evs w', started 1 10 1000 (notification_raises ++ evs) = Some w' ->
    (forall r, futures w' !! 0%nat <> Some (Finished r)) /\
    (stopped w' = false ->
       futures w' !! 0%nat = Some Pending /\
       submitter_tasks w' !! 0%nat = Some (AtFuture 0)).
Proof.
  assert ((fun w => (futures w !! 0%nat, process_tasks w, submitter_tasks w, log w,
                     sink_calls w))
            <$> started 1 10 1000 notification_raises
          = Some (Some Pending, [(request1, ProcessDone (Returned ()))], [AtFuture 0],
                  [exception_process_task (OtherException "ClientDecodeError")],
                  [(send_message 100, None);
                   (edit_in_progress 100 11,
                    Some (OtherException "ClientDecodeError"))])) as Hobs
    by (vm_compute; reflexivity).
  split; [done|]. intros evs w'.
  apply (ended_request_never_resolved 1 10 1000 notification_raises evs w'
           0%nat 0%nat request1).
  intros w Hw. rewrite Hw in Hobs. simpl in Hobs. injection Hobs as Hf Hp Hs _ _.
  split; [exists (ProcessDone (Returned ())); by rewrite Hp|].
  split; [done|by rewrite Hs].
Qed.

(** C3, as stated, fails.  A request is in the queue and its submitter is
    still inside [add_request], awaiting the position edit, when the bot
    is shut down: the request stays in the queue and its future stays
    pending. *)
Lemma shutdown_leaves_queued_future_pending :
  (fun w => (stopped w, queue (disp w), futures w !! 0%nat, submitter_tasks w))
    <$> started 2 10 1000 shutdown_during_add_request
  = Some (true, [request1], Some Pending, [SubmitterDone (Raised CancelledError)]).
Proof. vm_compute. reflexivity. Qed.



(** C8.  Whatever the status updater does, for any number of its
    stretches (the start of a tick, or the return of one position edit
    with any outcome), it leaves the dispatcher object as it is: queue,
    unfinished count, semaphore, both limiters, last update time, update
    interval and active set; and it leaves the futures and all other
    tasks alone. *)
Theorem status_update_reads_only w evs w' :
  run w (Updater <$> evs) = Some w' ->
  disp w' = disp w /\ futures w' = futures w /\
  worker_task w' = worker_task w /\ process_tasks w' = process_tasks w /\
  submitter_tasks w' = submitter_tasks w.
Proof.
  revert w. induction evs as [|ev evs IH]; intros w H; simpl in H.
  - by simplify_eq.
  - destruct (step w (Updater ev)) as [w1|] eqn:Hs; [|done].
    unfold step in Hs. destruct (stopped w); [done|].
    apply periodic_status_update_frame in Hs as (<- & <- & _ & <- & <- & <- & _).
    by apply IH.
Qed.

Lemma status_update_reads_only_witness :
  exists w0 w w',
    __init__ 1 10 1000 = Returned w0 /\
    run w0 two_queued = Some w /\
    run w (Updater <$> failing_tick) = Some w' /\
    sink_calls w' = sink_calls w ++
      [ (edit_position 100 11 1 2, Some (TelegramAPIError "message to edit not found"));
        (edit_position 200 12 2 2, Some (OtherException "ClientDecodeError")) ] /\
    (disp w' = disp w /\ futures w' = futures w /\
     worker_task w' = worker_task w /\ process_tasks w' = process_tasks w /\
     submitter_tasks w' = submitter_tasks w).
Proof.
  eexists _, _, _.
  split; [reflexivity|]. split; [vm_compute; reflexivity|].
  split; [vm_compute; reflexivity|]. split; [vm_compute; reflexivity|].
  eapply (status_update_reads_only _ failing_tick). vm_compute. reflexivity.
Defined.

(** C9.  [clear_gpt_queue] empties the queue and touches no future.  Each
    request it removes had a pending future, and from then on that future
    is never given a result or an exception: it stays pending for as long
    as the bot is up (the shutdown may cancel it), the request never comes
    back into the queue, and a submitter suspended on the future stays
    suspended. *)
Theorem clear_gpt_queue_abandons_futures
    max_tasks req_per_sec req_per_hour w0 evs w w1 r :
  __init__ max_tasks req_per_sec req_per_hour = Returned w0 ->
  run w0 evs = Some w ->
  step w ClearGptQueue = Some w1 ->
  r ∈ queue (disp w) ->
  queue (disp w1) = [] /\
  futures w1 = futures w /\
  active_requests (disp w1) = active_requests (disp w) /\
  futures w !! future r = Some Pending /\
  forall evs' w', run w1 evs' = Some w' ->
    (r ∉ queue (disp w')) /\
    (forall o, futures w' !! future r <> Some (Finished o)) /\
    (stopped w' = false ->
       futures w' !! future r = Some Pending /\
       forall c, submitter_tasks w !! c = Some (AtFuture (future r)) ->
                 submitter_tasks w' !! c = Some (AtFuture (future r))).
Proof.
  intros H0 Hrun Hstep Hr.
  pose proof (reachable_inv _ _ _ _ _ _ H0 Hrun) as Hinv.
  destruct (reachable_waiting _ _ _ _ _ _ H0 Hrun) as [Hwq _].
  pose proof (step_not_stopped _ _ _ Hstep) as Hst.
  assert (futures w !! future r = Some Pending) as Hf.
  { destruct (Hwq r) as [Hp|Hc]; [simpl; clear -Hr; set_solver|done|].
    by apply (reachable_no_cancelled _ _ _ _ _ _ _ H0 Hrun Hst) in Hc. }
  unfold step in Hstep. rewrite Hst in Hstep. simplify_eq.
  set (w1 := set_disp (clear_gpt_queue (disp w)) w).
  assert (run w0 (evs ++ [ClearGptQueue]) = Some w1) as Hrun1.
  { rewrite run_app, Hrun. simpl. unfold step. by rewrite Hst. }
  assert (abandoned (future r) (books w1)) as Hab.
  { pose proof (inv_fresh _ Hinv) as Hfresh. pose proof (inv_nodup _ Hinv) as Hnd.
    unfold owners in *. simpl in *.
    rewrite !fmap_app in Hnd. apply NoDup_app in Hnd as (_ & Hqf & _).
    repeat split; simpl.
    - apply Hfresh. clear -Hr. set_solver.
    - intros r0 Hr0 Heq. apply (Hqf (future r)); [by apply list_elem_of_fmap_2|].
      rewrite <- Heq. apply elem_of_app. left. by apply list_elem_of_fmap_2.
    - intros i r0 s Hi Hs Heq. apply (Hqf (future r)); [by apply list_elem_of_fmap_2|].
      rewrite <- Heq. apply elem_of_app. right. apply list_elem_of_fmap_2.
      by eapply tasks_lookup_fst.
    - by left. }
  repeat split; try done.
  - intros Hin. pose proof (run_abandoned _ _ _ _ Hab H) as (_ & Hq' & _).
    apply (Hq' r); [|done]. simpl. clear -Hin. set_solver.
  - intros o. eapply abandoned_not_finished, run_abandoned; done.
  - pose proof (run_abandoned _ _ _ _ Hab H) as (_ & _ & _ & [Hp|Hc]); [done|].
    exfalso. eapply (reachable_no_cancelled _ _ _ w0 (evs ++ [ClearGptQueue] ++ evs') w');
      [done| |done..].
    by rewrite app_assoc, run_app, Hrun1.
  - intros c Hc. by eapply (run_waiting_submitter w1 evs' w' c (future r)).
Qed.

Lemma clear_gpt_queue_abandons_futures_witness :
  exists w0 w w1,
    __init__ 1 10 1000 = Returned w0 /\
    run w0 two_queued = Some w /\
    step w ClearGptQueue = Some w1 /\
    request1 ∈ queue (disp w) /\
    (queue (disp w1) = [] /\
     futures w1 = futures w /\
     active_requests (disp w1) = active_requests (disp w) /\
     futures w !! future request1 = Some Pending /\
     forall evs' w', run w1 evs' = Some w' ->
       (request1 ∉ queue (disp w')) /\
       (forall o, futures w' !! future request1 <> Some (Finished o)) /\
       (stopped w' = false ->
          futures w' !! future request1 = Some Pending /\
          forall c, submitter_tasks w !! c = Some (AtFuture (future request1)) ->
                    submitter_tasks w' !! c = Some (AtFuture (future request1)))).
Proof.
  eexists _, _, _.
  split; [reflexivity|]. split; [vm_compute; reflexivity|].
  split; [vm_compute; reflexivity|].
  split; [apply elem_of_cons; by left|].
  eapply (clear_gpt_queue_abandons_futures 1 10 1000 _ two_queued);
    [reflexivity|vm_compute; reflexivity|vm_compute; reflexivity
    |apply elem_of_cons; by left].
Defined.


(** ** Proofs: more invariants *)

Lemma move_ledger b b' : move b b' -> books_inv b -> ledger_inv b -> ledger_inv b'.
Proof.
  intros Hm Hinv [Hdom Hval Hadm Hact].
  pose proof (inv_nodup _ Hinv) as Hnd. unfold owners in Hnd.
  destruct Hm; simpl in *.
  - subst n. constructor; simpl; try done.
    + intros f [x Hf]. destruct (decide (future r = f)) as [<-|Hne]; [lia|].
      rewrite lookup_insert_ne in Hf by done. assert (f < future r)%nat; [|lia].
      apply Hdom. by exists x.
    + intros f r0 Hf. destruct (decide (future r = f)) as [<-|Hne].
      * rewrite lookup_insert_eq in Hf. done.
      * rewrite lookup_insert_ne in Hf by done. by eapply Hval.
  - constructor; simpl; try done.
    intros _ r0 [Hr0| ->%elem_of_singleton]%elem_of_union.
    + destruct (Hact eq_refl r0 Hr0) as [Hh|Hl]; [by apply elem_of_nil in Hh|by right].
    + left. apply elem_of_cons. by left.
  - constructor; simpl; try done. rewrite H. intros _. by apply Hact.
  - rewrite H in *.
    constructor; simpl; try done.
    + by rewrite fmap_app, Hadm.
    + intros Hwk' r0 Hr0. right.
      assert (worker_done wk = false) as Hwk by (destruct wk; done).
      destruct (Hact Hwk r0 Hr0) as [->%list_elem_of_singleton|(i & s & Hi & Hs)].
      * exists (length ps), AtNotifyInProgress. split; [|done].
        by rewrite lookup_app_r, Nat.sub_diag.
      * exists i, s. split; [|done]. by apply lookup_app_l_Some.
  - constructor; simpl; try done.
    + by rewrite (tasks_insert_fst _ _ _ _ _ H).
    + intros Hwk r0 Hr0. destruct (Hact Hwk r0 Hr0) as [Hh|(j & s & Hj & Hs)]; [by left|].
      right. destruct (decide (i = j)) as [->|Hne].
      * exists j, AtFuncToCall. simplify_eq. split; [|done].
        apply list_lookup_insert_eq. by eapply lookup_lt_Some.
      * exists j, s. by rewrite list_lookup_insert_ne.
  - constructor; simpl; try done.
    + intros f [x Hf]. destruct (decide (future r = f)) as [<-|Hne].
      * apply Hdom. by rewrite H0.
      * rewrite lookup_insert_ne in Hf by done. apply Hdom. by exists x.
    + intros f r0 Hf. destruct (decide (future r = f)) as [<-|Hne].
      * rewrite lookup_insert_eq in Hf. simplify_eq. eauto.
      * rewrite lookup_insert_ne in Hf by done. by eapply Hval.
    + by rewrite (tasks_insert_fst _ _ _ _ _ H).
    + intros Hwk r0 Hr0. destruct (Hact Hwk r0 Hr0) as [Hh|(j & s & Hj & Hs)]; [by left|].
      right. destruct (decide (i = j)) as [->|Hne].
      * exists j, AtNotifyFinished. simplify_eq. split; [|done].
        apply list_lookup_insert_eq. by eapply lookup_lt_Some.
      * exists j, s. by rewrite list_lookup_insert_ne.
  - destruct (nodup_owners _ _ _ Hnd) as (_ & _ & Hnp & _).
    constructor; simpl; try done.
    + by rewrite (tasks_insert_fst _ _ _ _ _ H).
    + intros Hwk r0 [Hr0 Hne]%elem_of_difference.
      destruct (Hact Hwk r0 Hr0) as [Hh|(j & s0 & Hj & Hs)]; [by left|].
      right. exists j, s0. split; [|done]. rewrite list_lookup_insert_ne; [done|].
      intros ->. simplify_eq. apply Hne. by apply elem_of_singleton.
  - constructor; simpl; done.
  - constructor; simpl; done.
  - constructor; simpl; try done.
    + intros g [x Hg]. apply Hdom. rewrite cancel_lookup in Hg.
      destruct (decide (f = g)); [|by exists x].
      destruct (fs !! g); [eauto|done].
    + intros g r0 Hg. rewrite cancel_lookup in Hg.
      destruct (decide (f = g)); [|by eapply Hval].
      destruct (fs !! g) as [[]|] eqn:Hfg; simplify_eq. by eapply Hval.
Qed.

Lemma rtc_move_ledger b b' :
  rtc move b b' -> books_inv b -> ledger_inv b -> books_inv b' /\ ledger_inv b'.
Proof.
  induction 1 as [|b1 b2 b3 Hm _ IH]; [done|]. intros Hi Hl.
  apply IH; [by eapply move_inv|by eapply move_ledger].
Qed.

Lemma reachable_ledger max_tasks req_per_sec req_per_hour w0 evs w :
  __init__ max_tasks req_per_sec req_per_hour = Returned w0 ->
  run w0 evs = Some w -> ledger_inv (books w).
Proof.
  intros H0 Hrun.
  eapply rtc_move_ledger; [by eapply run_moves|by eapply init_books_inv|].
  unfold __init__ in H0. destruct (max_tasks <? 0); simplify_eq.
  constructor; simpl; try done.
  intros f [x Hf]. by rewrite lookup_empty in Hf.
Qed.

(** What is finished stays finished. *)
Lemma move_finished_stays b b' f r :
  move b b' -> ledger_inv b ->
  b_futures b !! f = Some (Finished r) -> b_futures b' !! f = Some (Finished r).
Proof.
  intros Hm [Hdom _ _ _] Hf. destruct Hm; simpl in *; try done.
  - rewrite lookup_insert_ne; [done|]. intros <-.
    assert (n < n)%nat; [|lia]. apply Hdom. by rewrite Hf.
  - rewrite lookup_insert_ne; [done|]. intros Heq. rewrite Heq in *. congruence.
  - rewrite cancel_lookup. destruct (decide (f0 = f)); by rewrite ?Hf.
Qed.

Lemma rtc_move_finished_stays b b' f r :
  rtc move b b' -> books_inv b -> ledger_inv b ->
  b_futures b !! f = Some (Finished r) -> b_futures b' !! f = Some (Finished r).
Proof.
  induction 1 as [|b1 b2 b3 Hm _ IH]; [done|]. intros Hi Hl Hf.
  apply IH; [by eapply move_inv|by eapply move_ledger|by eapply move_finished_stays].
Qed.

Lemma add_request_worker_task c ev w w' :
  add_request c ev w = Some w' -> worker_task w' = worker_task w.
Proof.
  unfold add_request. intros H.
  destruct (submitter_tasks w !! c) as [[user chat func args kwargs|f t total todo|f|r]|];
    try done.
  - destruct ev as [r t| |]; try done.
    assert (forall mid w1, worker_task (add_request_put c user chat func args kwargs mid t w1)
                           = worker_task w1) as Hput.
    { intros mid w1. unfold add_request_put. cbv zeta.
      destruct (_ <=? _); [|done].
      by destruct ((update_positions_start _).2). }
    destruct r as [message_id|e]; cbv zeta in H.
    + simplify_eq. by rewrite Hput.
    + destruct (isinstance_Exception e); simplify_eq; [|done]. by rewrite Hput.
  - destruct todo as [|[pos req] todo]; [done|].
    destruct ev as [| r |]; try done.
    destruct (update_positions_body r) as [[[]|e] l]; simplify_eq; [|done].
    by destruct todo.
  - destruct ev; try done.
    destruct (futures w !! f) as [[]|]; by simplify_eq.
Qed.

Lemma process_task_worker_task i ev w w' :
  process_task i ev w = Some w' -> worker_task w' = worker_task w.
Proof.
  unfold process_task. intros H.
  destruct (process_tasks w !! i) as [[r s]|]; [|done].
  assert (forall e w1, worker_task (process_task_raise i r e w1) = worker_task w1) as Hraise.
  { intros e w1. unfold process_task_raise. by destruct (isinstance_Exception e). }
  destruct s; try done; destruct ev as [o|o|o]; try done.
  - destruct (_notify_in_progress o) as [[[]|e] l]; simplify_eq; by rewrite ?Hraise.
  - destruct o as [v|e]; [|simplify_eq; by rewrite Hraise].
    destruct (set_result _ _ _); simplify_eq; by rewrite ?Hraise.
  - destruct (_notify_finished o) as [[[]|e] l]; simplify_eq; by rewrite ?Hraise.
Qed.

(** Only the worker itself and the shutdown change the state of the
    worker task. *)
Lemma step_worker_task w ev w' :
  step w ev = Some w' -> stopped w' = false ->
  (forall wev, ev <> Worker wev) -> worker_task w' = worker_task w.
Proof.
  unfold step. destruct (stopped w) eqn:Hst; [done|].
  intros H Hst' Hev. destruct ev.
  - destruct args; by simplify_eq.
  - by eapply add_request_worker_task.
  - by destruct (Hev ev).
  - by eapply process_task_worker_task.
  - by apply periodic_status_update_frame in H as (_ & _ & _ & -> & _).
  - destruct (0 <=? _); by simplify_eq.
  - by simplify_eq.
  - destruct (shutdown_bot w) eqn:Hs; simplify_eq; [|done].
    apply shutdown_bot_stopped in Hs. congruence.
Qed.

Lemma run_snoc w evs ev w' :
  run w (evs ++ [ev]) = Some w' <->
  exists w1, run w evs = Some w1 /\ step w1 ev = Some w'.
Proof.
  rewrite run_app. split.
  - destruct (run w evs) as [w1|]; simpl; [|done].
    destruct (step w1 ev) as [w2|] eqn:Hs; [|done]. intros [= <-]. eauto.
  - intros (w1 & -> & Hs). simpl. by rewrite Hs.
Qed.

(** ** Proofs: the rate limiters along a run *)

Lemma rate_view_inv rps rph w w' :
  rate_view w' = rate_view w -> rate_inv rps rph w -> rate_inv rps rph w'.
Proof.
  unfold rate_view. intros [= Hs Hh Hw Ha Hst] [H1 H2 H3 H4 H5].
  constructor; unfold admitted in *; rewrite ?Hs, ?Hh, ?Hw, ?Ha, ?Hst; done.
Qed.

Lemma add_request_rate_view c ev w w' :
  add_request c ev w = Some w' -> rate_view w' = rate_view w.
Proof.
  unfold add_request. intros H.
  destruct (submitter_tasks w !! c) as [[user chat func args kwargs|f t total todo|f|r]|];
    try done.
  - destruct ev as [r t| |]; try done.
    assert (forall mid w1, rate_view (add_request_put c user chat func args kwargs mid t w1)
                           = rate_view w1) as Hput.
    { intros mid w1. unfold add_request_put. cbv zeta.
      destruct (_ <=? _); [|done].
      by destruct ((update_positions_start _).2). }
    destruct r as [message_id|e]; cbv zeta in H.
    + simplify_eq. by rewrite Hput.
    + destruct (isinstance_Exception e); simplify_eq; [|done]. by rewrite Hput.
  - destruct todo as [|[pos req] todo]; [done|].
    destruct ev as [| r |]; try done.
    destruct (update_positions_body r) as [[[]|e] l]; simplify_eq; [|done].
    by destruct todo.
  - destruct ev; try done.
    destruct (futures w !! f) as [[]|]; by simplify_eq.
Qed.

Lemma process_task_raise_rate_view i r e w :
  rate_view (process_task_raise i r e w) = rate_view w.
Proof. unfold process_task_raise. by destruct (isinstance_Exception e). Qed.

Lemma process_task_rate_view i ev w w' :
  process_task i ev w = Some w' -> rate_view w' = rate_view w.
Proof.
  unfold process_task. intros H.
  destruct (process_tasks w !! i) as [[r s]|]; [|done].
  destruct s; try done; destruct ev as [o|o|o]; try done.
  - destruct (_notify_in_progress o) as [[[]|e] l]; simplify_eq;
      by rewrite ?process_task_raise_rate_view.
  - destruct o as [v|e]; [|simplify_eq; by rewrite process_task_raise_rate_view].
    destruct (set_result _ _ _); simplify_eq; by rewrite ?process_task_raise_rate_view.
  - destruct (_notify_finished o) as [[[]|e] l]; simplify_eq;
      by rewrite ?process_task_raise_rate_view.
Qed.

Lemma periodic_status_update_rate_view ev w w' :
  periodic_status_update ev w = Some w' -> rate_view w' = rate_view w.
Proof.
  unfold periodic_status_update. intros H.
  destruct (status_updater_task w) as [|total [|[pos req] todo]|]; destruct ev as [|r];
    try done; simpl in H.
  - by simplify_eq.
  - destruct (update_positions_body r) as [[[]|e] l]; by simplify_eq.
Qed.

Lemma cancel_process_tasks_rate_view l w :
  rate_view (foldl cancel_process_task w l) = rate_view w.
Proof.
  revert w. induction l as [|i l IH]; intros w; simpl; [done|].
  rewrite IH. unfold cancel_process_task.
  destruct (process_tasks w !! i) as [[r []]|]; try done;
    apply process_task_raise_rate_view.
Qed.

Lemma cancel_submitter_tasks_rate_view l w :
  rate_view (foldl cancel_submitter_task w l) = rate_view w.
Proof.
  revert w. induction l as [|c l IH]; intros w; simpl; [done|].
  rewrite IH. unfold cancel_submitter_task.
  by destruct (submitter_tasks w !! c) as [[]|].
Qed.

(** Draining a bucket in two goes is draining it once: it makes no
    difference that the buckets are drained whenever time passes and not,
    as in the package, when [has_capacity] next reads the clock. *)
Lemma leak_leak a b l :
  0 <= a -> 0 <= b -> 0 <= max_rate l -> leak b (leak a l) = leak (a + b) l.
Proof.
  intros Ha Hb Hr. unfold leak. simpl. f_equal; [|lia].
  destruct (Z.eqb_spec (level l) 0) as [H0|H0]; [done|].
  destruct (Z.eqb_spec (Z.max (level l - a * max_rate l) 0) 0) as [H1|H1]; nia.
Qed.

Lemma leak_inv rate period elapsed l :
  0 < period -> 0 <= elapsed ->
  limiter_inv rate period l -> limiter_inv rate period (leak elapsed l).
Proof.
  intros Hpos He [Hr Hp Hl]. constructor; simpl; try done.
  destruct (Z.eqb_spec (level l) 0); [lia|].
  assert (0 < rate * period) by lia.
  assert (0 <= elapsed * max_rate l); [|lia].
  rewrite Hr. nia.
Qed.

Lemma leak_overdraft elapsed l :
  0 <= elapsed -> 0 <= max_rate l -> 0 <= level l ->
  overdraft (leak elapsed l) <= overdraft l.
Proof.
  intros He Hr Hl. unfold overdraft. simpl.
  destruct (Z.eqb_spec (level l) 0); nia.
Qed.

Lemma acquire_inv rate period l :
  0 < period -> has_capacity l = true ->
  limiter_inv rate period l -> limiter_inv rate period (acquire l).
Proof.
  unfold has_capacity. intros Hp Hc [Hr Hper Hl].
  apply Z.leb_le in Hc. constructor; simpl; try done. rewrite <- Hr, <- Hper. lia.
Qed.

Lemma acquire_overdraft l : overdraft (acquire l) = overdraft l.
Proof. unfold overdraft. simpl. lia. Qed.

(** One transition keeps the limiters' bookkeeping right and lets no
    bucket's overdraft grow. *)
Lemma step_rate rps rph w ev w' :
  books_inv (books w) -> rate_inv rps rph w -> step w ev = Some w' ->
  rate_inv rps rph w' /\
  (0 <= rps -> overdraft (limiter_sec (disp w')) <= overdraft (limiter_sec (disp w))) /\
  (0 <= rph -> overdraft (limiter_hour (disp w')) <= overdraft (limiter_hour (disp w))).
Proof.
  intros Hinv Hri Hstep.
  assert (rate_view w' = rate_view w ->
          rate_inv rps rph w' /\
          (0 <= rps -> overdraft (limiter_sec (disp w')) <= overdraft (limiter_sec (disp w))) /\
          (0 <= rph -> overdraft (limiter_hour (disp w')) <= overdraft (limiter_hour (disp w))))
    as Hsame.
  { intros Hv. split; [by eapply rate_view_inv|].
    unfold rate_view in Hv. injection Hv as -> -> _ _ _. lia. }
  unfold step in Hstep. destruct (stopped w) eqn:Hst; [done|].
  destruct ev as [user chat func args kwargs|c sev|wev|i pev|uev|elapsed| |].
  - apply Hsame. destruct args; by simplify_eq.
  - by eapply Hsame, add_request_rate_view.
  - destruct Hri as [Hs Hh Hc Hg Hw]. unfold worker in Hstep. unfold admitted in *.
    destruct (worker_task w) as [|r|r|r|e] eqn:Hwt; destruct wev; try done.
    + unfold Queue_get in Hstep. destruct (queue (disp w)); simplify_eq.
      split; [|simpl; lia]. constructor; unfold admitted; simpl; try done.
    + destruct (acquire_refused (limiter_sec (disp w))) eqn:Href.
      * simplify_eq. split; [|simpl; lia].
        unfold acquire_refused in Href. apply Z.ltb_lt in Href.
        rewrite (li_rate _ _ _ Hs) in Href.
        constructor; unfold admitted; simpl; try done; [lia|].
        intros e [= <-]. right. split; [done|by left].
      * destruct (has_capacity (limiter_sec (disp w))) eqn:Hcap; simplify_eq.
        split; [|simpl; rewrite acquire_overdraft; lia].
        constructor; unfold admitted; simpl; try done; [by apply acquire_inv|lia].
    + destruct (acquire_refused (limiter_hour (disp w))) eqn:Href.
      * simplify_eq. split; [|simpl; lia].
        unfold acquire_refused in Href. apply Z.ltb_lt in Href.
        rewrite (li_rate _ _ _ Hh) in Href.
        constructor; unfold admitted; simpl; try done; [lia|].
        intros e [= <-]. right. split; [done|by right].
      * destruct (has_capacity (limiter_hour (disp w))) eqn:Hcap; simplify_eq.
        split; [|simpl; rewrite acquire_overdraft; lia].
        constructor; unfold admitted; simpl; try done; [by apply acquire_inv|lia].
    + destruct (0 <? semaphore (disp w)); [|done].
      pose proof (inv_unfinished _ Hinv) as Hunf. simpl in Hunf.
      rewrite Hwt in Hunf. specialize (Hunf eq_refl). simpl in Hunf.
      unfold Queue_task_done in Hstep. simpl in Hstep.
      destruct (Z.leb_spec (unfinished_tasks (disp w)) 0); [lia|]. simplify_eq.
      split; [|simpl; lia].
      constructor; unfold admitted; simpl; try done.
      unfold admitted in *. simpl. rewrite length_app. simpl. lia.
  - by eapply Hsame, process_task_rate_view.
  - by eapply Hsame, periodic_status_update_rate_view.
  - destruct (Z.leb_spec 0 elapsed); [|done]. simplify_eq.
    destruct Hri as [Hs Hh Hc Hg Hw]. split; [|split].
    + constructor; unfold admitted; simpl; try done; [by apply leak_inv..|lia].
    + intros Hr. simpl. apply leak_overdraft; try done.
      * by rewrite (li_rate _ _ _ Hs).
      * by destruct (li_level _ _ _ Hs).
    + intros Hr. simpl. apply leak_overdraft; try done.
      * by rewrite (li_rate _ _ _ Hh).
      * by destruct (li_level _ _ _ Hh).
  - apply Hsame. by simplify_eq.
  - destruct (shutdown_bot w) as [w1|e] eqn:Hsd; simplify_eq; [|by apply Hsame].
    unfold shutdown_bot in Hsd. cbv zeta in Hsd.
    destruct (isinstance_CancelledError _) eqn:Hc; [|done]. simplify_eq.
    match goal with |- context [set_stopped true ?x] =>
      assert (rate_view x
              = rate_view (set_worker_task
                             (WorkerDone match worker_task w with
                                         | WorkerDone e => e
                                         | _ => CancelledError
                                         end) w)) as Hv
    end.
    { by rewrite cancel_submitter_tasks_rate_view, cancel_process_tasks_rate_view. }
    unfold rate_view in Hv. simpl in Hv. injection Hv as Hv1 Hv2 Hv3 Hv4 Hv5.
    destruct Hri as [Hs Hh Hck Hg Hw].
    split; [|simpl; rewrite Hv1, Hv2; lia].
    constructor; unfold admitted in *; simpl; rewrite ?Hv1, ?Hv2, ?Hv3, ?Hv4; try done.
    + destruct (worker_task w); lia.
    + intros e [= <-]. left. split; [|done].
      by destruct (worker_task w) as [| | | |[]].
Qed.

Lemma run_rate rps rph evs w w' :
  books_inv (books w) -> rate_inv rps rph w -> run w evs = Some w' ->
  rate_inv rps rph w' /\
  (0 <= rps -> overdraft (limiter_sec (disp w')) <= overdraft (limiter_sec (disp w))) /\
  (0 <= rph -> overdraft (limiter_hour (disp w')) <= overdraft (limiter_hour (disp w))).
Proof.
  revert w. induction evs as [|ev evs IH]; intros w Hinv Hri H; simpl in H.
  - simplify_eq. split; [done|lia].
  - destruct (step w ev) as [w1|] eqn:Hs; [|done].
    destruct (step_rate _ _ _ _ _ Hinv Hri Hs) as (Hri1 & Hsec1 & Hhour1).
    destruct (IH w1) as (Hri' & Hsec' & Hhour'); try done.
    { eapply rtc_move_inv; [by eapply step_moves|done]. }
    split; [done|]. split; intros Hr; [specialize (Hsec1 Hr); specialize (Hsec' Hr)|
                                       specialize (Hhour1 Hr); specialize (Hhour' Hr)]; lia.
Qed.

Lemma init_rate_inv max_tasks rps rph w0 :
  __init__ max_tasks rps rph = Returned w0 -> rate_inv rps rph w0.
Proof.
  unfold __init__. destruct (max_tasks <? 0); [done|]. intros [= <-].
  constructor; simpl; try done; constructor; simpl; lia.
Qed.

Lemma reachable_rate_inv max_tasks rps rph w0 evs w :
  __init__ max_tasks rps rph = Returned w0 -> run w0 evs = Some w ->
  rate_inv rps rph w.
Proof.
  intros H0 Hrun.
  by destruct (run_rate rps rph evs w0 w (init_books_inv _ _ _ _ H0)
                 (init_rate_inv _ _ _ _ H0) Hrun).
Qed.

(** With both rates at least 1 the worker is in its loop for as long as
    the bot is up. *)
Lemma reachable_worker_alive max_tasks rps rph w0 evs w :
  __init__ max_tasks rps rph = Returned w0 -> run w0 evs = Some w ->
  1 <= rps -> 1 <= rph -> stopped w = false ->
  worker_done (worker_task w) = false.
Proof.
  intros H0 Hrun Hs Hh Hst.
  pose proof (ri_worker _ _ _ (reachable_rate_inv _ _ _ _ _ _ H0 Hrun)) as Hw.
  destruct (worker_task w) as [| | | |e]; try done.
  destruct (Hw e eq_refl) as [[_ Hst']|[_ [Hr|Hr]]]; [congruence|lia|lia].
Qed.

(** ** Proofs: who writes a future *)

Lemma move_alloc b b' : move b b' -> books_inv b -> alloc_inv b -> alloc_inv b'.
Proof.
  intros Hm Hinv [Hal Hnd]. pose proof (inv_fresh_put _ Hinv) as Hfp.
  destruct Hm; simpl in *; try (by constructor).
  - subst n. constructor; simpl.
    + intros f Hf. destruct (decide (future r = f)) as [<-|Hne].
      * rewrite lookup_insert_eq. eauto.
      * rewrite lookup_insert_ne by done. apply Hal. lia.
    + rewrite fmap_app. apply NoDup_app. split; [done|].
      split; [|apply NoDup_singleton].
      intros f (r0 & -> & Hr0)%list_elem_of_fmap Hin. simpl in Hin.
      apply list_elem_of_singleton in Hin. specialize (Hfp r0 Hr0). lia.
  - constructor; simpl; [|done].
    intros f Hf. destruct (decide (future r = f)) as [<-|Hne].
    + rewrite lookup_insert_eq. eauto.
    + rewrite lookup_insert_ne by done. by apply Hal.
  - constructor; simpl; [|done].
    intros f0 Hf0. rewrite cancel_lookup. destruct (Hal f0 Hf0) as [x Hx].
    rewrite Hx. destruct (decide (f = f0)); [|eauto]. destruct x; eauto.
Qed.

Lemma rtc_move_alloc b b' :
  rtc move b b' -> books_inv b -> alloc_inv b -> alloc_inv b'.
Proof.
  induction 1 as [|b1 b2 b3 Hm _ IH]; [done|]. intros Hi Ha.
  apply IH; [by eapply move_inv|by eapply move_alloc].
Qed.

Lemma reachable_alloc max_tasks req_per_sec req_per_hour w0 evs w :
  __init__ max_tasks req_per_sec req_per_hour = Returned w0 ->
  run w0 evs = Some w -> alloc_inv (books w).
Proof.
  intros H0 Hrun.
  eapply rtc_move_alloc; [by eapply run_moves|by eapply init_books_inv|].
  unfold __init__ in H0. destruct (max_tasks <? 0); simplify_eq.
  constructor; simpl; [lia|apply NoDup_nil_2].
Qed.

Lemma process_task_raise_futures i r e w :
  futures (process_task_raise i r e w) = futures w.
Proof. unfold process_task_raise. by destruct (isinstance_Exception e). Qed.

(** [process_task] finishes a future in one place only: where the work
    has returned and [set_result] finds the future pending. *)
Lemma process_task_finishes i ev w w' f o :
  process_task i ev w = Some w' -> futures w' !! f = Some (Finished o) ->
  futures w !! f = Some (Finished o) \/
  exists r v, ev = func_to_call_done (Returned v) /\
    process_tasks w !! i = Some (r, AtFuncToCall) /\ future r = f /\
    futures w !! f = Some Pending /\ o = Returned v.
Proof.
  unfold process_task. intros H Hf.
  destruct (process_tasks w !! i) as [[r s]|] eqn:Hi; [|done].
  destruct s; try done; destruct ev as [o0|o0|o0]; try done.
  - destruct (_notify_in_progress o0) as [[[]|e] l]; simplify_eq; left;
      by rewrite ?process_task_raise_futures in Hf.
  - destruct o0 as [v|e];
      [|simplify_eq; left; by rewrite process_task_raise_futures in Hf].
    unfold set_result in H.
    destruct (futures w !! future r) as [[]|] eqn:Hfr; simplify_eq;
      try (left; by rewrite process_task_raise_futures in Hf).
    simpl in Hf. destruct (decide (future r = f)) as [<-|Hne].
    + rewrite lookup_insert_eq in Hf. simplify_eq. right. by exists r, v.
    + rewrite lookup_insert_ne in Hf by done. by left.
  - destruct (_notify_finished o0) as [[[]|e] l]; simplify_eq; left;
      by rewrite ?process_task_raise_futures in Hf.
Qed.

Lemma cancel_submitter_tasks_finished f o l w :
  futures (foldl cancel_submitter_task w l) !! f = Some (Finished o) ->
  futures w !! f = Some (Finished o).
Proof.
  revert w. induction l as [|c l IH]; intros w; simpl; [done|].
  intros H%IH. rewrite cancel_submitter_task_futures in H.
  destruct (decide _); [|done]. by destruct (futures w !! f) as [[]|].
Qed.

Lemma shutdown_bot_finished w w' f o :
  shutdown_bot w = Returned w' -> futures w' !! f = Some (Finished o) ->
  futures w !! f = Some (Finished o).
Proof.
  unfold shutdown_bot. cbv zeta. destruct (isinstance_CancelledError _); [|done].
  intros [= <-]. simpl. intros H%cancel_submitter_tasks_finished.
  by rewrite (proj1 (cancel_process_tasks_frame _ _)) in H.
Qed.

(** The one transition that finishes a future. *)
Lemma step_finishes w ev w' f o :
  step w ev = Some w' -> futures w' !! f = Some (Finished o) ->
  futures w !! f = Some (Finished o) \/
  exists i r v, ev = Process i (func_to_call_done (Returned v)) /\
    process_tasks w !! i = Some (r, AtFuncToCall) /\ future r = f /\
    futures w !! f = Some Pending /\ o = Returned v.
Proof.
  unfold step. destruct (stopped w); [done|]. intros H Hf. destruct ev.
  - left. destruct args; by simplify_eq.
  - left. apply add_request_effect in H as ([Heq|Heq] & _); rewrite Heq in Hf; [done|].
    destruct (decide (next_future w = f)) as [<-|Hne].
    + by rewrite lookup_insert_eq in Hf.
    + by rewrite lookup_insert_ne in Hf.
  - left. apply worker_effect in H as (Heq & _). by rewrite Heq in Hf.
  - destruct (process_task_finishes _ _ _ _ _ _ H Hf) as [?|(r & v & -> & ?)];
      [by left|right; by exists i, r, v].
  - left. apply periodic_status_update_frame in H as (_ & Heq & _). by rewrite Heq in Hf.
  - left. destruct (0 <=? _); by simplify_eq.
  - left. by simplify_eq.
  - left. destruct (shutdown_bot w) eqn:Hs; simplify_eq; [|done].
    by eapply shutdown_bot_finished.
Qed.

Lemma idle_pending_abandoned w f :
  queue (disp w) = [] -> held (worker_task w) = [] -> process_tasks w = [] ->
  (f < next_future w)%nat -> futures w !! f = Some Pending ->
  abandoned f (books w).
Proof.
  intros Hq Hh Hp Hlt Hf. repeat split; simpl; try done.
  - rewrite Hq, Hh. intros r Hr. by apply elem_of_nil in Hr.
  - rewrite Hp. intros i r s Hi. by rewrite lookup_nil in Hi.
  - by left.
Qed.

(** A future that is abandoned and pending after [evs] is not resolved
    by anything that follows, and a submitter that awaits it goes on
    waiting for as long as the bot is up. *)
Lemma abandoned_never_resolved max_tasks req_per_sec req_per_hour evs evs' w' c f :
  (forall w, started max_tasks req_per_sec req_per_hour evs = Some w ->
     abandoned f (books w) /\ futures w !! f = Some Pending /\
     submitter_tasks w !! c = Some (AtFuture f)) ->
  started max_tasks req_per_sec req_per_hour (evs ++ evs') = Some w' ->
  (forall o, futures w' !! f <> Some (Finished o)) /\
  (stopped w' = false ->
     futures w' !! f = Some Pending /\ submitter_tasks w' !! c = Some (AtFuture f)).
Proof.
  unfold started. intros Hobs Hrun.
  destruct (__init__ max_tasks req_per_sec req_per_hour) as [w0|] eqn:H0; [|done].
  rewrite run_app in Hrun.
  destruct (run w0 evs) as [w|] eqn:Hrun0; [|done]. simpl in Hrun.
  destruct (Hobs w eq_refl) as (Hab & Hf & Hc).
  split.
  - intros o. eapply abandoned_not_finished, run_abandoned; done.
  - intros Hst. apply and_comm. by eapply run_waiting_submitter.
Qed.

(** ** The claims about futures, the shutdown, the limiters and the two
    collections *)

(** C2, as stated, fails.  Two requests are accepted and their submitters
    await the futures; the admin clears the queue.  The first request's
    future is pending, and whatever happens afterwards it is never given
    a result or an exception: it stays pending, and its submitter stays
    suspended on it, for as long as the bot is up. *)
Lemma cleared_request_is_never_resolved :
  (fun w => (hist_put w, queue (disp w), futures w !! 0%nat, submitter_tasks w !! 0%nat))
    <$> started 1 10 1000 queue_cleared
  = Some ([request1; request2], [], Some Pending, Some (AtFuture 0)) /\
  forall evs w', started 1 10 1000 (queue_cleared ++ evs) = Some w' ->
    (forall o, futures w' !! 0%nat <> Some (Finished o)) /\
    (stopped w' = false ->
       futures w' !! 0%nat = Some Pending /\
       submitter_tasks w' !! 0%nat = Some (AtFuture 0)).
Proof.
  split; [vm_compute; reflexivity|]. intros evs w'.
  apply (abandoned_never_resolved 1 10 1000 queue_cleared evs w' 0%nat 0%nat).
  intros w Hw.
  assert ((fun w => (queue (disp w), held (worker_task w), process_tasks w,
                     next_future w, futures w !! 0%nat, submitter_tasks w !! 0%nat))
            <$> started 1 10 1000 queue_cleared
          = Some ([], [], [], 2%nat, Some Pending, Some (AtFuture 0))) as Hobs
    by (vm_compute; reflexivity).
  rewrite Hw in Hobs. simpl in Hobs. injection Hobs as Hq Hh Hp Hn Hf Hs.
  split; [|done]. apply idle_pending_abandoned; try done. lia.
Qed.

(** C2, as the code has it.  The future of an accepted request is written
    at most once.  The requests put so far have futures of their own, and
    each of these futures is pending, cancelled, or holds a value: no
    future is ever given an exception ([set_exception] is called
    nowhere).  A future is cancelled only by the shutdown.  The one
    transition that finishes a future is the return of the work in the
    request's own [process_task], which stores the returned value in the
    pending future; and when the work of a request returns, that is what
    happens.  What is finished stays as it is, whatever follows. *)
Theorem future_written_at_most_once max_tasks req_per_sec req_per_hour w0 evs w :
  __init__ max_tasks req_per_sec req_per_hour = Returned w0 ->
  run w0 evs = Some w ->
  NoDup (future <$> hist_put w) /\
  (forall r, r ∈ hist_put w ->
     futures w !! future r = Some Pending \/
     futures w !! future r = Some Cancelled \/
     exists v, futures w !! future r = Some (Finished (Returned v))) /\
  (forall f, futures w !! f = Some Cancelled -> stopped w = true) /\
  (forall ev w' f o, step w ev = Some w' -> futures w' !! f = Some (Finished o) ->
     futures w !! f = Some (Finished o) \/
     exists i r v, ev = Process i (func_to_call_done (Returned v)) /\
       process_tasks w !! i = Some (r, AtFuncToCall) /\ future r = f /\
       futures w !! f = Some Pending /\ o = Returned v) /\
  (forall i r v, stopped w = false -> process_tasks w !! i = Some (r, AtFuncToCall) ->
     exists w', step w (Process i (func_to_call_done (Returned v))) = Some w' /\
       futures w' !! future r = Some (Finished (Returned v))) /\
  (forall evs' w' f o, futures w !! f = Some (Finished o) -> run w evs' = Some w' ->
     futures w' !! f = Some (Finished o)).
Proof.
  intros H0 Hrun.
  pose proof (reachable_inv _ _ _ _ _ _ H0 Hrun) as Hinv.
  pose proof (reachable_ledger _ _ _ _ _ _ H0 Hrun) as Hled.
  pose proof (reachable_alloc _ _ _ _ _ _ H0 Hrun) as [Hal Hnd].
  destruct (reachable_waiting _ _ _ _ _ _ H0 Hrun) as [_ Hwp].
  simpl in *.
  split; [done|]. split; [|split; [|split; [|split]]].
  - intros r Hr.
    destruct (Hal (future r)) as [[| |o] Hf]; [by apply (inv_fresh_put _ Hinv)|auto..|].
    destruct (inv_values _ Hled _ _ Hf) as [v ->]. eauto.
  - intros f Hf. destruct (stopped w) eqn:Hst; [done|].
    by destruct (reachable_no_cancelled _ _ _ _ _ _ f H0 Hrun Hst).
  - intros ev w' f o. apply step_finishes.
  - intros i r v Hst Hi.
    assert (futures w !! future r = Some Pending) as Hf.
    { destruct (Hwp i r AtFuncToCall Hi) as [Hp|Hc]; [by right|done|].
      by destruct (reachable_no_cancelled _ _ _ _ _ _ (future r) H0 Hrun Hst). }
    unfold step, process_task, set_result. rewrite Hst, Hi, Hf.
    eexists. split; [reflexivity|]. simpl. apply lookup_insert_eq.
  - intros evs' w' f o Hf Hrun'.
    eapply (rtc_move_finished_stays (books w) (books w')); [by eapply run_moves|done..].
Qed.

Lemma future_written_at_most_once_witness :
  NoDup (future <$> hist_put (world_after two_served_one_queued)) /\
  (forall r, r ∈ hist_put (world_after two_served_one_queued) ->
     futures (world_after two_served_one_queued) !! future r = Some Pending \/
     futures (world_after two_served_one_queued) !! future r = Some Cancelled \/
     exists v, futures (world_after two_served_one_queued) !! future r
               = Some (Finished (Returned v))) /\
  (forall f, futures (world_after two_served_one_queued) !! f = Some Cancelled ->
     stopped (world_after two_served_one_queued) = true) /\
  (forall ev w' f o,
     step (world_after two_served_one_queued) ev = Some w' ->
     futures w' !! f = Some (Finished o) ->
     futures (world_after two_served_one_queued) !! f = Some (Finished o) \/
     exists i r v, ev = Process i (func_to_call_done (Returned v)) /\
       process_tasks (world_after two_served_one_queued) !! i = Some (r, AtFuncToCall) /\
       future r = f /\
       futures (world_after two_served_one_queued) !! f = Some Pending /\
       o = Returned v) /\
  (forall i r v, stopped (world_after two_served_one_queued) = false ->
     process_tasks (world_after two_served_one_queued) !! i = Some (r, AtFuncToCall) ->
     exists w',
       step (world_after two_served_one_queued) (Process i (func_to_call_done (Returned v)))
       = Some w' /\
       futures w' !! future r = Some (Finished (Returned v))) /\
  (forall evs' w' f o,
     futures (world_after two_served_one_queued) !! f = Some (Finished o) ->
     run (world_after two_served_one_queued) evs' = Some w' ->
     futures w' !! f = Some (Finished o)).
Proof.
  apply (future_written_at_most_once 1 10 1000 (world_after []) two_served_one_queued
           (world_after two_served_one_queued));
    vm_compute; reflexivity.
Defined.

(** C3, as the code has it.  With both rates at least 1 the worker is in
    its loop whenever the bot is up, and then [shutdown_bot] returns, in
    the one run of its body and with no later event needed: the worker
    has ended with [CancelledError], every [process_task] has ended, and
    every submitter has ended, with the result it already had or with
    [CancelledError].  [shutdown_bot] looks neither at the queue nor at a
    future: a pending future is cancelled because the submitter awaiting
    it is cancelled, and every such future is; a future that no submitter
    is awaiting is left as it was, and the queue keeps its requests. *)
Theorem shutdown_bot_cancels_awaited_futures
    max_tasks req_per_sec req_per_hour w0 evs w :
  __init__ max_tasks req_per_sec req_per_hour = Returned w0 ->
  run w0 evs = Some w ->
  1 <= req_per_sec -> 1 <= req_per_hour ->
  stopped w = false ->
  exists w',
    shutdown_bot w = Returned w' /\
    step w ShutdownBot = Some w' /\
    stopped w' = true /\
    worker_task w' = WorkerDone CancelledError /\
    (forall i r s, process_tasks w' !! i = Some (r, s) -> has_ended s = true) /\
    (forall c s, submitter_tasks w !! c = Some s ->
       submitter_tasks w' !! c =
         Some (match s with
               | SubmitterDone r => SubmitterDone r
               | _ => SubmitterDone (Raised CancelledError)
               end)) /\
    (forall c f, submitter_tasks w !! c = Some (AtFuture f) ->
       futures w !! f = Some Pending -> futures w' !! f = Some Cancelled) /\
    (forall f, (forall c, submitter_tasks w !! c <> Some (AtFuture f)) ->
       futures w' !! f = futures w !! f) /\
    queue (disp w') = queue (disp w).
Proof.
  intros H0 Hrun Hsec Hhour Hst.
  pose proof (reachable_worker_alive _ _ _ _ _ _ H0 Hrun Hsec Hhour Hst) as Hwk.
  assert (match worker_task w with WorkerDone e => e | _ => CancelledError end
          = CancelledError) as Heq by by destruct (worker_task w).
  unfold step. rewrite Hst.
  unfold shutdown_bot. cbv zeta. rewrite Heq. simpl isinstance_CancelledError. cbv iota.
  set (w1 := set_status_updater_task _ _).
  set (w2 := foldl cancel_process_task w1 _).
  destruct (cancel_process_tasks_frame (seq 0 (length (process_tasks w1))) w1)
    as (Hf2 & Hs2 & Hq2 & Hw2).
  fold w2 in Hf2, Hs2, Hq2, Hw2. simpl in Hf2, Hs2, Hq2, Hw2.
  destruct (cancel_submitter_tasks_frame (seq 0 (length (submitter_tasks w2))) w2)
    as (Hq3 & Hp3 & Hw3).
  assert (forall c s, submitter_tasks w !! c = Some s ->
            c ∈ seq 0 (length (submitter_tasks w2))) as Hin.
  { intros c s Hc. apply elem_of_seq. split; [lia|]. simpl. rewrite Hs2.
    by eapply lookup_lt_Some. }
  eexists. split; [reflexivity|]. split; [reflexivity|]. simpl.
  split; [done|]. split; [by rewrite Hw3, Hw2|].
  split; [|split; [|split; [|split]]].
  - rewrite Hp3. apply cancel_process_tasks_ended.
    intros i r s Hi _. apply elem_of_seq. split; [lia|].
    simpl. by eapply lookup_lt_Some.
  - intros c s Hc. apply cancel_submitter_tasks_done; [by eapply Hin|by rewrite Hs2].
  - intros c f Hc Hf. eapply cancel_submitter_tasks_cancelled.
    + by eapply Hin.
    + by rewrite Hs2.
    + by rewrite Hf2.
  - intros f Hno. rewrite cancel_submitter_tasks_other; [by rewrite Hf2|].
    intros c _. rewrite Hs2. apply Hno.
  - by rewrite Hq3, Hq2.
Qed.

Lemma shutdown_bot_cancels_awaited_futures_witness :
  exists w',
    shutdown_bot (world_after two_queued) = Returned w' /\
    step (world_after two_queued) ShutdownBot = Some w' /\
    stopped w' = true /\
    worker_task w' = WorkerDone CancelledError /\
    (forall i r s, process_tasks w' !! i = Some (r, s) -> has_ended s = true) /\
    (forall c s, submitter_tasks (world_after two_queued) !! c = Some s ->
       submitter_tasks w' !! c =
         Some (match s with
               | SubmitterDone r => SubmitterDone r
               | _ => SubmitterDone (Raised CancelledError)
               end)) /\
    (forall c f, submitter_tasks (world_after two_queued) !! c = Some (AtFuture f) ->
       futures (world_after two_queued) !! f = Some Pending ->
       futures w' !! f = Some Cancelled) /\
    (forall f, (forall c, submitter_tasks (world_after two_queued) !! c
                          <> Some (AtFuture f)) ->
       futures w' !! f = futures (world_after two_queued) !! f) /\
    queue (disp w') = queue (disp (world_after two_queued)).
Proof.
  apply (shutdown_bot_cancels_awaited_futures 1 10 1000 (world_after []) two_queued
           (world_after two_queued));
    [vm_compute; reflexivity|vm_compute; reflexivity|lia|lia|vm_compute; reflexivity].
Defined.

(** The clock only moves forward. *)
Lemma step_clock w ev w' : step w ev = Some w' -> clock w <= clock w'.
Proof.
  intros Hstep.
  assert (rate_view w' = rate_view w -> clock w <= clock w') as Hsame.
  { unfold rate_view, clock. intros [= -> _ _ _ _]. lia. }
  unfold step in Hstep. destruct (stopped w); [done|].
  destruct ev as [user chat func args kwargs|c sev|wev|i pev|uev|elapsed| |].
  - apply Hsame. destruct args; by simplify_eq.
  - by eapply Hsame, add_request_rate_view.
  - unfold worker in Hstep. unfold clock.
    destruct (worker_task w); destruct wev; try done.
    + unfold Queue_get in Hstep. destruct (queue (disp w)); simplify_eq. simpl. lia.
    + destruct (acquire_refused _); [simplify_eq; simpl; lia|].
      destruct (has_capacity _); simplify_eq. simpl. lia.
    + destruct (acquire_refused _); [simplify_eq; simpl; lia|].
      destruct (has_capacity _); simplify_eq. simpl. lia.
    + destruct (0 <? _); [|done]. unfold Queue_task_done in Hstep. simpl in Hstep.
      destruct (_ <=? 0); simplify_eq; simpl; lia.
  - by eapply Hsame, process_task_rate_view.
  - by eapply Hsame, periodic_status_update_rate_view.
  - destruct (Z.leb_spec 0 elapsed); [|done]. simplify_eq. unfold clock. simpl. lia.
  - apply Hsame. by simplify_eq.
  - destruct (shutdown_bot w) as [w1|e] eqn:Hsd; simplify_eq; [|by apply Hsame].
    unfold shutdown_bot in Hsd. cbv zeta in Hsd.
    destruct (isinstance_CancelledError _); [|done]. simplify_eq.
    match goal with |- clock _ <= clock (set_stopped true ?x) =>
      assert (rate_view x
              = rate_view (set_worker_task
                             (WorkerDone match worker_task w with
                                         | WorkerDone e => e
                                         | _ => CancelledError
                                         end) w)) as Hv
    end.
    { by rewrite cancel_submitter_tasks_rate_view, cancel_process_tasks_rate_view. }
    unfold rate_view in Hv. simpl in Hv. injection Hv as Hv1 _ _ _ _.
    unfold clock. simpl. rewrite Hv1. lia.
Qed.

Lemma run_clock evs w w' : run w evs = Some w' -> clock w <= clock w'.
Proof.
  revert w. induction evs as [|ev evs IH]; intros w H; simpl in H.
  - simplify_eq. lia.
  - destruct (step w ev) as [w1|] eqn:Hs; [|done].
    apply step_clock in Hs. apply IH in H. lia.
Qed.

(** A bucket that has drained for a whole period is empty. *)
Lemma leak_period_has_capacity rate period elapsed l :
  0 < period -> 1 <= rate -> period <= elapsed -> limiter_inv rate period l ->
  has_capacity (leak elapsed l) = true.
Proof.
  intros Hp Hr He [Hrate Hper Hl]. unfold has_capacity. simpl. apply Z.leb_le.
  rewrite Hrate, Hper. destruct (Z.eqb_spec (level l) 0); [nia|].
  assert (level l - elapsed * rate <= 0) by nia.
  rewrite Z.max_r by done. nia.
Qed.

(** What a bucket grants between two states of a run. *)
Lemma granted_between rate period l1 l2 :
  0 <= rate -> 0 <= period ->
  limiter_inv rate period l1 -> limiter_inv rate period l2 ->
  overdraft l2 <= overdraft l1 ->
  (granted l2 - granted l1) * period <= rate * (period + (last_check l2 - last_check l1)).
Proof.
  unfold overdraft. intros Hr Hp [Hr1 Hp1 Hl1] [Hr2 Hp2 Hl2] Hod.
  rewrite Hr1, Hr2, Hp1, Hp2 in Hod.
  assert (0 <= rate * period) by nia.
  rewrite Z.max_r in Hl2 by done. lia.
Qed.

(** C5, as stated, fails.  With two requests per second allowed and three
    submissions at once, the worker admits two requests at time 0; the
    bucket is then full and the worker is suspended on it.  Half a second
    later one token has drained and the third request is admitted: three
    admissions within half a time-unit. *)
Lemma three_admitted_within_half_a_second :
  (fun w => (length (hist_admit w), clock w)) <$> started 1 2 1000 burst_waits
  = Some (2%nat, 0) /\
  started 1 2 1000 (burst_waits ++ [Worker limiter_sec_entered]) = None /\
  (fun w => (length (hist_admit w), clock w)) <$> started 1 2 1000 refill_burst
  = Some (3%nat, 500) /\
  500 < 1 * ticks_per_second.
Proof. repeat split; vm_compute; reflexivity. Qed.

(** C5, as the code has it.  The worker takes one token from the limiter
    of the second and then one from the limiter of the hour before it
    admits a request, so the requests admitted never outnumber the tokens
    granted.  Each limiter is a leaky bucket: between two states of a run
    that are [d] ticks apart, a limiter of rate [R] per period [P] grants
    at most [R * (1 + d / P)] tokens, which is up to [2 * R] within one
    period, and the requests admitted in between are at most one more.
    With both rates at least 1 the acquisition never fails: the worker is
    in its loop while the bot is up, stays suspended on a limiter exactly
    while no token fits, and a token fits at the latest one period
    later. *)
Theorem leaky_bucket_admission
    max_tasks req_per_sec req_per_hour w0 evs w1 evs' w2 :
  __init__ max_tasks req_per_sec req_per_hour = Returned w0 ->
  run w0 evs = Some w1 -> run w1 evs' = Some w2 ->
  1 <= req_per_sec -> 1 <= req_per_hour ->
  clock w1 <= clock w2 /\
  (granted (limiter_sec (disp w2)) - granted (limiter_sec (disp w1)))
    * (1 * ticks_per_second)
  <= req_per_sec * (1 * ticks_per_second + (clock w2 - clock w1)) /\
  (granted (limiter_hour (disp w2)) - granted (limiter_hour (disp w1)))
    * (3600 * ticks_per_second)
  <= req_per_hour * (3600 * ticks_per_second + (clock w2 - clock w1)) /\
  admitted w2 <= granted (limiter_hour (disp w2)) /\
  granted (limiter_hour (disp w2)) <= granted (limiter_sec (disp w2)) /\
  granted (limiter_sec (disp w2)) <= admitted w2 + 1 /\
  admitted w2 - admitted w1
  <= granted (limiter_sec (disp w2)) - granted (limiter_sec (disp w1)) + 1 /\
  admitted w2 - admitted w1
  <= granted (limiter_hour (disp w2)) - granted (limiter_hour (disp w1)) + 1 /\
  (stopped w2 = false ->
     worker_done (worker_task w2) = false /\
     (forall r, worker_task w2 = AtLimiterSec r ->
        worker_task <$> step w2 (Worker limiter_sec_entered)
        = if has_capacity (limiter_sec (disp w2)) then Some (AtLimiterHour r) else None) /\
     (forall r, worker_task w2 = AtLimiterHour r ->
        worker_task <$> step w2 (Worker limiter_hour_entered)
        = if has_capacity (limiter_hour (disp w2)) then Some (AtSemaphore r) else None) /\
     (forall elapsed, 1 * ticks_per_second <= elapsed ->
        has_capacity (leak elapsed (limiter_sec (disp w2))) = true) /\
     (forall elapsed, 3600 * ticks_per_second <= elapsed ->
        has_capacity (leak elapsed (limiter_hour (disp w2))) = true)).
Proof.
  intros H0 Hrun1 Hrun2 Hsec Hhour.
  assert (run w0 (evs ++ evs') = Some w2) as Hrun by (by rewrite run_app, Hrun1).
  pose proof (reachable_inv _ _ _ _ _ _ H0 Hrun1) as Hinv1.
  pose proof (reachable_rate_inv _ _ _ _ _ _ H0 Hrun1) as Hri1.
  destruct (run_rate _ _ _ _ _ Hinv1 Hri1 Hrun2) as (Hri2 & Hods & Hodh).
  pose proof (run_clock _ _ _ Hrun2) as Hclock.
  assert (0 <= req_per_sec) as Hsec0 by lia.
  assert (0 <= req_per_hour) as Hhour0 by lia.
  assert (0 <= 1 * ticks_per_second) as Hps by done.
  assert (0 <= 3600 * ticks_per_second) as Hph by done.
  pose proof (granted_between _ _ _ _ Hsec0 Hps
                (ri_sec _ _ _ Hri1) (ri_sec _ _ _ Hri2) (Hods Hsec0)) as Hgs.
  pose proof (granted_between _ _ _ _ Hhour0 Hph
                (ri_hour _ _ _ Hri1) (ri_hour _ _ _ Hri2) (Hodh Hhour0)) as Hgh.
  rewrite (ri_clock _ _ _ Hri1), (ri_clock _ _ _ Hri2) in Hgh.
  assert (forall w, rate_inv req_per_sec req_per_hour w ->
            admitted w <= granted (limiter_hour (disp w)) /\
            granted (limiter_hour (disp w)) <= granted (limiter_sec (disp w)) /\
            granted (limiter_sec (disp w)) <= admitted w + 1) as Hbetween.
  { intros w Hri. pose proof (ri_granted _ _ _ Hri) as Hg.
    destruct (worker_task w); lia. }
  pose proof (Hbetween w1 Hri1) as (Ha1 & Hb1 & Hc1).
  pose proof (Hbetween w2 Hri2) as (Ha2 & Hb2 & Hc2).
  split; [done|]. split; [done|]. split; [done|].
  split; [done|]. split; [done|]. split; [done|].
  split; [lia|]. split; [lia|].
  intros Hst.
  split; [by eapply reachable_worker_alive|].
  pose proof (li_rate _ _ _ (ri_sec _ _ _ Hri2)) as Hrs.
  pose proof (li_rate _ _ _ (ri_hour _ _ _ Hri2)) as Hrh.
  split; [|split; [|split]].
  - intros r Hw. unfold step, worker, acquire_refused. rewrite Hst, Hw, Hrs.
    destruct (Z.ltb_spec req_per_sec 1); [lia|].
    by destruct (has_capacity _).
  - intros r Hw. unfold step, worker, acquire_refused. rewrite Hst, Hw, Hrh.
    destruct (Z.ltb_spec req_per_hour 1); [lia|].
    by destruct (has_capacity _).
  - intros elapsed He.
    eapply leak_period_has_capacity; [|exact Hsec|exact He|exact (ri_sec _ _ _ Hri2)].
    reflexivity.
  - intros elapsed He.
    eapply leak_period_has_capacity; [|exact Hhour|exact He|exact (ri_hour _ _ _ Hri2)].
    reflexivity.
Qed.

Lemma leaky_bucket_admission_witness :
  clock (world_after []) <= clock (world_after two_served_one_queued) /\
  (granted (limiter_sec (disp (world_after two_served_one_queued)))
   - granted (limiter_sec (disp (world_after [])))) * (1 * ticks_per_second)
  <= 10 * (1 * ticks_per_second
           + (clock (world_after two_served_one_queued) - clock (world_after []))) /\
  (granted (limiter_hour (disp (world_after two_served_one_queued)))
   - granted (limiter_hour (disp (world_after [])))) * (3600 * ticks_per_second)
  <= 1000 * (3600 * ticks_per_second
             + (clock (world_after two_served_one_queued) - clock (world_after []))) /\
  admitted (world_after two_served_one_queued)
  <= granted (limiter_hour (disp (world_after two_served_one_queued))) /\
  granted (limiter_hour (disp (world_after two_served_one_queued)))
  <= granted (limiter_sec (disp (world_after two_served_one_queued))) /\
  granted (limiter_sec (disp (world_after two_served_one_queued)))
  <= admitted (world_after two_served_one_queued) + 1 /\
  admitted (world_after two_served_one_queued) - admitted (world_after [])
  <= granted (limiter_sec (disp (world_after two_served_one_queued)))
     - granted (limiter_sec (disp (world_after []))) + 1 /\
  admitted (world_after two_served_one_queued) - admitted (world_after [])
  <= granted (limiter_hour (disp (world_after two_served_one_queued)))
     - granted (limiter_hour (disp (world_after []))) + 1 /\
  (stopped (world_after two_served_one_queued) = false ->
     worker_done (worker_task (world_after two_served_one_queued)) = false /\
     (forall r, worker_task (world_after two_served_one_queued) = AtLimiterSec r ->
        worker_task <$> step (world_after two_served_one_queued) (Worker limiter_sec_entered)
        = if has_capacity (limiter_sec (disp (world_after two_served_one_queued)))
          then Some (AtLimiterHour r) else None) /\
     (forall r, worker_task (world_after two_served_one_queued) = AtLimiterHour r ->
        worker_task <$> step (world_after two_served_one_queued) (Worker limiter_hour_entered)
        = if has_capacity (limiter_hour (disp (world_after two_served_one_queued)))
          then Some (AtSemaphore r) else None) /\
     (forall elapsed, 1 * ticks_per_second <= elapsed ->
        has_capacity (leak elapsed (limiter_sec (disp (world_after two_served_one_queued))))
        = true) /\
     (forall elapsed, 3600 * ticks_per_second <= elapsed ->
        has_capacity (leak elapsed (limiter_hour (disp (world_after two_served_one_queued))))
        = true)).
Proof.
  apply (leaky_bucket_admission 1 10 1000 (world_after []) [] (world_after [])
           two_served_one_queued (world_after two_served_one_queued));
    [vm_compute; reflexivity|vm_compute; reflexivity|vm_compute; reflexivity|lia|lia].
Defined.

(** C7, as stated, fails.  Two requests are queued and their submitters
    await the futures; the admin clears the queue.  The first request
    was put, its future is pending and its submitter is suspended on it,
    and the request is neither in the queue nor in the active set. *)
Lemma cleared_request_in_no_collection :
  (fun w => (bool_decide (request1 ∈ hist_put w), futures w !! future request1,
             submitter_tasks w !! 0%nat,
             bool_decide (request1 ∈ queue (disp w)),
             bool_decide (request1 ∈ active_requests (disp w))))
    <$> started 1 10 1000 queue_cleared
  = Some (true, Some Pending, Some (AtFuture 0), false, false).
Proof. vm_compute. reflexivity. Qed.

Lemma process_task_raise_ends i r s e w :
  process_tasks w !! i = Some (r, s) ->
  exists o,
    process_tasks (process_task_raise i r e w) !! i = Some (r, ProcessDone o) /\
    queue (disp (process_task_raise i r e w)) = queue (disp w) /\
    r ∉ active_requests (disp (process_task_raise i r e w)).
Proof.
  intros Hi. apply lookup_lt_Some in Hi. unfold process_task_raise.
  exists (if isinstance_Exception e then Returned () else Raised e).
  destruct (isinstance_Exception e); simpl;
    (split; [by apply list_lookup_insert_eq|split; [done|set_solver]]).
Qed.

Lemma process_task_return_ends i r s w :
  process_tasks w !! i = Some (r, s) ->
  process_tasks (process_task_return i r w) !! i = Some (r, ProcessDone (Returned ())) /\
  queue (disp (process_task_return i r w)) = queue (disp w) /\
  r ∉ active_requests (disp (process_task_return i r w)).
Proof.
  intros Hi. apply lookup_lt_Some in Hi. unfold process_task_return.
  split; [|split].
  - simpl. by apply list_lookup_insert_eq.
  - done.
  - simpl. set_solver.
Qed.

(** C7, as the code has it.  Between any two transitions of the event
    loop no request is in both the queue and the active set, and the
    queue holds no request twice.  A request in the worker's hands or in
    a [process_task] that has not ended is in the active set and not in
    the queue.  [queue.get()] and [active_requests.add] are one
    uninterrupted stretch of the worker: it takes the oldest request out
    of the queue and puts it into the active set.  A [process_task] ends
    when the deletion of the queue message comes back, or earlier by an
    exception of the work or of the in-progress notification; each of
    these transitions is enabled, and it takes the request out of the
    active set, so that the request of an ended [process_task] is in
    neither collection. *)
Theorem queued_or_active_until_ended max_tasks req_per_sec req_per_hour w0 evs w :
  __init__ max_tasks req_per_sec req_per_hour = Returned w0 ->
  run w0 evs = Some w ->
  NoDup (queue (disp w)) /\
  (forall r, r ∈ queue (disp w) -> r ∉ active_requests (disp w)) /\
  (forall r, r ∈ held (worker_task w) ++ running w ->
     r ∈ active_requests (disp w) /\ (r ∉ queue (disp w))) /\
  (forall i r o, process_tasks w !! i = Some (r, ProcessDone o) ->
     (r ∉ active_requests (disp w)) /\ (r ∉ queue (disp w))) /\
  (forall r q, stopped w = false -> worker_task w = AtQueueGet ->
     queue (disp w) = r :: q ->
     exists w', step w (Worker queue_get_ready) = Some w' /\
       worker_task w' = AtLimiterSec r /\
       queue (disp w') = q /\ (r ∉ queue (disp w')) /\
       active_requests (disp w') = active_requests (disp w) ∪ {[r]}) /\
  (forall i r s ev, stopped w = false -> process_tasks w !! i = Some (r, s) ->
     ends s ev = true ->
     exists w' o, step w (Process i ev) = Some w' /\
       process_tasks w' !! i = Some (r, ProcessDone o) /\
       (r ∉ active_requests (disp w')) /\ (r ∉ queue (disp w'))).
Proof.
  intros H0 Hrun.
  destruct (reachable_inv _ _ _ _ _ _ H0 Hrun)
    as [_ _ _ Hnd Hqa Hha Hla Hend _ _ _ _ _].
  unfold owners in *. simpl in *.
  destruct (nodup_owners _ _ _ Hnd) as (Hq & _ & _ & Hqh & Hqp & _).
  assert (forall r, r ∈ running w -> r ∈ (process_tasks w).*1) as Hrun_tasks.
  { intros r (i & s & Hi & _)%elem_of_running. by eapply tasks_lookup_fst. }
  split; [done|]. split; [done|]. split; [|split; [|split]].
  - intros r Hr. split.
    + apply elem_of_app in Hr as [Hr|(i & s & Hi & Hs)%elem_of_running];
        [by apply Hha|by eapply Hla].
    + intros Hq'. apply elem_of_app in Hr as [Hr|Hr%Hrun_tasks].
      * by apply (Hqh r).
      * by apply (Hqp r).
  - intros i r o Hi. split; [by eapply Hend|].
    intros Hq'. apply (Hqp r); [done|]. by eapply tasks_lookup_fst.
  - intros r q Hst Hw Hqueue. unfold step, worker, Queue_get. rewrite Hst, Hw, Hqueue.
    eexists. split; [reflexivity|]. simpl. repeat split; try done.
    rewrite Hqueue in Hq. by apply NoDup_cons in Hq as [Hr _].
  - intros i r s ev Hst Hi Hends.
    assert (r ∉ queue (disp w)) as Hnq.
    { intros Hq'. apply (Hqp r); [done|]. by eapply tasks_lookup_fst. }
    unfold step, process_task. rewrite Hst, Hi.
    destruct s, ev as [o|o|o]; try done; simpl in Hends.
    + destruct o as [[]|e]; [done|]. unfold _notify_in_progress.
      destruct (isinstance_TelegramAPIError e); [done|].
      match goal with |- context [process_task_raise i r e ?w1] =>
        destruct (process_task_raise_ends i r AtNotifyInProgress e w1 Hi)
          as (o & Ho & Hqo & Hao) end.
      eexists _, o. split; [reflexivity|]. split; [done|]. split; [done|].
      by rewrite Hqo.
    + destruct o as [v|e]; [done|].
      destruct (process_task_raise_ends i r AtFuncToCall e w Hi) as (o & Ho & Hqo & Hao).
      eexists _, o. split; [reflexivity|]. split; [done|]. split; [done|].
      by rewrite Hqo.
    + destruct (_notify_finished o) as [[[]|e] l].
      * match goal with |- context [process_task_return i r ?w1] =>
          destruct (process_task_return_ends i r AtNotifyFinished w1 Hi)
            as (Ho & Hqo & Hao) end.
        eexists _, _. split; [reflexivity|]. split; [done|]. split; [done|].
        by rewrite Hqo.
      * match goal with |- context [process_task_raise i r e ?w1] =>
          destruct (process_task_raise_ends i r AtNotifyFinished e w1 Hi)
            as (o' & Ho & Hqo & Hao) end.
        eexists _, o'. split; [reflexivity|]. split; [done|]. split; [done|].
        by rewrite Hqo.
Qed.

Lemma queued_or_active_until_ended_witness :
  NoDup (queue (disp (world_after one_executing))) /\
  (forall r, r ∈ queue (disp (world_after one_executing)) ->
     r ∉ active_requests (disp (world_after one_executing))) /\
  (forall r, r ∈ held (worker_task (world_after one_executing))
                 ++ running (world_after one_executing) ->
     r ∈ active_requests (disp (world_after one_executing)) /\
     (r ∉ queue (disp (world_after one_executing)))) /\
  (forall i r o, process_tasks (world_after one_executing) !! i = Some (r, ProcessDone o) ->
     (r ∉ active_requests (disp (world_after one_executing))) /\
     (r ∉ queue (disp (world_after one_executing)))) /\
  (forall r q, stopped (world_after one_executing) = false ->
     worker_task (world_after one_executing) = AtQueueGet ->
     queue (disp (world_after one_executing)) = r :: q ->
     exists w', step (world_after one_executing) (Worker queue_get_ready) = Some w' /\
       worker_task w' = AtLimiterSec r /\
       queue (disp w') = q /\ (r ∉ queue (disp w')) /\
       active_requests (disp w')
       = active_requests (disp (world_after one_executing)) ∪ {[r]}) /\
  (forall i r s ev, stopped (world_after one_executing) = false ->
     process_tasks (world_after one_executing) !! i = Some (r, s) ->
     ends s ev = true ->
     exists w' o, step (world_after one_executing) (Process i ev) = Some w' /\
       process_tasks w' !! i = Some (r, ProcessDone o) /\
       (r ∉ active_requests (disp w')) /\ (r ∉ queue (disp w'))).
Proof.
  apply (queued_or_active_until_ended 1 10 1000 (world_after []) one_executing
           (world_after one_executing));
    vm_compute; reflexivity.
Defined.

Lemma fifo_sublists b :
  books_inv b ->
  b_admit b `sublist_of` b_put b /\ b_get b `sublist_of` b_put b.
Proof.
  intros [_ _ _ _ _ _ _ _ _ _ _ Hfifo Hadm].
  assert (b_get b `sublist_of` b_put b) as Hget.
  { etrans; [|exact Hfifo]. by apply sublist_inserts_r. }
  split; [|done]. etrans; [|exact Hget].
  destruct (worker_done (b_worker b)).
  - destruct Hadm as [k ->]. by apply sublist_inserts_r.
  - rewrite Hadm. by apply sublist_inserts_r.
Qed.

(** ** Further properties of the dispatcher *)

Lemma semaphore_never_held_witness :
  exists w0 w,
    __init__ 1 10 1000 = Returned w0 /\
    run w0 two_served_one_queued = Some w /\
    semaphore (disp w) = 1.
Proof.
  eexists _, _.
  split; [reflexivity|]. split; [vm_compute; reflexivity|].
  eapply (semaphore_never_held 1 10 1000 _ two_served_one_queued);
    [reflexivity|vm_compute; reflexivity].
Defined.

(** X2.  The queue's count of unfinished tasks is kept right: while the
    worker is in its loop it is the number of queued requests plus the
    one in the worker's hands, also across [clear_gpt_queue].  So
    [queue.task_done()] never raises: the worker leaves its loop only by
    cancellation or because a limiter refuses the token.  With both rates
    at least 1 no limiter refuses, the worker is in its loop for as long
    as the bot is up, and it ends with [CancelledError] only. *)
Theorem queue_accounting max_tasks req_per_sec req_per_hour w0 evs w :
  __init__ max_tasks req_per_sec req_per_hour = Returned w0 ->
  run w0 evs = Some w ->
  (worker_done (worker_task w) = false ->
     unfinished_tasks (disp w)
     = Z.of_nat (length (queue (disp w)) + length (held (worker_task w)))) /\
  (forall e, worker_task w = WorkerDone e -> e = CancelledError \/ e = acquire_error) /\
  (1 <= req_per_sec -> 1 <= req_per_hour ->
     (stopped w = false -> worker_done (worker_task w) = false) /\
     (forall e, worker_task w = WorkerDone e -> e = CancelledError)).
Proof.
  intros H0 Hrun.
  destruct (reachable_inv _ _ _ _ _ _ H0 Hrun) as [_ _ _ _ _ _ _ _ Hunf Hwk _ _ _].
  split; [done|]. split; [done|]. intros Hsec Hhour.
  split; [by eapply reachable_worker_alive|].
  intros e He.
  destruct (ri_worker _ _ _ (reachable_rate_inv _ _ _ _ _ _ H0 Hrun) e He)
    as [[-> _]|[_ [?|?]]]; [done|lia|lia].
Qed.

Lemma queue_accounting_witness :
  (worker_done (worker_task (world_after one_executing)) = false ->
     unfinished_tasks (disp (world_after one_executing))
     = Z.of_nat (length (queue (disp (world_after one_executing)))
                 + length (held (worker_task (world_after one_executing))))) /\
  (forall e, worker_task (world_after one_executing) = WorkerDone e ->
     e = CancelledError \/ e = acquire_error) /\
  (1 <= 10 -> 1 <= 1000 ->
     (stopped (world_after one_executing) = false ->
        worker_done (worker_task (world_after one_executing)) = false) /\
     (forall e, worker_task (world_after one_executing) = WorkerDone e ->
        e = CancelledError)).
Proof.
  apply (queue_accounting 1 10 1000 (world_after []) one_executing
           (world_after one_executing));
    vm_compute; reflexivity.
Defined.

(** X5.  While the worker is in its loop, the active set is exactly the
    request in the worker's hands together with the requests of the
    [process_task]s that have not ended: nothing else is left in it. *)
Theorem active_requests_exact max_tasks req_per_sec req_per_hour w0 evs w :
  __init__ max_tasks req_per_sec req_per_hour = Returned w0 ->
  run w0 evs = Some w ->
  worker_done (worker_task w) = false ->
  forall r, r ∈ active_requests (disp w) <-> r ∈ held (worker_task w) ++ running w.
Proof.
  intros H0 Hrun Hwk r.
  pose proof (reachable_inv _ _ _ _ _ _ H0 Hrun) as Hinv.
  pose proof (reachable_ledger _ _ _ _ _ _ H0 Hrun) as Hled.
  rewrite elem_of_app, elem_of_running. split.
  - intros Hr. by apply (inv_active_exact _ Hled Hwk).
  - intros [Hh|(i & s & Hi & Hs)].
    + by apply (inv_held_active _ Hinv).
    + by eapply (inv_live_active _ Hinv).
Qed.

Lemma active_requests_exact_witness :
  worker_done (worker_task (world_after one_executing)) = false /\
  (bool_decide (request0 ∈ active_requests (disp (world_after one_executing))) = true /\
   running (world_after one_executing) = [request0]) /\
  forall r, r ∈ active_requests (disp (world_after one_executing)) <->
            r ∈ held (worker_task (world_after one_executing))
                ++ running (world_after one_executing).
Proof.
  split; [vm_compute; reflexivity|]. split; [split; vm_compute; reflexivity|].
  apply (active_requests_exact 1 10 1000 (world_after []) one_executing
           (world_after one_executing));
    vm_compute; reflexivity.
Defined.



(** X3.  A future is written at most once and only with a value: a finished
    future holds the value some work returned, never an exception, and no
    later event (a second [set_result], a cancellation, the shutdown)
    changes it. *)
Theorem finished_future_is_final max_tasks req_per_sec req_per_hour w0 evs w f r :
  __init__ max_tasks req_per_sec req_per_hour = Returned w0 ->
  run w0 evs = Some w ->
  futures w !! f = Some (Finished r) ->
  (exists v, r = Returned v) /\
  forall evs' w', run w evs' = Some w' -> futures w' !! f = Some (Finished r).
Proof.
  intros H0 Hrun Hf.
  pose proof (reachable_inv _ _ _ _ _ _ H0 Hrun) as Hinv.
  pose proof (reachable_ledger _ _ _ _ _ _ H0 Hrun) as Hled.
  split; [by eapply (inv_values _ Hled)|].
  intros evs' w' Hrun'.
  by apply (rtc_move_finished_stays (books w) (books w') f r (run_moves _ _ _ Hrun')).
Qed.

Lemma finished_future_is_final_witness :
  exists w0 w,
    __init__ 1 10 1000 = Returned w0 /\
    run w0 two_served_one_queued = Some w /\
    futures w !! 0%nat = Some (Finished (Returned "answer 1")) /\
    ((exists v, Returned "answer 1" = Returned v) /\
     forall evs' w', run w evs' = Some w' ->
       futures w' !! 0%nat = Some (Finished (Returned "answer 1"))).
Proof.
  eexists _, _.
  split; [reflexivity|]. split; [vm_compute; reflexivity|].
  split; [vm_compute; reflexivity|].
  eapply (finished_future_is_final 1 10 1000 _ two_served_one_queued);
    [reflexivity|vm_compute; reflexivity|vm_compute; reflexivity].
Defined.

(** X4.  The [process_task]s are exactly the admissions, in order: the worker
    creates one task per request it admits, never two for one request, and
    only for requests that [add_request] has put. *)
Theorem one_process_task_per_admission max_tasks req_per_sec req_per_hour w0 evs w :
  __init__ max_tasks req_per_sec req_per_hour = Returned w0 ->
  run w0 evs = Some w ->
  (process_tasks w).*1 = hist_admit w /\
  NoDup (process_tasks w).*1 /\
  (forall r, r ∈ (process_tasks w).*1 -> r ∈ hist_put w).
Proof.
  intros H0 Hrun.
  pose proof (reachable_inv _ _ _ _ _ _ H0 Hrun) as Hinv.
  pose proof (reachable_ledger _ _ _ _ _ _ H0 Hrun) as Hled.
  destruct (fifo_sublists _ Hinv) as [Hadm Hget].
  pose proof (inv_nodup _ Hinv) as Hnd. unfold owners in Hnd.
  destruct (nodup_owners _ _ _ Hnd) as (_ & _ & Hnp & _).
  pose proof (inv_tasks_admit _ Hled) as Heq. simpl in *.
  repeat split; try done.
  intros r Hr. rewrite Heq in Hr. by eapply elem_of_sublist.
Qed.

Lemma one_process_task_per_admission_witness :
  exists w0 w,
    __init__ 1 10 1000 = Returned w0 /\
    run w0 two_served_one_queued = Some w /\
    hist_admit w = [request1; request2] /\
    ((process_tasks w).*1 = hist_admit w /\
     NoDup (process_tasks w).*1 /\
     (forall r, r ∈ (process_tasks w).*1 -> r ∈ hist_put w)).
Proof.
  eexists _, _.
  split; [reflexivity|]. split; [vm_compute; reflexivity|].
  split; [vm_compute; reflexivity|].
  eapply (one_process_task_per_admission 1 10 1000 _ two_served_one_queued);
    [reflexivity|vm_compute; reflexivity].
Defined.


(** ** A tick of the position updates *)

Lemma update_positions_body_tolerant r :
  (forall e, r = Raised e -> isinstance_Exception e = true) ->
  exists l, update_positions_body r = (Returned (), l).
Proof.
  intros Hr. destruct r as [[]|e]; [by eexists|].
  unfold update_positions_body. simpl.
  destruct (isinstance_TelegramAPIError e); [by eexists|].
  rewrite (Hr e eq_refl). by eexists.
Qed.

Lemma tick_loop total todo rs w :
  stopped w = false ->
  status_updater_task w = updater_next total todo ->
  length rs = length todo ->
  Forall (fun r => forall e, r = Raised e -> isinstance_Exception e = true) rs ->
  exists w',
    run w (Updater <$> (updater_position_edited <$> rs)) = Some w' /\
    status_updater_task w' = AtSleep /\
    sink_calls w' = sink_calls w ++
      zip_with (fun pr r => (edit_position (chat_id pr.2) (position_msg_id pr.2)
                               pr.1 total, failure r)) todo rs.
Proof.
  revert rs w. induction todo as [|[pos req] todo IH]; intros rs w Hst Hup Hlen Hok.
  - destruct rs; [|done]. exists w. simpl. by rewrite app_nil_r.
  - destruct rs as [|r rs]; [done|]. apply Forall_cons in Hok as [Hr Hok].
    destruct (update_positions_body_tolerant r Hr) as [l Hl].
    simpl. unfold step. rewrite Hst. unfold periodic_status_update.
    rewrite Hup. simpl. rewrite Hl.
    match goal with |- context [run ?w1 _] =>
      destruct (IH rs w1) as (w' & Hrun & Hsl & Hcalls) end; try done.
    { simpl in Hlen. lia. }
    exists w'. split; [done|]. split; [done|].
    rewrite Hcalls. simpl. by rewrite <- app_assoc.
Qed.

Lemma zip_with_imap {A B C D} (g : C -> B -> D) (f : nat -> A -> C) (l : list A)
    (k : list B) :
  zip_with g (imap f l) k = imap (fun i p => g (f i p.1) p.2) (zip l k).
Proof.
  revert f k. induction l as [|x l IH]; intros f k; [done|].
  destruct k as [|y k]; [done|]. simpl. f_equal. apply IH.
Qed.

(** X6.  One tick of [periodic_status_update] goes through the whole queue: it
    edits the message of every request queued when the tick began, in queue
    order, with positions 1, 2, ... of the queue's length, and is back at
    its sleep afterwards. An edit that fails with an instance of
    [Exception] does not keep the later ones from being made. *)
Theorem tick_edits_every_position w rs :
  stopped w = false ->
  status_updater_task w = AtSleep ->
  length rs = length (queue (disp w)) ->
  Forall (fun r => forall e, r = Raised e -> isinstance_Exception e = true) rs ->
  exists w',
    run w (Updater <$> (sleep_done :: (updater_position_edited <$> rs))) = Some w' /\
    status_updater_task w' = AtSleep /\
    sink_calls w' = sink_calls w ++
      imap (fun idx p =>
              (edit_position (chat_id p.1) (position_msg_id p.1)
                 (Z.of_nat idx + 1) (Z.of_nat (length (queue (disp w)))),
               failure p.2))
           (zip (queue (disp w)) rs).
Proof.
  intros Hst Hup Hlen Hok.
  destruct (tick_loop (update_positions_start (disp w)).1
              (update_positions_start (disp w)).2 rs
              (set_status_updater_task
                 (updater_next (update_positions_start (disp w)).1
                    (update_positions_start (disp w)).2) w))
    as (w' & Hrun & Hsl & Hcalls); try done.
  { unfold update_positions_start. simpl. by rewrite length_imap. }
  exists w'. split; [|split; [done|]].
  - simpl. unfold step. rewrite Hst. unfold periodic_status_update. rewrite Hup.
    by destruct (update_positions_start (disp w)).
  - rewrite Hcalls. unfold update_positions_start. simpl. f_equal.
    by rewrite zip_with_imap.
Qed.

Lemma tick_edits_every_position_witness :
  exists w',
    run (world_after two_queued) (Updater <$> failing_tick) = Some w' /\
    status_updater_task w' = AtSleep /\
    sink_calls w' = sink_calls (world_after two_queued) ++
      imap (fun idx p =>
              (edit_position (chat_id p.1) (position_msg_id p.1)
                 (Z.of_nat idx + 1)
                 (Z.of_nat (length (queue (disp (world_after two_queued))))),
               failure p.2))
           (zip (queue (disp (world_after two_queued)))
              ([Raised (TelegramAPIError "message to edit not found");
                Raised (OtherException "ClientDecodeError")] : list (outcome unit))).
Proof.
  apply (tick_edits_every_position (world_after two_queued)
           [Raised (TelegramAPIError "message to edit not found");
            Raised (OtherException "ClientDecodeError")]);
    [vm_compute; reflexivity..|].
  repeat constructor; by intros e [= <-].
Defined.

(** ** [add_request] always enqueues *)

Lemma add_request_put_books c user chat func args kwargs mid t w :
  books (add_request_put c user chat func args kwargs mid t w)
  = mkBooks (queue (disp w) ++ [mkTaskRequest user chat mid func args kwargs (next_future w)])
      (active_requests (disp w)) (worker_task w) (process_tasks w)
      (<[next_future w := Pending]> (futures w)) (S (next_future w))
      (unfinished_tasks (disp w) + 1)
      (hist_put w ++ [mkTaskRequest user chat mid func args kwargs (next_future w)])
      (hist_get w) (hist_admit w) (semaphore (disp w)).
Proof.
  unfold add_request_put. cbv zeta.
  destruct (_ <=? _); by rewrite ?add_request_update_books.
Qed.

Lemma add_request_put_fields c user chat func args kwargs mid t w :
  queue (disp (add_request_put c user chat func args kwargs mid t w))
  = queue (disp w) ++ [mkTaskRequest user chat mid func args kwargs (next_future w)] /\
  unfinished_tasks (disp (add_request_put c user chat func args kwargs mid t w))
  = unfinished_tasks (disp w) + 1 /\
  active_requests (disp (add_request_put c user chat func args kwargs mid t w))
  = active_requests (disp w) /\
  futures (add_request_put c user chat func args kwargs mid t w)
  = <[next_future w := Pending]> (futures w).
Proof.
  pose proof (add_request_put_books c user chat func args kwargs mid t w) as Hb.
  split; [exact (f_equal b_queue Hb)|].
  split; [exact (f_equal b_unfinished Hb)|].
  split; [exact (f_equal b_active Hb)|exact (f_equal b_futures Hb)].
Qed.

(** X7.  When [bot.send_message] returns to [add_request], with a message or
    with any [Exception], the request is put at the back of the queue
    with a future of its own: the future is new (no request put before
    has it), it is pending, and no other future changes. If the message
    could not be sent the request carries [position_msg_id = 0]. *)
Theorem add_request_always_enqueues max_tasks req_per_sec req_per_hour w0 evs w
    c user chat func args kwargs r t :
  __init__ max_tasks req_per_sec req_per_hour = Returned w0 ->
  run w0 evs = Some w ->
  stopped w = false ->
  submitter_tasks w !! c = Some (AtSendMessage user chat func args kwargs) ->
  (forall e, r = Raised e -> isinstance_Exception e = true) ->
  exists w',
    step w (Submitter c (message_sent r t)) = Some w' /\
    queue (disp w') = queue (disp w) ++
      [mkTaskRequest user chat (match r with Returned m => m | Raised _ => 0 end)
         func args kwargs (next_future w)] /\
    unfinished_tasks (disp w') = unfinished_tasks (disp w) + 1 /\
    active_requests (disp w') = active_requests (disp w) /\
    futures w !! next_future w = None /\
    futures w' = <[next_future w := Pending]> (futures w) /\
    (forall r', r' ∈ hist_put w -> future r' <> next_future w).
Proof.
  intros H0 Hrun Hst Hc Hr.
  pose proof (reachable_inv _ _ _ _ _ _ H0 Hrun) as Hinv.
  pose proof (reachable_ledger _ _ _ _ _ _ H0 Hrun) as Hled.
  assert (futures w !! next_future w = None) as Hnone.
  { destruct (futures w !! next_future w) eqn:Hf; [|done].
    pose proof (inv_dom _ Hled (next_future w)) as Hlt. simpl in Hlt.
    rewrite Hf in Hlt. specialize (Hlt (mk_is_Some _ _ eq_refl)). lia. }
  assert (forall r', r' ∈ hist_put w -> future r' <> next_future w) as Hfresh.
  { intros r' Hr'. pose proof (inv_fresh_put _ Hinv r' Hr') as Hlt. simpl in Hlt. lia. }
  clear H0 Hrun Hinv Hled.
  unfold step. rewrite Hst. unfold add_request. rewrite Hc.
  destruct r as [m|e]; cbv zeta.
  - destruct (add_request_put_fields c user chat func args kwargs m t
                (add_sink_call (send_message chat) (failure (Returned m)) w))
      as (Hq & Hu & Ha & Hf).
    eexists. split; [reflexivity|].
    split; [exact Hq|]. split; [exact Hu|]. split; [exact Ha|].
    split; [exact Hnone|]. split; [exact Hf|exact Hfresh].
  - rewrite (Hr e eq_refl).
    destruct (add_request_put_fields c user chat func args kwargs 0 t
                (add_log [exception_enqueue_send e]
                   (add_sink_call (send_message chat) (failure (Raised e : outcome Z)) w)))
      as (Hq & Hu & Ha & Hf).
    eexists. split; [reflexivity|].
    split; [exact Hq|]. split; [exact Hu|]. split; [exact Ha|].
    split; [exact Hnone|]. split; [exact Hf|exact Hfresh].
Qed.

Lemma add_request_always_enqueues_witness :
  exists w',
    step (world_after one_submitted)
      (Submitter 0 (message_sent (Raised (OtherException "TelegramNetworkError")) 3))
    = Some w' /\
    queue (disp w') = queue (disp (world_after one_submitted)) ++
      [mkTaskRequest 1 100 0 "ask_cbt" [] [("user_question", "q1")]
         (next_future (world_after one_submitted))] /\
    unfinished_tasks (disp w') = unfinished_tasks (disp (world_after one_submitted)) + 1 /\
    active_requests (disp w') = active_requests (disp (world_after one_submitted)) /\
    futures (world_after one_submitted) !! next_future (world_after one_submitted)
    = None /\
    futures w' = <[next_future (world_after one_submitted) := Pending]>
                   (futures (world_after one_submitted)) /\
    (forall r', r' ∈ hist_put (world_after one_submitted) ->
                future r' <> next_future (world_after one_submitted)).
Proof.
  apply (add_request_always_enqueues 1 10 1000 (world_after []) one_submitted
           (world_after one_submitted) 0%nat 1 100 "ask_cbt" []
           [("user_question", "q1")]
           (Raised (OtherException "TelegramNetworkError")) 3);
    [vm_compute; reflexivity..|].
  by intros e [= <-].
Defined.


(** ** From [func_to_call] to the submitter *)

Lemma step_other_submitter w ev w' c s :
  step w ev = Some w' -> stopped w' = false ->
  submitter_tasks w !! c = Some s ->
  (forall sev, ev <> Submitter c sev) ->
  submitter_tasks w' !! c = Some s.
Proof.
  unfold step. destruct (stopped w) eqn:Hst; [done|].
  intros H Hst' Hc Hev. destruct ev.
  - destruct args; simplify_eq; simpl; by apply lookup_app_l_Some.
  - apply add_request_effect in H as (_ & _ & Hsub & _).
    rewrite Hsub; [done|]. intros ->. by eapply Hev.
  - by apply worker_effect in H as (_ & _ & ->).
  - by apply process_task_effect in H as (_ & _ & ->).
  - by apply periodic_status_update_frame in H as (_ & _ & _ & _ & _ & -> & _).
  - destruct (0 <=? _); by simplify_eq.
  - by simplify_eq.
  - destruct (shutdown_bot w) eqn:Hs; simplify_eq; [|done].
    apply shutdown_bot_stopped in Hs. congruence.
Qed.

Lemma ask_gpt_in_queue_result_value v : ask_gpt_in_queue_result (Returned v) = Returned v.
Proof. reflexivity. Qed.

Lemma step_delivers w ev w' c f v :
  step w ev = Some w' -> stopped w' = false ->
  futures w !! f = Some (Finished (Returned v)) ->
  submitter_tasks w !! c = Some (AtFuture f) \/
  submitter_tasks w !! c = Some (SubmitterDone (Returned v)) ->
  submitter_tasks w' !! c = Some (AtFuture f) \/
  submitter_tasks w' !! c = Some (SubmitterDone (Returned v)).
Proof.
  intros Hs Hst' Hf Hc.
  assert ((exists sev, ev = Submitter c sev) \/ (forall sev, ev <> Submitter c sev)) as [[sev ->]|Hev].
  { destruct ev as [| c' sev | | | | | |]; try (by right).
    destruct (decide (c' = c)) as [->|Hne]; [left; eauto|right; congruence]. }
  - unfold step in Hs. destruct (stopped w); [done|]. unfold add_request in Hs.
    destruct Hc as [Hc|Hc]; rewrite Hc in Hs; [|done].
    destruct sev; try done. rewrite Hf in Hs. simplify_eq. right.
    rewrite ask_gpt_in_queue_result_value. simpl.
    apply list_lookup_insert_eq. by eapply lookup_lt_Some.
  - destruct Hc as [Hc|Hc]; [left|right]; by eapply step_other_submitter.
Qed.

Lemma run_delivers w evs w' c f v :
  run w evs = Some w' -> stopped w' = false ->
  books_inv (books w) -> ledger_inv (books w) ->
  futures w !! f = Some (Finished (Returned v)) ->
  submitter_tasks w !! c = Some (AtFuture f) \/
  submitter_tasks w !! c = Some (SubmitterDone (Returned v)) ->
  futures w' !! f = Some (Finished (Returned v)) /\
  (submitter_tasks w' !! c = Some (AtFuture f) \/
   submitter_tasks w' !! c = Some (SubmitterDone (Returned v))).
Proof.
  revert w. induction evs as [|ev evs IH]; intros w H Hst Hinv Hled Hf Hc; simpl in H.
  - by simplify_eq.
  - destruct (step w ev) as [w1|] eqn:Hs; [|done].
    destruct (stopped w1) eqn:Hst1.
    { apply (run_stopped _ _ _ Hst1) in H. congruence. }
    pose proof (step_moves _ _ _ Hs) as Hm.
    apply (IH w1); try done.
    + by eapply rtc_move_inv.
    + by eapply rtc_move_ledger.
    + by apply (rtc_move_finished_stays (books w) (books w1) f _ Hm).
    + by eapply step_delivers.
Qed.

(** X8.  The value that [func_to_call] returns reaches the submitter. From any
    state the running bot can be in, with a [process_task] awaiting the
    work of a request and a submitter awaiting the request's future: the
    return of the work with [v] stores [v] in the future, and whatever
    happens afterwards while the bot is up, the submitter either still
    waits and is ready to be resumed with [v], or has returned [v] to
    the caller of [ask_gpt_in_queue]. *)
Theorem result_reaches_submitter max_tasks req_per_sec req_per_hour w0 evs w i req c v :
  __init__ max_tasks req_per_sec req_per_hour = Returned w0 ->
  run w0 evs = Some w ->
  stopped w = false ->
  process_tasks w !! i = Some (req, AtFuncToCall) ->
  submitter_tasks w !! c = Some (AtFuture (future req)) ->
  exists w1,
    step w (Process i (func_to_call_done (Returned v))) = Some w1 /\
    futures w1 !! future req = Some (Finished (Returned v)) /\
    forall evs' w2, run w1 evs' = Some w2 -> stopped w2 = false ->
      (submitter_tasks w2 !! c = Some (AtFuture (future req)) /\
       exists w3, step w2 (Submitter c future_done) = Some w3 /\
                  submitter_tasks w3 !! c = Some (SubmitterDone (Returned v))) \/
      submitter_tasks w2 !! c = Some (SubmitterDone (Returned v)).
Proof.
  intros H0 Hrun Hst Hi Hc.
  assert (futures w !! future req = Some Pending) as Hf.
  { destruct (reachable_waiting _ _ _ _ _ _ H0 Hrun) as [_ Hw].
    destruct (Hw i req AtFuncToCall Hi) as [Hp|Hp]; [by right|done|].
    by apply (reachable_no_cancelled _ _ _ _ _ _ (future req) H0 Hrun Hst) in Hp. }
  assert (step w (Process i (func_to_call_done (Returned v)))
          = Some (set_process_task i req AtNotifyFinished
                    (set_futures (<[future req := Finished (Returned v)]> (futures w)) w)))
    as Hstep.
  { unfold step. rewrite Hst. unfold process_task. rewrite Hi.
    unfold set_result. by rewrite Hf. }
  eexists. split; [exact Hstep|].
  split; [apply lookup_insert_eq|].
  intros evs' w2 Hrun' Hst2.
  pose proof (step_moves _ _ _ Hstep) as Hm.
  destruct (run_delivers _ _ _ c (future req) v Hrun' Hst2) as [Hf2 [Hc2|Hc2]].
  { eapply rtc_move_inv; [exact Hm|]. by eapply reachable_inv. }
  { eapply rtc_move_ledger; [exact Hm|by eapply reachable_inv|by eapply reachable_ledger]. }
  { apply lookup_insert_eq. }
  { by left. }
  - left. split; [done|]. eexists. split.
    + unfold step. rewrite Hst2. unfold add_request. rewrite Hc2, Hf2. reflexivity.
    + rewrite ask_gpt_in_queue_result_value. simpl.
      apply list_lookup_insert_eq. by eapply lookup_lt_Some.
  - by right.
Qed.

Lemma result_reaches_submitter_witness :
  exists w1,
    step (world_after one_executing) (Process 0 (func_to_call_done (Returned "answer")))
    = Some w1 /\
    futures w1 !! future request0 = Some (Finished (Returned "answer")) /\
    forall evs' w2, run w1 evs' = Some w2 -> stopped w2 = false ->
      (submitter_tasks w2 !! 0%nat = Some (AtFuture (future request0)) /\
       exists w3, step w2 (Submitter 0 future_done) = Some w3 /\
                  submitter_tasks w3 !! 0%nat = Some (SubmitterDone (Returned "answer"))) \/
      submitter_tasks w2 !! 0%nat = Some (SubmitterDone (Returned "answer")).
Proof.
  apply (result_reaches_submitter 1 10 1000 (world_after []) one_executing
           (world_after one_executing) 0%nat request0 0%nat "answer");
    vm_compute; reflexivity.
Defined.

(** ** Notification failures that change nothing *)

Lemma process_task_end_unobserved i r e w1 w2 :
  isinstance_Exception e = true ->
  unobserved w1 = unobserved w2 ->
  unobserved (process_task_raise i r e w1) = unobserved (process_task_return i r w2).
Proof.
  intros He Hw. unfold process_task_raise. rewrite He.
  unfold unobserved in Hw. injection Hw as Hd Hf Hn Hwk Hup Hps Hsub Hst Hp Hg Ha.
  unfold unobserved, process_task_return, set_process_task. simpl.
  by rewrite Hd, Hf, Hn, Hwk, Hup, Hps, Hsub, Hst, Hp, Hg, Ha.
Qed.

(** X9.  A failure of a notification that its call site handles has no effect
    beyond the log: after a position edit (in [add_request] or in the
    status updater) or the deletion of the queue message failed with any
    [Exception], or the in-progress edit failed with a [TelegramAPIError],
    the dispatcher, the futures and all tasks are exactly as after the
    same call succeeding. *)
Theorem tolerated_failure_changes_nothing w ev :
  tolerated ev = true ->
  unobserved <$> step w ev = unobserved <$> step w (notification_ok ev).
Proof.
  intros Hev. unfold step. destruct (stopped w); [done|].
  destruct ev as [user chat func args kwargs|c sev|wev|i pev|uev|elapsed| |]; try done.
  - destruct sev as [|r|]; try done. destruct r as [[]|e]; try done. simpl in Hev.
    unfold notification_ok, add_request.
    destruct (submitter_tasks w !! c) as [[?????|f t total [|[pos req] todo]|?|?]|]; try done.
    unfold update_positions_body. simpl.
    destruct (isinstance_TelegramAPIError e); [by destruct todo|].
    rewrite Hev. by destruct todo.
  - destruct pev as [r|r|r]; try done; destruct r as [[]|e]; try done; simpl in Hev;
      unfold notification_ok, process_task;
      destruct (process_tasks w !! i) as [[r []]|]; try done; simpl.
    + by rewrite Hev.
    + destruct (isinstance_TelegramAPIError e); [done|].
      simpl. f_equal. by apply process_task_end_unobserved.
  - destruct uev as [|r]; try done. destruct r as [[]|e]; try done. simpl in Hev.
    unfold notification_ok, periodic_status_update.
    destruct (status_updater_task w) as [|total [|[pos req] todo]|]; try done.
    unfold update_positions_body. simpl.
    destruct (isinstance_TelegramAPIError e); [done|]. by rewrite Hev.
Qed.

Lemma tolerated_failure_changes_nothing_witness :
  unobserved <$> step (world_after (one_executing ++
                         [Process 0 (func_to_call_done (Returned "answer"))]))
                   (Process 0 (message_deleted (Raised (OtherException "ClientDecodeError"))))
  = unobserved <$> step (world_after (one_executing ++
                           [Process 0 (func_to_call_done (Returned "answer"))]))
                     (notification_ok
                        (Process 0 (message_deleted
                                      (Raised (OtherException "ClientDecodeError"))))).
Proof.
  apply (tolerated_failure_changes_nothing
           (world_after (one_executing ++ [Process 0 (func_to_call_done (Returned "answer"))]))
           (Process 0 (message_deleted (Raised (OtherException "ClientDecodeError"))))).
  reflexivity.
Defined.

End Dispatcher.

(** ** The claim about [error_handler] *)

Module ErrorHandlerFacts.
Import ErrorHandler.

Section Facts.
Context {T : Type}.
Implicit Types (func : coroutine T) (p : params T).

Lemma wrapped_last func m b a :
  wrapped func m b a = func (last_attempt_from func m b a).
Proof.
  revert a. induction b as [|b IH]; intros a; simpl;
    destruct (func a) as [v|e] eqn:Ha; try done;
    destruct (retry_if_exception_type_Exception e); try done;
    destruct (stop_after_attempt m a); try done.
Qed.

Lemma last_attempt_from_ge func m b a :
  (a <= last_attempt_from func m b a)%positive.
Proof.
  revert a. induction b as [|b IH]; intros a; simpl;
    destruct (func a) as [v|e]; try lia;
    destruct (retry_if_exception_type_Exception e); try lia;
    destruct (stop_after_attempt m a); try lia.
  specialize (IH (Pos.succ a)). lia.
Qed.

Lemma attempts_before_last func m b a n :
  (a <= n)%positive -> (n < last_attempt_from func m b a)%positive ->
  exists e, func n = Raised e /\ isinstance_Exception e = true.
Proof.
  revert a. induction b as [|b IH]; intros a Hle; simpl;
    destruct (func a) as [v|e] eqn:Ha; try lia;
    destruct (retry_if_exception_type_Exception e) eqn:He; try lia;
    destruct (stop_after_attempt m a); try lia.
  intros Hlt. destruct (decide (n = a)) as [->|Hne]; [eauto|].
  apply (IH (Pos.succ a)); [lia|done].
Qed.

Lemma last_attempt_from_le func m b a :
  m + 1 <= Z.pos a + Z.of_nat b ->
  Z.pos (last_attempt_from func m b a) <= Z.max (Z.pos a) m.
Proof.
  revert a. induction b as [|b IH]; intros a Hb; simpl;
    destruct (func a) as [v|e]; try lia;
    destruct (retry_if_exception_type_Exception e); try lia;
    unfold stop_after_attempt; destruct (Z.leb_spec m (Z.pos a)); try lia.
  specialize (IH (Pos.succ a)). lia.
Qed.

Lemma try_body_last p func : try_body p func = func (last_attempt p func).
Proof.
  unfold try_body, last_attempt. destruct (0 <? retries p); [|done].
  apply wrapped_last.
Qed.

(** C10, as the code has it.  [func] is awaited once when [retries <= 0]
    and at most [retries] times otherwise; every attempt before the last
    one raised an instance of [Exception], which was neither logged nor
    replaced nor re-raised, but retried.  A [CancelledError] raised by any
    attempt ends the attempts and is re-raised to the caller, unlogged.
    The last attempt decides the result: its value; or, for an instance of
    [Exception], one log record and [default_return] (the exception itself
    when [re_raise]); or, for an exception that is not an instance of
    [Exception], that exception, unlogged. *)
Theorem error_handler_outcome (name : string) p func :
  Z.pos (last_attempt p func) <= Z.max 1 (retries p) /\
  (forall n, (n < last_attempt p func)%positive ->
     exists e, func n = Raised e /\ isinstance_Exception e = true) /\
  (forall n, (n <= last_attempt p func)%positive -> func n = Raised CancelledError ->
     wrapper name p func = (Raised CancelledError, [])) /\
  wrapper name p func =
    match func (last_attempt p func) with
    | Returned v => (Returned v, [])
    | Raised e =>
        if isinstance_Exception e
        then (if re_raise p then Raised e else Returned (default_return p),
              [mkLog name e])
        else (Raised e, [])
    end.
Proof.
  assert (forall n, (n < last_attempt p func)%positive ->
            exists e, func n = Raised e /\ isinstance_Exception e = true) as Hbefore.
  { unfold last_attempt. destruct (0 <? retries p); [|lia].
    intros n Hn. eapply attempts_before_last; [|done]. lia. }
  assert (wrapper name p func =
    match func (last_attempt p func) with
    | Returned v => (Returned v, [])
    | Raised e =>
        if isinstance_Exception e
        then (if re_raise p then Raised e else Returned (default_return p),
              [mkLog name e])
        else (Raised e, [])
    end) as Hlast.
  { unfold wrapper. rewrite try_body_last.
    destruct (func (last_attempt p func)) as [v|e]; [done|].
    destruct e; simpl; try done; by destruct (re_raise p). }
  repeat split; try done.
  - unfold last_attempt. destruct (Z.ltb_spec 0 (retries p)); [|lia].
    etrans; [apply last_attempt_from_le|]; lia.
  - intros n Hle Hn.
    destruct (decide (n = last_attempt p func)) as [->|Hne].
    + by rewrite Hlast, Hn.
    + destruct (Hbefore n) as (e & He & Hexc); [lia|].
      rewrite Hn in He. by simplify_eq.
Qed.

Lemma last_attempt_from_first func m b a n :
  (a <= n)%positive ->
  Z.pos n <= Z.max (Z.pos a) m ->
  Z.pos n - Z.pos a <= Z.of_nat b ->
  (forall k, (a <= k)%positive -> (k < n)%positive ->
     exists e, func k = Raised e /\ isinstance_Exception e = true) ->
  Z.max (Z.pos a) m <= Z.pos n \/
  (forall e, func n = Raised e -> isinstance_Exception e = false) ->
  last_attempt_from func m b a = n.
Proof.
  revert a. induction b as [|b IH]; intros a Han Hmax Hb Hbefore Hn.
  - assert (n = a) as -> by lia. simpl.
    destruct (func a) as [v|e]; [done|].
    destruct (retry_if_exception_type_Exception e); [|done].
    by destruct (stop_after_attempt m a).
  - simpl. destruct (decide (n = a)) as [->|Hne].
    + destruct (func a) as [v|e] eqn:Ha; [done|].
      unfold retry_if_exception_type_Exception.
      destruct (isinstance_Exception e) eqn:He; [|done].
      unfold stop_after_attempt. destruct (Z.leb_spec m (Z.pos a)); [done|].
      destruct Hn as [Hn|Hn]; [lia|]. rewrite (Hn e eq_refl) in He. done.
    + destruct (Hbefore a) as (e & -> & He); [lia..|].
      unfold retry_if_exception_type_Exception. rewrite He.
      unfold stop_after_attempt. destruct (Z.leb_spec m (Z.pos a)); [lia|].
      apply IH; try lia.
      * intros k Hk1 Hk2. apply Hbefore; lia.
      * destruct Hn as [Hn|Hn]; [left; lia|by right].
Qed.

Lemma wrapper_raises_only_base name p func e :
  re_raise p = false ->
  (wrapper name p func).1 = Raised e ->
  isinstance_Exception e = false /\ (wrapper name p func).2 = [].
Proof.
  intros Hre. unfold wrapper. rewrite Hre.
  destruct (try_body p func) as [v|e']; [done|].
  destruct (isinstance_Exception e') eqn:He; [|simpl; by intros [= <-]].
  by destruct (isinstance_CancelledError e') eqn:Hc; destruct e'.
Qed.

(** X11.  The attempt that counts is the first one that returns or raises
    something other than an [Exception], and the attempt number
    [max 1 retries] if there is none before it: this is the attempt whose
    outcome the body of [wrapper] ends in. In particular a coroutine
    that always raises an [Exception] is awaited exactly [max 1 retries]
    times. *)
Theorem error_handler_deciding_attempt p func n :
  Z.pos n <= Z.max 1 (retries p) ->
  (forall k, (k < n)%positive ->
     exists e, func k = Raised e /\ isinstance_Exception e = true) ->
  Z.pos n = Z.max 1 (retries p) \/
  (forall e, func n = Raised e -> isinstance_Exception e = false) ->
  last_attempt p func = n /\ try_body p func = func n.
Proof.
  intros Hle Hbefore Hn.
  assert (last_attempt p func = n) as Hlast.
  { unfold last_attempt. destruct (Z.ltb_spec 0 (retries p)).
    - apply last_attempt_from_first; try lia.
      + intros k _ Hk. by apply Hbefore.
      + destruct Hn as [Hn|Hn]; [left; lia|by right].
    - lia. }
  split; [done|]. by rewrite try_body_last, Hlast.
Qed.

(** X12.  An [error_handler] around a coroutine that is itself decorated with
    [error_handler(re_raise=False)] has nothing left to do: whatever its
    own parameters, it awaits the inner coroutine once, passes on what
    that gives, and logs nothing; its [default_return] and [retries] are
    never used. *)
Theorem nested_error_handler_is_transparent name_outer name_inner
    (p_outer p_inner : params T) (func : positive -> coroutine T) :
  re_raise p_inner = false ->
  wrapper name_outer p_outer (fun n => (wrapper name_inner p_inner (func n)).1)
  = ((wrapper name_inner p_inner (func 1%positive)).1, []).
Proof.
  intros Hre.
  assert (try_body p_outer (fun n => (wrapper name_inner p_inner (func n)).1)
          = (wrapper name_inner p_inner (func 1%positive)).1) as Hbody.
  { unfold try_body. destruct (0 <? retries p_outer); [|done].
    destruct (Z.to_nat (retries p_outer)); simpl;
      destruct ((wrapper name_inner p_inner (func 1%positive)).1) as [v|e] eqn:Hw;
      try done;
      destruct (wrapper_raises_only_base _ _ _ _ Hre Hw) as [He _];
      unfold retry_if_exception_type_Exception; by rewrite He. }
  unfold wrapper at 1. rewrite Hbody.
  destruct ((wrapper name_inner p_inner (func 1%positive)).1) as [v|e] eqn:Hw; [done|].
  destruct (wrapper_raises_only_base _ _ _ _ Hre Hw) as [He _]. by rewrite He.
Qed.

End Facts.

(** C10, as stated, fails.  With [retries=3] the first attempt raises an
    exception other than [CancelledError]; it is retried, the second
    attempt answers, and the caller gets the answer: the exception was
    neither logged, nor replaced by [default_return], nor re-raised. *)
Lemma retried_exception_is_dropped :
  fails_once 1%positive = Raised (OtherException "RuntimeError") /\
  wrapper "run_gpt_request" run_gpt_request_params fails_once
  = (Returned "answer", []).
Proof. split; reflexivity. Qed.

Lemma error_handler_deciding_attempt_witness :
  last_attempt run_gpt_request_params
    (fun _ => Raised (OtherException "RuntimeError") : outcome string) = 3%positive /\
  try_body run_gpt_request_params
    (fun _ => Raised (OtherException "RuntimeError") : outcome string)
  = Raised (OtherException "RuntimeError").
Proof.
  apply (error_handler_deciding_attempt run_gpt_request_params
           (fun _ => Raised (OtherException "RuntimeError")) 3%positive).
  - simpl. lia.
  - intros k _. by eexists.
  - by left.
Defined.

Lemma nested_error_handler_is_transparent_witness :
  wrapper "get_card_description" (mkParams EmptyString false 0)
    (fun n => (wrapper "run_gpt_request" run_gpt_request_params
                 (fun _ => Raised (OtherException "RuntimeError"))).1)
  = ((wrapper "run_gpt_request" run_gpt_request_params
        (fun _ => Raised (OtherException "RuntimeError"))).1, []).
Proof.
  apply (nested_error_handler_is_transparent "get_card_description" "run_gpt_request"
           (mkParams EmptyString false 0) run_gpt_request_params
           (fun _ _ => Raised (OtherException "RuntimeError"))).
  reflexivity.
Defined.

End ErrorHandlerFacts.

(** ** Facts about [admin_required] *)

Module AdminRequiredFacts.
Import AdminRequired.

Lemma find_user_id_app values1 values2 :
  find_user_id (values1 ++ values2)
  = match find_user_id values1 with
    | Some r => Some r
    | None => find_user_id values2
    end.
Proof. induction values1 as [|[] values1 IH]; simpl; done. Qed.

Lemma find_user_id_None values :
  find_user_id values = None -> forall a, a ∈ values -> a = Other.
Proof.
  induction values as [|[] values IH]; simpl; intros H a Ha; try done.
  - by apply elem_of_nil in Ha.
  - apply elem_of_cons in Ha as [->|Ha]; [done|by apply IH].
Qed.

Lemma find_user_id_Some values r :
  find_user_id values = Some r ->
  exists a from_user,
    a ∈ values /\ (a = Message from_user \/ a = CallbackQuery from_user) /\
    r = from_user_id from_user.
Proof.
  induction values as [|[u|u|] values IH]; simpl; intros H; try done.
  - simplify_eq. exists (Message u), u. split; [by left|eauto].
  - simplify_eq. exists (CallbackQuery u), u. split; [by left|eauto].
  - destruct (IH H) as (a & u & Ha & Hk & Hr). exists a, u. split; [by right|done].
Qed.

Lemma first_instance_Some test values v :
  first_instance test values = Some v -> v ∈ values /\ test v = true.
Proof.
  induction values as [|a values IH]; simpl; [done|].
  destruct (test a) eqn:Ha.
  - intros [= <-]. split; [by left|done].
  - intros H. destruct (IH H). split; [by right|done].
Qed.

Lemma first_instance_None test values :
  first_instance test values = None -> forall v, v ∈ values -> test v = false.
Proof.
  induction values as [|a values IH]; simpl; intros H v Hv.
  - by apply elem_of_nil in Hv.
  - destruct (test a) eqn:Ha; [done|].
    apply elem_of_cons in Hv as [->|Hv]; [done|by apply IH].
Qed.

Section Facts.
Variable ADMIN_IDS : list Z.

Lemma wrapper_refuses args (kwargs : list (string * argument)) user_id :
  find_user_id (args ++ kwargs.*2) = Some (Returned user_id) ->
  user_id ∉ ADMIN_IDS ->
  exists target,
    wrapper ADMIN_IDS args kwargs
    = Returned (Answer target (isinstance_CallbackQuery target)) /\
    target ∈ args ++ kwargs.*2 /\ target <> Other.
Proof.
  rewrite find_user_id_app. intros Hfind Hnot. unfold wrapper.
  destruct (find_user_id args) as [r|] eqn:Hargs.
  - simplify_eq. rewrite bool_decide_false by done. simpl.
    destruct (first_instance isinstance_Message args) as [m|] eqn:Hm.
    { apply first_instance_Some in Hm as [Hin Ht]. exists m.
      destruct m; try done. repeat split; [|done]. apply elem_of_app. by left. }
    destruct (first_instance isinstance_CallbackQuery args) as [cq|] eqn:Hcq.
    { apply first_instance_Some in Hcq as [Hin Ht]. exists cq.
      destruct cq; try done. repeat split; [|done]. apply elem_of_app. by left. }
    apply find_user_id_Some in Hargs as (a & u & Ha & [-> | ->] & _).
    + by pose proof (first_instance_None _ _ Hm _ Ha).
    + by pose proof (first_instance_None _ _ Hcq _ Ha).
  - rewrite Hfind. rewrite bool_decide_false by done. simpl.
    pose proof (find_user_id_None _ Hargs) as Hother.
    destruct (first_instance isinstance_Message args) as [m|] eqn:Hm.
    { apply first_instance_Some in Hm as [Hin Ht]. by rewrite (Hother _ Hin) in Ht. }
    destruct (first_instance isinstance_CallbackQuery args) as [cq|] eqn:Hcq.
    { apply first_instance_Some in Hcq as [Hin Ht]. by rewrite (Hother _ Hin) in Ht. }
    destruct (first_instance _ kwargs.*2) as [v|] eqn:Hv.
    + apply first_instance_Some in Hv as [Hin Ht]. exists v.
      split; [done|]. split; [apply elem_of_app; by right|]. by intros ->.
    + apply find_user_id_Some in Hfind as (a & u & Ha & [-> | ->] & _);
        by pose proof (first_instance_None _ _ Hv _ Ha).
Qed.

(** X13.  The refusal always finds somebody to answer: when the user found is
    not an administrator, [wrapper] answers a [Message] or a
    [CallbackQuery] among the arguments (with an alert for a
    [CallbackQuery]) and does not call the handler. *)
Theorem refusal_is_answered args (kwargs : list (string * argument)) user_id :
  find_user_id (args ++ kwargs.*2) = Some (Returned user_id) ->
  user_id ∉ ADMIN_IDS ->
  exists target,
    wrapper ADMIN_IDS args kwargs
    = Returned (Answer target (isinstance_CallbackQuery target)) /\
    target ∈ args ++ kwargs.*2 /\ target <> Other.
Proof. apply wrapper_refuses. Qed.

(** X14.  The handler is called only for an administrator, or when there is
    nobody to ask: if [wrapper] calls the handler, then either no argument
    is a [Message] or a [CallbackQuery], or one of them comes from a user
    in [ADMIN_IDS]. *)
Theorem handler_called_only_for_admin args (kwargs : list (string * argument)) :
  wrapper ADMIN_IDS args kwargs = Returned CallFunc ->
  (forall a, a ∈ args ++ kwargs.*2 -> a = Other) \/
  exists a user_id,
    a ∈ args ++ kwargs.*2 /\
    (a = Message (Some user_id) \/ a = CallbackQuery (Some user_id)) /\
    user_id ∈ ADMIN_IDS.
Proof.
  intros Hw.
  destruct (find_user_id (args ++ kwargs.*2)) as [[user_id|e]|] eqn:Hfind.
  - destruct (decide (user_id ∈ ADMIN_IDS)) as [Hin|Hnot].
    + right. apply find_user_id_Some in Hfind as (a & u & Ha & Hk & Hr).
      exists a, user_id. destruct u as [id|]; simpl in Hr; [|done].
      simplify_eq. done.
    + destruct (wrapper_refuses _ _ _ Hfind Hnot) as (target & Heq & _).
      rewrite Heq in Hw. done.
  - rewrite find_user_id_app in Hfind. unfold wrapper in Hw.
    destruct (find_user_id args) as [r|]; [simplify_eq; done|].
    by rewrite Hfind in Hw.
  - left. by apply find_user_id_None.
Qed.

End Facts.

Lemma refusal_is_answered_witness :
  exists target,
    wrapper [1; 2] [Other; CallbackQuery (Some 7); Message (Some 1)] []
    = Returned (Answer target (isinstance_CallbackQuery target)) /\
    target ∈ [Other; CallbackQuery (Some 7); Message (Some 1)] ++ ([] : list (string * argument)).*2 /\
    target <> Other.
Proof.
  apply (refusal_is_answered [1; 2] [Other; CallbackQuery (Some 7); Message (Some 1)] [] 7).
  - reflexivity.
  - intros H. by repeat (apply elem_of_cons in H as [H|H]; [done|]); apply elem_of_nil in H.
Defined.

Lemma handler_called_only_for_admin_witness :
  (forall a, a ∈ [Other; CallbackQuery (Some 2)] ++ ([] : list (string * argument)).*2 ->
             a = Other) \/
  exists a user_id,
    a ∈ [Other; CallbackQuery (Some 2)] ++ ([] : list (string * argument)).*2 /\
    (a = Message (Some user_id) \/ a = CallbackQuery (Some user_id)) /\
    user_id ∈ [1; 2].
Proof.
  apply (handler_called_only_for_admin [1; 2] [Other; CallbackQuery (Some 2)] []).
  reflexivity.
Defined.

End AdminRequiredFacts.

(** ** Facts about [send_long_message] *)

Module SendLongMessageFacts.
Import SendLongMessage.

Section Facts.
Context {A : Type}.
Implicit Types (text : list A) (awaited : nat -> option exn).

(** All the calls, if no await fails. *)
Lemma send_chunks_all chat_id text chunk_size awaited n indices :
  (forall k, awaited k = None) ->
  send_chunks chat_id text chunk_size awaited n indices
  = (flat_map (fun i => [send_message chat_id (slice text i (i + chunk_size)); sleep 1])
       indices, Returned ()).
Proof.
  intros Hok. revert n. induction indices as [|i rest IH]; intros n; simpl; [done|].
  by rewrite !Hok, IH.
Qed.

Lemma messages_flat_map chat_id (chunks : list (list A)) :
  messages (flat_map (fun m => [send_message chat_id m; sleep 1]) chunks) = chunks.
Proof. induction chunks as [|m chunks IH]; simpl; [done|]. by f_equal. Qed.

Lemma slice_chunk text i c :
  0 <= i -> 0 <= c ->
  slice text i (i + c) = take (Z.to_nat c) (drop (Z.to_nat i) text).
Proof.
  intros Hi Hc. unfold slice.
  destruct (Z.ltb_spec i 0); [lia|]. destruct (Z.ltb_spec (i + c) 0); [lia|].
  destruct (Z.le_gt_cases (Z.of_nat (length text)) i) as [Hge|Hlt].
  - rewrite !drop_ge by lia. by rewrite !take_nil.
  - rewrite (Z.min_l i) by lia.
    destruct (Z.le_gt_cases (i + c) (Z.of_nat (length text))) as [Hle|Hgt].
    + rewrite Z.min_l by lia. f_equal. lia.
    + rewrite Z.min_r by lia.
      rewrite !take_ge; [done| |]; rewrite length_drop; lia.
Qed.

Lemma concat_chunks text (c m : nat) :
  concat ((fun k => take c (drop (k * c) text)) <$> seq 0 m) = take (m * c) text.
Proof.
  induction m as [|m IH]; [simpl; by rewrite take_0|].
  rewrite seq_S, fmap_app, concat_app, IH. simpl. rewrite app_nil_r.
  rewrite take_take_drop. f_equal. lia.
Qed.

Lemma range_chunks (len chunk_size : Z) :
  0 <= len -> 0 < chunk_size ->
  range 0 len chunk_size
  = Returned ((fun k => Z.of_nat k * chunk_size)
                <$> seq 0 (Z.to_nat ((len + chunk_size - 1) / chunk_size))).
Proof.
  intros Hlen Hc. unfold range.
  destruct (Z.eqb_spec chunk_size 0); [lia|].
  destruct (Z.ltb_spec 0 chunk_size); [|lia].
  assert ((if 0 <? len then (len - 0 - 1) / chunk_size + 1 else 0)
          = (len + chunk_size - 1) / chunk_size) as ->.
  { destruct (Z.ltb_spec 0 len).
    - replace (len + chunk_size - 1) with (len - 0 - 1 + 1 * chunk_size) by lia.
      by rewrite Z.div_add by lia.
    - assert (len = 0) as -> by lia. symmetry. apply Z.div_small. lia. }
  done.
Qed.

Lemma chunks_of_text text chunk_size :
  0 < chunk_size ->
  (fun i => slice text i (i + chunk_size))
    <$> ((fun k => Z.of_nat k * chunk_size)
           <$> seq 0 (Z.to_nat ((Z.of_nat (length text) + chunk_size - 1) / chunk_size)))
  = (fun k => take (Z.to_nat chunk_size) (drop (k * Z.to_nat chunk_size) text))
      <$> seq 0 (Z.to_nat ((Z.of_nat (length text) + chunk_size - 1) / chunk_size)).
Proof.
  intros Hc. rewrite <- list_fmap_compose. apply list_fmap_ext.
  intros _ k _. simpl. rewrite slice_chunk by lia. do 2 f_equal. lia.
Qed.

(** X15.  With a positive [chunk_size] and no failing call the text is sent
    whole and in order: the messages put together are the text, none is
    empty or longer than [chunk_size], there are
    [ceil(len(text) / chunk_size)] of them (none for the empty text), and
    each is followed by a sleep. *)
Theorem send_long_message_sends_whole_text chat_id text chunk_size awaited :
  0 < chunk_size ->
  (forall n, awaited n = None) ->
  exists chunks,
    send_long_message chat_id text chunk_size awaited
    = (flat_map (fun m => [send_message chat_id m; sleep 1]) chunks, Returned ()) /\
    concat chunks = text /\
    Forall (fun m => (0 < length m <= Z.to_nat chunk_size)%nat) chunks /\
    Z.of_nat (length chunks) = (Z.of_nat (length text) + chunk_size - 1) / chunk_size.
Proof.
  intros Hc Hok.
  set (count := Z.to_nat ((Z.of_nat (length text) + chunk_size - 1) / chunk_size)).
  assert (0 <= (Z.of_nat (length text) + chunk_size - 1) / chunk_size) as Hcount
    by (apply Z.div_pos; lia).
  assert (Z.of_nat (length text) <= Z.of_nat count * chunk_size) as Hcover.
  { unfold count. rewrite Z2Nat.id by done.
    pose proof (Z.mul_succ_div_gt (Z.of_nat (length text) + chunk_size - 1) chunk_size Hc).
    lia. }
  assert (forall k, (k < count)%nat -> Z.of_nat k * chunk_size < Z.of_nat (length text))
    as Hinside.
  { intros k Hk.
    assert (Z.of_nat k + 1 <= (Z.of_nat (length text) + chunk_size - 1) / chunk_size)
      as Hk' by (unfold count in Hk; lia).
    pose proof (Z.mul_div_le (Z.of_nat (length text) + chunk_size - 1) chunk_size Hc).
    nia. }
  exists ((fun k => take (Z.to_nat chunk_size) (drop (k * Z.to_nat chunk_size) text))
            <$> seq 0 count).
  split; [|split; [|split]].
  - unfold send_long_message. rewrite range_chunks by lia.
    rewrite send_chunks_all by done. f_equal. unfold count.
    rewrite <- (chunks_of_text text chunk_size Hc).
    generalize ((fun k => Z.of_nat k * chunk_size) <$>
      seq 0 (Z.to_nat ((Z.of_nat (length text) + chunk_size - 1) / chunk_size))).
    intros l. induction l as [|i l IH]; simpl; [done|]. by rewrite IH.
  - rewrite concat_chunks. apply take_ge. lia.
  - apply Forall_fmap, Forall_forall. intros k Hk. apply elem_of_seq in Hk. simpl.
    rewrite length_take, length_drop. specialize (Hinside k). lia.
  - rewrite length_fmap, length_seq. unfold count. by rewrite Z2Nat.id.
Qed.

(** X16.  A [chunk_size] that is not positive sends nothing: zero makes [range]
    raise [ValueError] before the first call, and with a negative one the
    coroutine returns normally without having sent any of the text. *)
Theorem send_long_message_without_chunks chat_id text chunk_size awaited :
  chunk_size <= 0 ->
  send_long_message chat_id text chunk_size awaited
  = ([], if chunk_size =? 0
         then Raised (ValueError "range() arg 3 must not be zero")
         else Returned ()).
Proof.
  intros Hc. unfold send_long_message, range.
  destruct (Z.eqb_spec chunk_size 0); [done|].
  destruct (Z.ltb_spec 0 chunk_size); [lia|].
  destruct (Z.ltb_spec (Z.of_nat (length text)) 0); [lia|]. done.
Qed.

Lemma send_chunks_failure chat_id text chunk_size awaited e indices :
  forall n0 n,
    (forall j, (n0 <= j < n0 + n)%nat -> awaited j = None) ->
    awaited (n0 + n)%nat = Some e ->
    (n < 2 * length indices)%nat ->
    send_chunks chat_id text chunk_size awaited n0 indices
    = (take (S n)
         (flat_map (fun i => [send_message chat_id (slice text i (i + chunk_size)); sleep 1])
            indices),
       Raised e).
Proof.
  induction indices as [|i rest IH]; intros n0 n Hbefore Hn Hlen; simpl in *; [lia|].
  destruct n as [|[|n]].
  - rewrite Nat.add_0_r in Hn. by rewrite Hn.
  - rewrite (Hbefore n0) by lia. replace (n0 + 1)%nat with (S n0) in Hn by lia.
    by rewrite Hn.
  - rewrite (Hbefore n0), (Hbefore (S n0)) by lia.
    rewrite (IH (S (S n0)) n); [done| | |lia].
    + intros j Hj. apply Hbefore. lia.
    + by replace (S (S n0) + n)%nat with (n0 + S (S n))%nat by lia.
Qed.

(** X17.  Nothing in [send_long_message] catches an exception: when an await
    fails (a [send_message], or a sleep that is cancelled), the coroutine
    ends with that exception after exactly the calls made so far, and the
    rest of the text is never sent. *)
Theorem send_long_message_stops_at_failure chat_id text chunk_size awaited n e :
  0 < chunk_size ->
  (forall j, (j < n)%nat -> awaited j = None) ->
  awaited n = Some e ->
  (n < length (send_long_message chat_id text chunk_size (fun _ => None)).1)%nat ->
  send_long_message chat_id text chunk_size awaited
  = (take (S n) (send_long_message chat_id text chunk_size (fun _ => None)).1, Raised e).
Proof.
  intros Hc Hbefore Hn. unfold send_long_message.
  rewrite range_chunks by lia.
  rewrite (send_chunks_all _ _ _ (fun _ => None)) by done. simpl.
  intros Hlen. apply (send_chunks_failure _ _ _ _ _ _ 0%nat n); try done.
  - intros j Hj. apply Hbefore. lia.
  - revert Hlen. generalize ((fun k => Z.of_nat k * chunk_size) <$>
       seq 0 (Z.to_nat ((Z.of_nat (length text) + chunk_size - 1) / chunk_size))).
    intros l. clear. revert n. induction l as [|i l IH]; intros n; simpl; [lia|].
    destruct n as [|[|n]]; try lia. specialize (IH n). lia.
Qed.

End Facts.

Lemma send_long_message_sends_whole_text_witness :
  exists chunks,
    send_long_message 5 [1; 2; 3; 4; 5] 2 (fun _ => None)
    = (flat_map (fun m => [send_message 5 m; sleep 1]) chunks, Returned ()) /\
    concat chunks = [1; 2; 3; 4; 5] /\
    Forall (fun m => (0 < length m <= Z.to_nat 2)%nat) chunks /\
    Z.of_nat (length chunks) = (Z.of_nat (length [1; 2; 3; 4; 5]) + 2 - 1) / 2.
Proof.
  apply (send_long_message_sends_whole_text 5 [1; 2; 3; 4; 5] 2 (fun _ => None));
    [lia|done].
Defined.

Lemma send_long_message_without_chunks_witness :
  send_long_message 5 [1; 2; 3] (-4) (fun _ => None)
  = ([], if -4 =? 0
         then Raised (ValueError "range() arg 3 must not be zero")
         else Returned ()).
Proof.
  apply (send_long_message_without_chunks 5 [1; 2; 3] (-4) (fun _ => None)). lia.
Defined.

Lemma send_long_message_stops_at_failure_witness :
  send_long_message 5 [1; 2; 3; 4; 5] 2
    (fun n => if decide (n = 2%nat) then Some (TelegramAPIError "flood") else None)
  = (take 3 (send_long_message 5 [1; 2; 3; 4; 5] 2 (fun _ => None)).1,
     Raised (TelegramAPIError "flood")).
Proof.
  apply (send_long_message_stops_at_failure 5 [1; 2; 3; 4; 5] 2
           (fun n => if decide (n = 2%nat) then Some (TelegramAPIError "flood") else None)
           2%nat (TelegramAPIError "flood")).
  - lia.
  - intros j Hj. destruct (decide (j = 2%nat)); [lia|done].
  - reflexivity.
  - vm_compute. lia.
Defined.

End SendLongMessageFacts.

(** ** Facts about the word count and [run_gpt_request] *)

Module GptRequestFacts.
Import GptRequest.

Section Facts.
Context {C : Type} (isspace : C -> bool) (strip : list C -> list C).
Implicit Types (text word : list C).

Lemma split_from_words text word :
  Forall (fun c => isspace c = false) word ->
  Forall (fun w => w <> [] /\ Forall (fun c => isspace c = false) w)
         (split_from isspace text word) /\
  concat (split_from isspace text word)
  = word ++ filter (fun c => negb (isspace c)) text.
Proof.
  revert word. induction text as [|c rest IH]; intros word Hword; simpl.
  - destruct word as [|c word]; simpl; [done|]. rewrite !app_nil_r. split; [|done].
    apply Forall_cons. split; [done|]. apply Forall_nil_2.
  - destruct (isspace c) eqn:Hc.
    + rewrite filter_cons_False by (rewrite Hc; simpl; tauto).
      destruct (IH [] (Forall_nil_2 _)) as [Hw Hcat].
      destruct word as [|c' word]; [done|]. simpl. rewrite Hcat. split; [|done].
      by constructor.
    + rewrite filter_cons_True by (by rewrite Hc).
      destruct (IH (word ++ [c])) as [Hw Hcat].
      { apply Forall_app. split; [done|]. by constructor. }
      split; [done|]. rewrite Hcat. by rewrite <- app_assoc.
Qed.

Lemma split_from_whitespace a s b word :
  isspace s = true ->
  split_from isspace (a ++ s :: b) word
  = split_from isspace a word ++ split_from isspace b [].
Proof.
  intros Hs. revert word. induction a as [|c a IH]; intros word; simpl.
  - rewrite Hs. by destruct word.
  - destruct (isspace c); [|apply IH].
    destruct word; simpl; by rewrite IH.
Qed.

Lemma split_from_length text word :
  (2 * length (split_from isspace text word)
   <= length text + 1 + (if word is [] then 0 else 1))%nat.
Proof.
  revert word. induction text as [|c rest IH]; intros word; simpl.
  - destruct word; simpl; lia.
  - destruct (isspace c).
    + specialize (IH []). simpl in IH. destruct word; simpl; lia.
    + specialize (IH (word ++ [c])). destruct (word ++ [c]) eqn:Hw; [|lia].
      by destruct word.
Qed.

Lemma split_from_nil text word :
  split_from isspace text word = [] <->
  word = [] /\ Forall (fun c => isspace c = true) text.
Proof.
  revert word. induction text as [|c rest IH]; intros word; simpl.
  - destruct word; split; try done. by intros [? _].
  - destruct (isspace c) eqn:Hc.
    + destruct word as [|c' word].
      * rewrite IH. split; intros [_ H]; split; try done; [by constructor|].
        by apply Forall_cons in H as [_ H].
      * split; [done|]. by intros [? _].
    + rewrite IH. split.
      * intros [H _]. by destruct word.
      * intros [_ H]. apply Forall_cons in H as [H _]. congruence.
Qed.

(** X18.  [text.split()] gives the words of the text: no word is empty, no word
    holds a whitespace character, and the words put together are the text
    without its whitespace. *)
Theorem split_gives_the_words text :
  Forall (fun w => w <> [] /\ Forall (fun c => isspace c = false) w)
         (split isspace text) /\
  concat (split isspace text) = filter (fun c => negb (isspace c)) text.
Proof. apply (split_from_words text []). constructor. Qed.

(** X19.  The count of two texts joined by a whitespace character is the sum of
    their counts. *)
Theorem approximate_tokens_count_additive a s b :
  isspace s = true ->
  approximate_tokens_count isspace (a ++ s :: b)
  = approximate_tokens_count isspace a + approximate_tokens_count isspace b.
Proof.
  intros Hs. unfold approximate_tokens_count, split.
  rewrite (split_from_whitespace a s b [] Hs), length_app. lia.
Qed.

(** X20.  A text of [n] characters counts at most [(n + 1) / 2] words, and it
    counts none exactly when it is empty or all whitespace. *)
Theorem approximate_tokens_count_bounds text :
  0 <= approximate_tokens_count isspace text /\
  2 * approximate_tokens_count isspace text <= Z.of_nat (length text) + 1 /\
  (approximate_tokens_count isspace text = 0 <->
   Forall (fun c => isspace c = true) text).
Proof.
  unfold approximate_tokens_count, split.
  pose proof (split_from_length text []) as Hlen. simpl in Hlen.
  split; [lia|]. split; [lia|].
  pose proof (split_from_nil text []) as Hnil. split.
  - intros H. apply Hnil. by destruct (split_from isspace text []).
  - intros H. by rewrite (proj2 Hnil (conj eq_refl H)).
Qed.

Variable TOKENS_LIMIT : Z.
Variable is_deadline_exceeded : exn -> bool.
Variable import_AioRpcError : option exn.

Lemma run_gpt_request_body_outcome messages total_tokens model_run :
  sum_tokens isspace messages = Returned total_tokens ->
  match (run_gpt_request_body isspace strip TOKENS_LIMIT is_deadline_exceeded None
           messages model_run).1 with
  | Returned r => r <> default_return_text
  | Raised e => isinstance_Exception e = false
  end.
Proof.
  intros Hsum. unfold run_gpt_request_body. rewrite Hsum.
  destruct (TOKENS_LIMIT <? total_tokens); [done|].
  destruct model_run as [[|alternative ?]|e]; try done.
  destruct (isinstance_Exception e) eqn:He; [|done].
  by destruct (is_deadline_exceeded e).
Qed.

(** X21.  Where the import at the head of its handler succeeds, the
    decorator of [run_gpt_request] has nothing to do when every message
    has a text: the body turns every [Exception] of the model into a reply
    itself, so the model is asked at most once ([retries=3] never
    retries), the decorator logs nothing and its [default_return] is never
    the result. A request over [TOKENS_LIMIT] is refused with the count,
    whatever the model would have answered. *)
Theorem run_gpt_request_never_retries messages total_tokens model_run :
  sum_tokens isspace messages = Returned total_tokens ->
  run_gpt_request isspace strip TOKENS_LIMIT is_deadline_exceeded None messages model_run
  = ((run_gpt_request_body isspace strip TOKENS_LIMIT is_deadline_exceeded None
        messages (model_run 1%positive)).1, []) /\
  (run_gpt_request isspace strip TOKENS_LIMIT is_deadline_exceeded None
     messages model_run).1
  <> Returned default_return_text /\
  (TOKENS_LIMIT < total_tokens ->
   run_gpt_request isspace strip TOKENS_LIMIT is_deadline_exceeded None messages model_run
   = (Returned (limit_exceeded total_tokens), [])).
Proof.
  intros Hsum.
  pose proof (run_gpt_request_body_outcome messages total_tokens
                (model_run 1%positive) Hsum) as Hbody.
  assert (run_gpt_request isspace strip TOKENS_LIMIT is_deadline_exceeded None
            messages model_run
          = ((run_gpt_request_body isspace strip TOKENS_LIMIT is_deadline_exceeded None
                messages (model_run 1%positive)).1, [])) as Heq.
  { unfold run_gpt_request, ErrorHandler.wrapper, ErrorHandler.try_body. simpl.
    unfold ErrorHandler.retry_if_exception_type_Exception.
    destruct ((run_gpt_request_body isspace strip TOKENS_LIMIT is_deadline_exceeded None
                 messages (model_run 1%positive)).1) as [r|e]; [done|].
    simpl in Hbody. rewrite Hbody. simpl. by rewrite Hbody. }
  split; [done|]. split.
  - rewrite Heq. simpl.
    destruct ((run_gpt_request_body isspace strip TOKENS_LIMIT is_deadline_exceeded None
                 messages (model_run 1%positive)).1) as [r|e]; [|done].
    by intros [= ->].
  - intros Hlimit. rewrite Heq. unfold run_gpt_request_body. rewrite Hsum.
    by destruct (Z.ltb_spec TOKENS_LIMIT total_tokens); [|lia].
Qed.

(** With an SDK that lacks the name, the handler itself raises: an
    [Exception] of the model is then replaced by the import's exception,
    which leaves the body on every attempt, and the decorator gives up
    after its three attempts with its [default_return]. *)
Lemma run_gpt_request_import_fails messages total_tokens model_run e import_error :
  sum_tokens isspace messages = Returned total_tokens ->
  total_tokens <= TOKENS_LIMIT ->
  (forall n, model_run n = Raised e) ->
  isinstance_Exception e = true ->
  isinstance_Exception import_error = true ->
  run_gpt_request isspace strip TOKENS_LIMIT is_deadline_exceeded (Some import_error)
    messages model_run
  = (Returned default_return_text, [ErrorHandler.mkLog "run_gpt_request" import_error]).
Proof.
  intros Hsum Hlimit Hrun He Himp.
  unfold run_gpt_request, ErrorHandler.wrapper, ErrorHandler.try_body.
  unfold run_gpt_request_body. rewrite Hsum.
  destruct (Z.ltb_spec TOKENS_LIMIT total_tokens); [lia|].
  simpl. rewrite !Hrun, He. simpl.
  unfold ErrorHandler.retry_if_exception_type_Exception. rewrite !Himp. simpl.
  by destruct import_error.
Qed.

Lemma sum_tokens_raises messages e :
  sum_tokens isspace messages = Raised e -> e = OtherException "KeyError".
Proof.
  induction messages as [|[text|] messages IH]; simpl; try done.
  - destruct (sum_tokens isspace messages); [done|]. intros [= <-]. by apply IH.
  - by intros [= <-].
Qed.

Lemma sum_tokens_missing messages :
  None ∈ messages -> sum_tokens isspace messages = Raised (OtherException "KeyError").
Proof.
  induction messages as [|[text|] messages IH]; simpl; intros H.
  - by apply elem_of_nil in H.
  - apply elem_of_cons in H as [H|H]; [done|]. by rewrite IH.
  - done.
Qed.

(** X22.  A message without a ["text"] entry is the case the decorator is left
    with: the [KeyError] comes before the [try] of the body, on every
    attempt, so the decorator gives up after its three attempts, logs the
    error once and returns its [default_return]; the model is never
    asked. *)
Theorem run_gpt_request_missing_text messages model_run :
  None ∈ messages ->
  run_gpt_request isspace strip TOKENS_LIMIT is_deadline_exceeded import_AioRpcError
    messages model_run
  = (Returned default_return_text,
     [ErrorHandler.mkLog "run_gpt_request" (OtherException "KeyError")]).
Proof.
  intros Hin. unfold run_gpt_request, ErrorHandler.wrapper, ErrorHandler.try_body.
  unfold run_gpt_request_body. rewrite (sum_tokens_missing messages Hin). done.
Qed.

End Facts.

Lemma approximate_tokens_count_additive_witness :
  approximate_tokens_count (Nat.eqb 0) ([1; 2; 0; 3] ++ 0 :: [0; 4; 5])%nat
  = approximate_tokens_count (Nat.eqb 0) [1; 2; 0; 3]%nat
    + approximate_tokens_count (Nat.eqb 0) [0; 4; 5]%nat.
Proof.
  apply (approximate_tokens_count_additive (Nat.eqb 0) [1; 2; 0; 3]%nat 0%nat [0; 4; 5]%nat).
  reflexivity.
Defined.

Lemma run_gpt_request_never_retries_witness :
  run_gpt_request (Nat.eqb 0) id 3 (fun _ => false) None [Some [1; 0; 2]%nat; Some [3]%nat]
    (fun _ => Raised (OtherException "AioRpcError"))
  = ((run_gpt_request_body (Nat.eqb 0) id 3 (fun _ => false) None
        [Some [1; 0; 2]%nat; Some [3]%nat]
        (Raised (OtherException "AioRpcError"))).1, []) /\
  (run_gpt_request (Nat.eqb 0) id 3 (fun _ => false) None [Some [1; 0; 2]%nat; Some [3]%nat]
     (fun _ => Raised (OtherException "AioRpcError"))).1
  <> Returned default_return_text /\
  (3 < 3 ->
   run_gpt_request (Nat.eqb 0) id 3 (fun _ => false) None [Some [1; 0; 2]%nat; Some [3]%nat]
     (fun _ => Raised (OtherException "AioRpcError"))
   = (Returned (limit_exceeded 3), [])).
Proof.
  apply (run_gpt_request_never_retries (Nat.eqb 0) id 3 (fun _ => false)
           [Some [1; 0; 2]%nat; Some [3]%nat] 3
           (fun _ => Raised (OtherException "AioRpcError"))).
  reflexivity.
Defined.

Lemma run_gpt_request_missing_text_witness :
  run_gpt_request (Nat.eqb 0) id 3 (fun _ => false) None [Some [1]%nat; None]
    (fun _ => Returned [[7]%nat])
  = (Returned default_return_text,
     [ErrorHandler.mkLog "run_gpt_request" (OtherException "KeyError")]).
Proof.
  apply (run_gpt_request_missing_text (Nat.eqb 0) id 3 (fun _ => false) None
           [Some [1]%nat; None] (fun _ => Returned [[7]%nat])).
  by apply (list_elem_of_lookup_2 _ 1%nat).
Defined.

End GptRequestFacts.

(** ** Facts about the admin panel *)

Module AdminPanelFacts.
Import AdminPanel.

(** X23.  No call of [process_pending_sub_action] stores an end date in the
    past. Every [extend_subscription] it makes is for the target of the
    administrator's pending action and with a date not before today; a
    subscription is set to expired only together with the end date
    today, and to premium only together with an end date. *)
Theorem stored_end_date_is_not_in_the_past pending_sub_actions admin_id months today row
    pending' calls answer :
  0 <= months ->
  process_pending_sub_action pending_sub_actions admin_id (Some months) today row
  = (pending', calls, answer) ->
  (forall tid d, extend_subscription tid d ∈ calls ->
     today <= d /\
     exists pa, pending_sub_actions !! admin_id = Some pa /\ tid = target_tid pa) /\
  (forall tid, set_subscription_status tid "expired" ∈ calls ->
     extend_subscription tid today ∈ calls) /\
  (forall tid status, set_subscription_status tid status ∈ calls ->
     (status = "premium" \/ status = "expired") /\
     exists d, extend_subscription tid d ∈ calls).
Proof.
  intros Hmonths. unfold process_pending_sub_action.
  destruct (pending_sub_actions !! admin_id) as [pa|] eqn:Hpa.
  2:{ intros [= <- <- <-]. repeat split; intros; exfalso; by eapply not_elem_of_nil. }
  destruct row as [stored|e].
  2:{ intros [= <- <- <-]. repeat split; intros; exfalso; by eapply not_elem_of_nil. }
  cbv zeta. unfold timedelta, date_add.
  destruct (String.eqb (action pa) "extend").
  - destruct (Z.abs (months * 30) <=? 999999999).
    2:{ intros [= <- <- <-]. repeat split; intros; exfalso; by eapply not_elem_of_nil. }
    destruct (_ && _).
    2:{ intros [= <- <- <-]. repeat split; intros; exfalso; by eapply not_elem_of_nil. }
    intros [= <- <- <-]. split; [|split].
    + intros tid d Hin. apply elem_of_cons in Hin as [Hin|Hin]; [done|].
      apply list_elem_of_singleton in Hin. simplify_eq. split; [|eauto].
      destruct (Z.ltb_spec (default today stored) today); lia.
    + intros tid Hin. apply elem_of_cons in Hin as [Hin|Hin]; [done|].
      by apply list_elem_of_singleton in Hin.
    + intros tid status Hin. apply elem_of_cons in Hin as [Hin|Hin].
      * simplify_eq. split; [by left|]. eexists. apply elem_of_cons. right.
        by apply list_elem_of_singleton.
      * by apply list_elem_of_singleton in Hin.
  - destruct (String.eqb (action pa) "cancel_partial").
    2:{ intros [= <- <- <-]. repeat split; intros; exfalso; by eapply not_elem_of_nil. }
    destruct (Z.abs (months * 30) <=? 999999999).
    2:{ intros [= <- <- <-]. repeat split; intros; exfalso; by eapply not_elem_of_nil. }
    destruct (_ && _).
    2:{ intros [= <- <- <-]. repeat split; intros; exfalso; by eapply not_elem_of_nil. }
    destruct (Z.leb_spec (default today stored + - (months * 30)) today).
    + intros [= <- <- <-]. split; [|split].
      * intros tid d Hin. apply elem_of_cons in Hin as [Hin|Hin]; [done|].
        apply list_elem_of_singleton in Hin. simplify_eq. split; [lia|eauto].
      * intros tid Hin. apply elem_of_cons in Hin as [Hin|Hin].
        -- simplify_eq. apply elem_of_cons. right. by apply list_elem_of_singleton.
        -- by apply list_elem_of_singleton in Hin.
      * intros tid status Hin. apply elem_of_cons in Hin as [Hin|Hin].
        -- simplify_eq. split; [by right|]. eexists. apply elem_of_cons. right.
           by apply list_elem_of_singleton.
        -- by apply list_elem_of_singleton in Hin.
    + intros [= <- <- <-]. split; [|split].
      * intros tid d Hin. apply list_elem_of_singleton in Hin. simplify_eq.
        split; [lia|eauto].
      * intros tid Hin. by apply list_elem_of_singleton in Hin.
      * intros tid status Hin. by apply list_elem_of_singleton in Hin.
Qed.

(** X24.  The pending action is used up exactly when the handler gets as far as
    its answer: it is removed when the answer is about the action, and it
    stays, with nothing written to the database, when there is no number
    to read, when the query fails, or when the new date is out of the
    range of [datetime.date]. *)
Theorem pending_action_is_kept_on_failure pending_sub_actions admin_id months today row :
  let '(pending', calls, answer) :=
    process_pending_sub_action pending_sub_actions admin_id months today row in
  match answer with
  | Returned (Some enter_a_number) => pending' = pending_sub_actions /\ calls = []
  | Returned (Some _) => pending' = delete admin_id pending_sub_actions
  | Returned None =>
      pending_sub_actions !! admin_id = None /\
      pending' = pending_sub_actions /\ calls = []
  | Raised _ => pending' = pending_sub_actions /\ calls = []
  end.
Proof.
  unfold process_pending_sub_action.
  destruct (pending_sub_actions !! admin_id) as [pa|] eqn:Hpa; [|done].
  destruct months as [months|]; [|done].
  destruct row as [stored|e]; [|done].
  cbv zeta.
  destruct (String.eqb (action pa) "extend").
  - destruct (timedelta (months * 30)) as [delta|e]; [|done].
    by destruct (date_add _ delta).
  - destruct (String.eqb (action pa) "cancel_partial"); [|done].
    destruct (timedelta (months * 30)) as [delta|e]; [|done].
    destruct (date_add _ (- delta)) as [new_end_date|e]; [|done].
    by destruct (new_end_date <=? today).
Qed.

(** X25.  An extension never shortens: with a number of months that is not
    negative, the end date written by the action ["extend"] is at least the
    end date read, and at least 30 days per month after today. *)
Theorem extend_never_shortens pending_sub_actions admin_id months today stored
    pa pending' calls answer :
  0 <= months ->
  pending_sub_actions !! admin_id = Some pa ->
  action pa = "extend" ->
  process_pending_sub_action pending_sub_actions admin_id (Some months) today
    (Returned stored) = (pending', calls, answer) ->
  forall tid d, extend_subscription tid d ∈ calls ->
    today + 30 * months <= d /\
    (forall s, stored = Some s -> s + 30 * months <= d) /\
    answer = Returned (Some (extended (target_tid pa) months d)).
Proof.
  intros Hmonths Hpa Hact. unfold process_pending_sub_action. rewrite Hpa, Hact.
  cbv zeta. simpl String.eqb. cbv iota.
  unfold timedelta, date_add.
  destruct (Z.abs (months * 30) <=? 999999999).
  2:{ intros [= <- <- <-] tid d Hin. by apply not_elem_of_nil in Hin. }
  destruct (_ && _).
  2:{ intros [= <- <- <-] tid d Hin. by apply not_elem_of_nil in Hin. }
  intros [= <- <- <-] tid d Hin.
  apply elem_of_cons in Hin as [Hin|Hin]; [done|].
  apply list_elem_of_singleton in Hin. simplify_eq.
  split; [|split; [|done]].
  - destruct (Z.ltb_spec (default today stored) today); lia.
  - intros s ->. simpl. destruct (Z.ltb_spec s today); lia.
Qed.

(** X26.  [process_admin_callbacks] hands a callback to [clear_gpt_queue] for
    the data ["admin_clear_queue"] and for no other, and does nothing at
    all for the data of the shutdown and of the subscription handlers. *)
Theorem clear_gpt_queue_routed data :
  (process_admin_callbacks data = clear_gpt_queue <-> data = "admin_clear_queue") /\
  (String.prefix "admin_sub_" data = true \/ data = "admin_shutdown" \/
   data = "confirm_shutdown" -> process_admin_callbacks data = nothing).
Proof.
  split; [split|].
  - unfold process_admin_callbacks.
    destruct (String.prefix "admin_sub_" data); [done|].
    destruct (_ || _); [done|].
    destruct (String.prefix "admin_list_users_" data); [done|].
    destruct (String.eqb data "admin_show_queue"); [done|].
    destruct (String.eqb_spec data "admin_clear_queue"); [done|].
    destruct (String.eqb data "admin_broadcast"); [done|].
    by destruct (String.eqb data "admin_back").
  - by intros ->.
  - unfold process_admin_callbacks. intros [-> |[-> | ->]]; done.
Qed.

Lemma stored_end_date_is_not_in_the_past_witness :
  (forall tid d, extend_subscription tid d
                 ∈ [set_subscription_status 42 "expired"; extend_subscription 42 739000] ->
     739000 <= d /\
     exists pa, ({[7 := mkPendingSubAction "cancel_partial" 42]} : gmap Z PendingSubAction)
                !! 7 = Some pa /\ tid = target_tid pa) /\
  (forall tid, set_subscription_status tid "expired"
               ∈ [set_subscription_status 42 "expired"; extend_subscription 42 739000] ->
     extend_subscription tid 739000
     ∈ [set_subscription_status 42 "expired"; extend_subscription 42 739000]) /\
  (forall tid status, set_subscription_status tid status
               ∈ [set_subscription_status 42 "expired"; extend_subscription 42 739000] ->
     (status = "premium" \/ status = "expired") /\
     exists d, extend_subscription tid d
               ∈ [set_subscription_status 42 "expired"; extend_subscription 42 739000]).
Proof.
  apply (stored_end_date_is_not_in_the_past
           {[7 := mkPendingSubAction "cancel_partial" 42]} 7 2 739000
           (Returned (Some 739050)) ∅
           [set_subscription_status 42 "expired"; extend_subscription 42 739000]
           (Returned (Some (cancelled_fully 42 2)))).
  - lia.
  - vm_compute. reflexivity.
Defined.

Lemma extend_never_shortens_witness :
  739000 + 30 * 2 <= 739110 /\
  (forall s, Some 739050 = Some s -> s + 30 * 2 <= 739110) /\
  Returned (Some (extended 42 2 739110))
  = Returned (Some (extended (target_tid (mkPendingSubAction "extend" 42)) 2 739110)).
Proof.
  apply (extend_never_shortens {[7 := mkPendingSubAction "extend" 42]} 7 2 739000
           (Some 739050) (mkPendingSubAction "extend" 42) ∅
           [set_subscription_status 42 "premium"; extend_subscription 42 739110]
           (Returned (Some (extended 42 2 739110)))) with (tid := 42).
  - lia.
  - reflexivity.
  - reflexivity.
  - vm_compute. reflexivity.
  - by apply (list_elem_of_lookup_2 _ 1%nat).
Defined.

End AdminPanelFacts.
